(** * byteflow2: control-flow restructuring of a bytecode CFG

    A shallow embedding of [byteflow2.py]: labels, basic and region blocks,
    the flow builder, the block map with its graph queries, the dominator
    engine, loop and branch restructuring and the [ByteFlow] orchestrator.

    Conventions of the embedding.
    - A Python [dict] is an association list in insertion order ([Dict]);
      re-assigning a present key keeps its position, [pop]/[del] followed by
      an assignment moves it to the end, as CPython does.
    - A Python [set] of labels is a [gset Label]; iterating it walks
      [elements], a fixed order that, like CPython's hash order, carries no
      meaning.  Theorems are stated so that they do not depend on it.
    - Python integers are [Z].
    - A [BlockMap] is a mutable object: block maps live in a store and a
      region block holds the address of its subregion, so that the in-place
      updates of the restructuring passes are seen through every alias.
    - Exceptions are values of [Exc]; loops whose trip count is not
      structurally bounded take fuel, and running out of it is the separate
      outcome [Diverged]. *)

From stdpp Require Import base option list gmap sets strings.
From Stdlib Require Import ZArith Lia Sorted.

Local Open Scope Z_scope.

(** ** Labels *)

Inductive Label :=
| BCLabel (offset : Z)
| ControlLabel (index : Z).

#[global] Instance Label_eq_dec : EqDecision Label.
Proof. solve_decision. Defined.

Definition Label_to_sum (l : Label) : Z + Z :=
  match l with BCLabel o => inl o | ControlLabel i => inr i end.

Definition Label_of_sum (s : Z + Z) : Label :=
  match s with inl o => BCLabel o | inr i => ControlLabel i end.

#[global] Instance Label_countable : Countable Label.
Proof. refine (inj_countable' Label_to_sum Label_of_sum _). by intros []. Defined.

Definition is_BCLabel (l : Label) : bool :=
  match l with BCLabel _ => true | ControlLabel _ => false end.

(** ** Exceptions and results *)

Inductive Exc :=
| AssertionError
| KeyError
| IndexError
| StopIteration
| UnboundLocalError
| TypeError
| ValueError
| RuntimeError.

#[global] Instance Exc_eq_dec : EqDecision Exc.
Proof. solve_decision. Defined.

(** Result of a computation that reads no mutable object. *)
Inductive Res (A : Type) :=
| Ok (a : A)
| Err (e : Exc)
| NoFuel.
Arguments Ok {A} a.
Arguments Err {A} e.
Arguments NoFuel {A}.

#[global] Instance Res_eq_dec {A} `{EqDecision A} : EqDecision (Res A).
Proof. solve_decision. Defined.

#[global] Instance Res_ret : MRet Res := @Ok.
#[global] Instance Res_bind : MBind Res := λ A B f m,
  match m with Ok a => f a | Err e => Err e | NoFuel => NoFuel end.

Definition from_option {A} (e : Exc) (o : option A) : Res A :=
  match o with Some a => Ok a | None => Err e end.

Definition assert (b : bool) : Res unit :=
  if b then Ok tt else Err AssertionError.

(** [for x in xs: acc = body(acc, x)] for a fallible body. *)
Fixpoint for_each {A S} (body : S → A → Res S) (xs : list A) (acc : S) : Res S :=
  match xs with
  | [] => Ok acc
  | x :: xs' => acc' ← body acc x; for_each body xs' acc'
  end.

(** ** Dictionaries in insertion order *)

Module Dict.
Abbreviation t K V := (list (K * V)) (only parsing).

Section dict.
Context {K V : Type} `{EqDecision K}.
Implicit Types d : t K V.

Definition keys d : list K := d.*1.
Definition values d : list V := d.*2.

Fixpoint get (k : K) d : option V :=
  match d with
  | [] => None
  | (k', v) :: d' => if decide (k = k') then Some v else get k d'
  end.

Definition mem (k : K) d : bool := bool_decide (is_Some (get k d)).

Fixpoint replace (k : K) (v : V) d : t K V :=
  match d with
  | [] => []
  | (k', v') :: d' =>
      if decide (k = k') then (k, v) :: d' else (k', v') :: replace k v d'
  end.

(** [d[k] = v] *)
Definition set (k : K) (v : V) d : t K V :=
  if mem k d then replace k v d else d ++ [(k, v)].

(** [del d[k]] on a present key; [pop] reports the absent one. *)
Definition del (k : K) d : t K V :=
  filter (λ kv, kv.1 ≠ k) d.

Definition pop (k : K) d : option (V * t K V) :=
  match get k d with
  | Some v => Some (v, del k d)
  | None => None
  end.

End dict.
End Dict.

(** ** Blocks *)

Record BasicBlock := mkBasicBlock {
  begin : Label;
  end_ : Label;
  fallthrough : bool;
  jump_targets : list Label;
  backedges : list Label;
}.

#[global] Instance BasicBlock_eq_dec : EqDecision BasicBlock.
Proof. solve_decision. Defined.

(** The [headers] field of a region is built as a dict by loop extraction,
    as a tuple by head extraction and as a set by tail extraction. *)
Inductive Headers :=
| HeadersDict (d : Dict.t Label BasicBlock)
| HeadersTuple (t : list Label)
| HeadersSet (s : gset Label).

(** Address of a [BlockMap] object in the store. *)
Abbreviation BlockMap := nat (only parsing).

Record RegionBlock := mkRegionBlock {
  base : BasicBlock;
  kind : string;
  headers : Headers;
  subregion : BlockMap;
  exit : option Label;
}.

Inductive Block :=
| Basic (b : BasicBlock)
| Region (r : RegionBlock).

#[global] Instance Headers_eq_dec : EqDecision Headers.
Proof. solve_decision. Defined.
#[global] Instance RegionBlock_eq_dec : EqDecision RegionBlock.
Proof. solve_decision. Defined.
#[global] Instance Block_eq_dec : EqDecision Block.
Proof. solve_decision. Defined.

Definition block_base (b : Block) : BasicBlock :=
  match b with Basic bb => bb | Region r => base r end.

Definition block_begin (b : Block) : Label := begin (block_base b).
Definition block_jump_targets (b : Block) : list Label := jump_targets (block_base b).
Definition block_backedges (b : Block) : list Label := backedges (block_base b).

(** [dataclasses.replace] on the fields shared by both kinds of block. *)
Definition with_base (f : BasicBlock → BasicBlock) (b : Block) : Block :=
  match b with
  | Basic bb => Basic (f bb)
  | Region r =>
      Region (mkRegionBlock (f (base r)) (kind r) (headers r) (subregion r) (exit r))
  end.

Definition is_exiting (b : Block) : bool :=
  bool_decide (block_jump_targets b = []).

Definition set_jump_targets (jts : list Label) (bb : BasicBlock) : BasicBlock :=
  mkBasicBlock (begin bb) (end_ bb) (fallthrough bb) jts (backedges bb).

Definition replace_jump_targets (b : Block) (jts : list Label) : Block :=
  with_base (set_jump_targets jts) b.

Definition replace_backedge (b : Block) (loop_head : Label) : Res Block :=
  if bool_decide (loop_head ∈ block_jump_targets b) then
    _ ← assert (bool_decide (length (block_jump_targets b) = 1%nat));
    _ ← assert (bool_decide (block_backedges b = []));
    Ok (with_base (λ bb, mkBasicBlock (begin bb) (end_ bb) (fallthrough bb)
                           [] [loop_head]) b)
  else Ok b.

(** The labels a region lists as its headers, whatever the container. *)
Definition header_labels (h : Headers) : list Label :=
  match h with
  | HeadersDict d => Dict.keys d
  | HeadersTuple t => t
  | HeadersSet s => elements s
  end.

Abbreviation Graph := (Dict.t Label Block) (only parsing).

(** ** Opcode classification and instruction offsets *)

Definition _cond_jump : list string :=
  ["FOR_ITER"; "POP_JUMP_IF_FALSE"; "POP_JUMP_IF_TRUE"]%string.
Definition _uncond_jump : list string := ["JUMP_ABSOLUTE"; "JUMP_FORWARD"]%string.
Definition _terminating : list string := ["RETURN_VALUE"]%string.

Definition is_conditional_jump (opname : string) : bool :=
  bool_decide (opname ∈ _cond_jump).
Definition is_unconditional_jump (opname : string) : bool :=
  bool_decide (opname ∈ _uncond_jump).
Definition is_exiting_op (opname : string) : bool :=
  bool_decide (opname ∈ _terminating).

Definition _next_inst_offset (offset : Label) : Res Label :=
  match offset with
  | BCLabel o => Ok (BCLabel (o + 2))
  | ControlLabel _ => Err AssertionError
  end.

Definition _prev_inst_offset (offset : Label) : Res Label :=
  match offset with
  | BCLabel o => Ok (BCLabel (o - 2))
  | ControlLabel _ => Err AssertionError
  end.

(** ** Flow builder *)

(** The fields of [dis.Instruction] the builder reads. *)
Record Instruction := mkInstruction {
  opname : string;
  argval : Z;
  offset : Z;
  is_jump_target : bool;
}.

Record FlowInfo := mkFlowInfo {
  block_offsets : gset Label;
  jump_insts : Dict.t Label (list Label);
  last_offset : Z;
}.

Definition _add_jump_inst (fi : FlowInfo) (off : Label) (targets : list Label)
  : FlowInfo :=
  mkFlowInfo (foldl (λ s t, s ∪ {[t]}) (block_offsets fi) targets)
             (Dict.set off targets (jump_insts fi))
             (last_offset fi).

Definition from_bytecode_step (fi : FlowInfo) (inst : Instruction) : Res FlowInfo :=
  let fi1 :=
    if bool_decide (offset inst = 0) || is_jump_target inst
    then mkFlowInfo (block_offsets fi ∪ {[BCLabel (offset inst)]})
                    (jump_insts fi) (last_offset fi)
    else fi in
  if is_conditional_jump (opname inst) then
    nxt ← _next_inst_offset (BCLabel (offset inst));
    Ok (_add_jump_inst fi1 (BCLabel (offset inst)) [BCLabel (argval inst); nxt])
  else if is_unconditional_jump (opname inst) then
    Ok (_add_jump_inst fi1 (BCLabel (offset inst)) [BCLabel (argval inst)])
  else if is_exiting_op (opname inst) then
    Ok (_add_jump_inst fi1 (BCLabel (offset inst)) [])
  else Ok fi1.

(** [FlowInfo.from_bytecode]: the loop variable [inst] is read after the
    loop, which is unbound for an empty stream. *)
Definition from_bytecode (bc : list Instruction) : Res FlowInfo :=
  fi ← for_each from_bytecode_step bc (mkFlowInfo ∅ [] 0);
  match last bc with
  | Some inst => Ok (mkFlowInfo (block_offsets fi) (jump_insts fi) (offset inst))
  | None => Err UnboundLocalError
  end.

(** [sorted] on labels: labels of one class compare by their integer, labels
    of different classes do not compare. *)
Fixpoint insert_sorted (x : Z) (l : list Z) : list Z :=
  match l with
  | [] => [x]
  | y :: l' => if bool_decide (x ≤ y) then x :: l else y :: insert_sorted x l'
  end.

Definition sort_Z (l : list Z) : list Z := foldr insert_sorted [] l.

Definition label_int (l : Label) : Z :=
  match l with BCLabel o => o | ControlLabel i => i end.

Definition sorted_labels (s : gset Label) : Res (list Label) :=
  let ls := elements s in
  if forallb is_BCLabel ls then Ok (BCLabel <$> sort_Z (label_int <$> ls))
  else if forallb (λ l, negb (is_BCLabel l)) ls
       then Ok (ControlLabel <$> sort_Z (label_int <$> ls))
       else Err TypeError.

Definition add_node (g : Graph) (b : Block) : Graph :=
  Dict.set (block_begin b) b g.

Definition build_block (fi : FlowInfo) (g : Graph) (be : Label * Label) : Res Graph :=
  let '(b, e) := be in
  term_offset ← _prev_inst_offset e;
  let '(targets, ft) :=
    match Dict.get term_offset (jump_insts fi) with
    | None => ([e], true)
    | Some ts => (ts, false)
    end in
  Ok (add_node g (Basic (mkBasicBlock b e ft targets []))).

Definition build_basicblocks (fi : FlowInfo) (end_offset : option Label) : Res Graph :=
  offsets ← sorted_labels (block_offsets fi);
  end_offset ← match end_offset with
               | Some e => Ok e
               | None => _next_inst_offset (BCLabel (last_offset fi))
               end;
  for_each (build_block fi) (zip offsets (tail offsets ++ [end_offset])) [].

(** ** Mutable state: the label generator and the store of block maps *)

Record State := mkState {
  clg_index : Z;
  store : list Graph;
}.

Inductive Outcome (A : Type) :=
| Done (a : A) (s : State)
| Raised (e : Exc) (s : State)
| Diverged.
Arguments Done {A} a s.
Arguments Raised {A} e s.
Arguments Diverged {A}.

Definition M (A : Type) : Type := State → Outcome A.

#[global] Instance M_ret : MRet M := λ A a s, Done a s.
#[global] Instance M_bind : MBind M := λ A B f m s,
  match m s with
  | Done a s' => f a s'
  | Raised e s' => Raised e s'
  | Diverged => Diverged
  end.

Definition raise {A} (e : Exc) : M A := λ s, Raised e s.
Definition diverge {A} : M A := λ _, Diverged.

Definition lift {A} (r : Res A) : M A := λ s,
  match r with Ok a => Done a s | Err e => Raised e s | NoFuel => Diverged end.

Fixpoint for_eachM {A S} (body : S → A → M S) (xs : list A) (acc : S) : M S :=
  match xs with
  | [] => mret acc
  | x :: xs' => acc' ← body acc x; for_eachM body xs' acc'
  end.

(** [clg.new_index()] *)
Definition new_index : M Z := λ s,
  Done (clg_index s) (mkState (clg_index s + 1) (store s)).

Definition get_graph (bbmap : BlockMap) : M Graph := λ s,
  Done (default [] (store s !! bbmap)) s.

Definition put_graph (bbmap : BlockMap) (g : Graph) : M unit := λ s,
  Done tt (mkState (clg_index s) (<[bbmap := g]> (store s))).

(** [BlockMap(graph)]: a new object. *)
Definition new_BlockMap (g : Graph) : M BlockMap := λ s,
  Done (length (store s)) (mkState (clg_index s) (store s ++ [g])).

(** [bbmap.add_node(b)] *)
Definition bbmap_add_node (bbmap : BlockMap) (b : Block) : M unit :=
  g ← get_graph bbmap; put_graph bbmap (add_node g b).

(** [bbmap.graph[k]] *)
Definition bbmap_getitem (bbmap : BlockMap) (k : Label) : M Block :=
  g ← get_graph bbmap; lift (from_option KeyError (Dict.get k g)).

(** [bbmap.graph[k] = b] *)
Definition bbmap_setitem (bbmap : BlockMap) (k : Label) (b : Block) : M unit :=
  g ← get_graph bbmap; put_graph bbmap (Dict.set k b g).

(** [bbmap.graph.pop(k)] *)
Definition bbmap_pop (bbmap : BlockMap) (k : Label) : M Block :=
  g ← get_graph bbmap;
  match Dict.pop k g with
  | Some (b, g') => _ ← put_graph bbmap g'; mret b
  | None => raise KeyError
  end.

(** [del bbmap.graph[k]] *)
Definition bbmap_delitem (bbmap : BlockMap) (k : Label) : M unit :=
  _ ← bbmap_pop bbmap k; mret tt.

(** ** Sets and lists as Python uses them *)

(** [next(iter(s))] *)
Definition next_iter (s : gset Label) : Res Label :=
  from_option StopIteration (head (elements s)).

(** [l.pop()] *)
Definition list_pop {A} (l : list A) : option (A * list A) :=
  match reverse l with
  | [] => None
  | x :: r => Some (x, reverse r)
  end.

(** A [defaultdict(set)] keyed by labels, read with [tbl[k]]. *)
Definition tbl_get (tbl : gmap Label (gset Label)) (k : Label) : gset Label :=
  default ∅ (tbl !! k).

Definition tbl_add (tbl : gmap Label (gset Label)) (k x : Label)
  : gmap Label (gset Label) :=
  <[k := tbl_get tbl k ∪ {[x]}]> tbl.

(** ** Block map queries *)

Definition graph_keys (g : Graph) : gset Label := list_to_set (Dict.keys g).

Definition find_head (g : Graph) : Res Label :=
  let heads :=
    foldl (λ hs kb, foldl (λ hs jt, hs ∖ {[jt]}) hs (block_jump_targets kb.2))
          (graph_keys g) g in
  _ ← assert (bool_decide (size heads = 1%nat));
  next_iter heads.

(** Modelled from the spec: the module [scc] that [compute_scc] imports is
    not among the sources.  The spec asks for "the list of strongly-connected
    node-sets over the jump-target edge relation, restricted to labels
    present in the map"; [GraphWrap] below is the source's adapter, [scc] the
    model.  The order of the components in the list is the model's (first
    appearance of a member among the keys); the spec fixes none. *)
Definition GraphWrap_getitem (g : Graph) (vertex : Label) : list Label :=
  match Dict.get vertex g with
  | Some b => filter (λ k, Dict.mem k g = true) (block_jump_targets b)
  | None => []
  end.

Definition succ_set (g : Graph) (s : gset Label) : gset Label :=
  list_to_set (elements s ≫= GraphWrap_getitem g).

Fixpoint reach_closure (n : nat) (g : Graph) (s : gset Label) : gset Label :=
  match n with
  | O => s
  | S n' => reach_closure n' g (s ∪ succ_set g s)
  end.

Definition descendants (g : Graph) (v : Label) : gset Label :=
  reach_closure (length g) g {[v]}.

Definition scc_of (g : Graph) (v : Label) : gset Label :=
  filter (λ w, v ∈ descendants g w) (descendants g v).

Definition scc (g : Graph) : list (gset Label) :=
  foldl (λ acc v, if existsb (λ c : gset Label, bool_decide (v ∈ c)) acc
                  then acc else acc ++ [scc_of g v])
        [] (Dict.keys g).

Definition compute_scc (g : Graph) : list (gset Label) := scc g.

Definition find_headers_and_entries (g : Graph) (loop : gset Label)
  : gset Label * gset Label :=
  foldl (λ '(headers, entries) '(node, b),
           if bool_decide (node ∈ loop) then (headers, entries)
           else
             let nodes_jump_in_loop :=
               list_to_set (block_jump_targets b) ∩ loop in
             (headers ∪ nodes_jump_in_loop,
              if bool_decide (nodes_jump_in_loop ≠ ∅)
              then entries ∪ {[node]} else entries))
        (∅, ∅) g.

Definition find_exits_step (loop : gset Label) (g : Graph)
    (acc : gset Label * gset Label) (inside : Label)
  : Res (gset Label * gset Label) :=
  b ← from_option KeyError (Dict.get inside g);
  let '(pre_exits, post_exits) :=
    foldl (λ '(pre, post) jt,
             if bool_decide (jt ∈ loop) then (pre, post)
             else (pre ∪ {[inside]}, post ∪ {[jt]}))
          acc (block_jump_targets b) in
  Ok (if is_exiting b then pre_exits ∪ {[inside]} else pre_exits, post_exits).

Definition find_exits (loop : gset Label) (g : Graph)
  : Res (gset Label * gset Label) :=
  for_each (find_exits_step loop g) (elements loop) (∅, ∅).

(** [BlockMap.join_returns] *)
Definition join_returns (self : BlockMap) : M unit :=
  g ← get_graph self;
  let return_nodes := (filter (λ kb, is_exiting kb.2 = true) g).*1 in
  if bool_decide (1 < length return_nodes)%nat then
    i ← new_index;
    let return_solo_label := ControlLabel i in
    j ← new_index;
    let return_solo_block :=
      Basic (mkBasicBlock return_solo_label (ControlLabel j) false [] []) in
    _ ← bbmap_add_node self return_solo_block;
    for_eachM (λ _ rnode,
                 b ← bbmap_pop self rnode;
                 bbmap_add_node self (replace_jump_targets b [return_solo_label]))
              return_nodes tt
  else mret tt.

Definition join_exits_rewire (bbmap : BlockMap) (pre_exit_label exit_node : Label)
    (_ : unit) (loop_node : Label) : M unit :=
  if bool_decide (loop_node = pre_exit_label) then mret tt
  else
    b ← bbmap_getitem bbmap loop_node;
    if bool_decide (exit_node ∈ block_jump_targets b) then
      let new_jump_targets :=
        filter (λ t, t ≠ exit_node) (block_jump_targets b) ++ [pre_exit_label] in
      b' ← bbmap_pop bbmap loop_node;
      bbmap_add_node bbmap (replace_jump_targets b' new_jump_targets)
    else mret tt.

(** [join_exits]: the set [loop] is updated in place by the source; the
    model returns it with the two labels. *)
Definition join_exits (loop : gset Label) (bbmap : BlockMap) (exits : gset Label)
  : M (gset Label * Label * Label) :=
  i ← new_index;
  let pre_exit_label := ControlLabel i in
  j ← new_index;
  let post_exit_label := ControlLabel j in
  let loop := loop ∪ {[pre_exit_label]} in
  e1 ← new_index;
  let post_exit_block :=
    Basic (mkBasicBlock post_exit_label (ControlLabel e1) false (elements exits) []) in
  e2 ← new_index;
  let pre_exit_block :=
    Basic (mkBasicBlock pre_exit_label (ControlLabel e2) false [post_exit_label] []) in
  _ ← bbmap_add_node bbmap pre_exit_block;
  _ ← bbmap_add_node bbmap post_exit_block;
  _ ← for_eachM (λ _ exit_node,
                   for_eachM (join_exits_rewire bbmap pre_exit_label exit_node)
                             (elements loop) tt)
                (elements exits) tt;
  mret (loop, pre_exit_label, post_exit_label).

(** [join_pre_exits]: [inner_nodes] is updated in place by the source and
    returned here with the label. *)
Definition join_pre_exits (exits : gset Label) (post_exit : Label)
    (inner_nodes : gset Label) (bbmap : BlockMap) : M (gset Label * Label) :=
  i ← new_index;
  let pre_exit_label := ControlLabel i in
  e ← new_index;
  let pre_exit_block :=
    Basic (mkBasicBlock pre_exit_label (ControlLabel e) false [post_exit] []) in
  _ ← bbmap_add_node bbmap pre_exit_block;
  let inner_nodes := inner_nodes ∪ {[pre_exit_label]} in
  _ ← for_eachM (λ _ exit_node,
                   b ← bbmap_pop bbmap exit_node;
                   bbmap_add_node bbmap (replace_jump_targets b [pre_exit_label]))
                (elements exits) tt;
  mret (inner_nodes, pre_exit_label).

Definition join_headers (headers entries : gset Label) (bbmap : BlockMap)
  : M (Label * Block) :=
  _ ← lift (assert (bool_decide (1 < size headers)%nat));
  i ← new_index;
  let synth_entry_label := ControlLabel i in
  e ← new_index;
  let synth_entry_block :=
    Basic (mkBasicBlock synth_entry_label (ControlLabel e) false (elements headers) []) in
  _ ← bbmap_add_node bbmap synth_entry_block;
  _ ← for_eachM (λ _ block,
                   b ← bbmap_pop bbmap block;
                   bbmap_add_node bbmap (replace_jump_targets b [synth_entry_label]))
                (elements entries) tt;
  mret (synth_entry_label, synth_entry_block).

(** [is_reachable_dfs]: one turn of the [while True] loop per unit of fuel. *)
Fixpoint is_reachable_loop (fuel : nat) (g : Graph) (end_ : Label)
    (seen : gset Label) (to_vist : list Label) : Res bool :=
  match fuel with
  | O => NoFuel
  | S fuel' =>
      match list_pop to_vist with
      | None => Ok false
      | Some (block, to_vist) =>
          if bool_decide (block ∈ seen) then
            is_reachable_loop fuel' g end_ seen to_vist
          else if bool_decide (block = end_) then Ok true
          else
            let seen := seen ∪ {[block]} in
            match Dict.get block g with
            | Some b =>
                is_reachable_loop fuel' g end_ seen
                                  (to_vist ++ block_jump_targets b)
            | None => is_reachable_loop fuel' g end_ seen to_vist
            end
      end
  end.

Definition is_reachable_dfs (fuel : nat) (g : Graph) (begin end_ : Label) : Res bool :=
  b ← from_option KeyError (Dict.get begin g);
  is_reachable_loop fuel g end_ ∅ (block_jump_targets b).

(** ** Dominator engine *)

Abbreviation DomTable := (gmap Label (gset Label)) (only parsing).
Abbreviation Doms := (Dict.t Label (gset Label)) (only parsing).

(** The edge scan shared by [_doms] and [_post_doms]: [fwd[dst].add(src)] and
    [bwd[src].add(dst)] for every edge that stays inside the map. *)
Definition edge_scan (g : Graph) : DomTable * DomTable :=
  foldl (λ tbls '(src, node),
           foldl (λ '(into, out_of) dst,
                    if Dict.mem dst g
                    then (tbl_add into dst src, tbl_add out_of src dst)
                    else (into, out_of))
                 tbls (block_jump_targets node))
        (∅, ∅) g.

(** [functools.reduce(set.intersection, sets)] *)
Definition reduce_intersection (sets : list (gset Label)) : Res (gset Label) :=
  match sets with
  | [] => Err TypeError
  | d :: ds => Ok (foldl (∩) d ds)
  end.

Definition new_doms_of (preds_table : DomTable) (doms : Doms) (n : Label)
  : Res (gset Label) :=
  let preds := tbl_get preds_table n in
  if bool_decide (preds ≠ ∅) then
    sets ← mapM (λ p, from_option KeyError (Dict.get p doms)) (elements preds);
    inter ← reduce_intersection sets;
    Ok ({[n]} ∪ inter)
  else Ok {[n]}.

(** The [while todo] loop of [_find_dominators_internal]. *)
Fixpoint dom_loop (fuel : nat) (entries : gset Label)
    (preds_table succs_table : DomTable) (doms : Doms) (todo : list Label)
  : Res Doms :=
  match fuel with
  | O => NoFuel
  | S fuel' =>
      match list_pop todo with
      | None => Ok doms
      | Some (n, todo) =>
          if bool_decide (n ∈ entries) then
            dom_loop fuel' entries preds_table succs_table doms todo
          else
            new_doms ← new_doms_of preds_table doms n;
            old ← from_option KeyError (Dict.get n doms);
            if bool_decide (new_doms ≠ old) then
              _ ← assert (bool_decide (size new_doms < size old)%nat);
              dom_loop fuel' entries preds_table succs_table
                       (Dict.set n new_doms doms)
                       (todo ++ elements (tbl_get succs_table n))
            else dom_loop fuel' entries preds_table succs_table doms todo
      end
  end.

Definition init_doms (entries : gset Label) (nodes : list Label)
  : Doms * list Label :=
  foldl (λ '(doms, todo) n,
           if bool_decide (n ∈ entries) then (doms, todo)
           else (Dict.set n (list_to_set nodes) doms, todo ++ [n]))
        (foldl (λ doms e, Dict.set e {[e]} doms) [] (elements entries), [])
        nodes.

Definition _find_dominators_internal (fuel : nat) (entries : gset Label)
    (nodes : list Label) (preds_table succs_table : DomTable) : Res Doms :=
  if bool_decide (entries = ∅) then Err RuntimeError
  else
    let '(doms, todo) := init_doms entries nodes in
    dom_loop fuel entries preds_table succs_table doms todo.

Definition dom_entries (g : Graph) (preds_table : DomTable) : gset Label :=
  list_to_set (filter (λ k, tbl_get preds_table k = ∅) (Dict.keys g)).

Definition _doms (fuel : nat) (g : Graph) : Res Doms :=
  let '(preds_table, succs_table) := edge_scan g in
  _find_dominators_internal fuel (dom_entries g preds_table) (Dict.keys g)
                            preds_table succs_table.

Definition postdom_entries (g : Graph) : gset Label :=
  list_to_set
    (filter (λ kb, list_to_set (block_jump_targets kb.2) ∩ graph_keys g = ∅) g).*1.

Definition _post_doms (fuel : nat) (g : Graph) : Res Doms :=
  let '(succs_table, preds_table) := edge_scan g in
  _find_dominators_internal fuel (postdom_entries g) (Dict.keys g)
                            preds_table succs_table.

(** One sweep of the [while changed] loop of [_imm_doms]. *)
Definition imm_doms_sweep (idoms : Doms) : Res (Doms * bool) :=
  for_each (λ '(idoms, changed) k,
              vs ← from_option KeyError (Dict.get k idoms);
              vs' ← for_each (λ acc v,
                                d ← from_option KeyError (Dict.get v idoms);
                                Ok (acc ∖ d))
                             (elements vs) vs;
              Ok (Dict.set k vs' idoms,
                  changed || bool_decide (size vs' < size vs)%nat))
           (Dict.keys idoms) (idoms, false).

Fixpoint imm_doms_loop (fuel : nat) (idoms : Doms) : Res Doms :=
  match fuel with
  | O => NoFuel
  | S fuel' =>
      '(idoms, changed) ← imm_doms_sweep idoms;
      if changed : bool then imm_doms_loop fuel' idoms else Ok idoms
  end.

Definition _imm_doms (fuel : nat) (doms : Doms) : Res (Dict.t Label Label) :=
  idoms ← imm_doms_loop fuel ((λ kv, (kv.1, kv.2 ∖ {[kv.1]})) <$> doms);
  for_each (λ out '(k, vs),
              if bool_decide (vs ≠ ∅) then
                match elements vs with
                | [v] => Ok (Dict.set k v out)
                | _ => Err ValueError
                end
              else Ok out)
           idoms [].

(** ** Loop restructuring *)

(** [{bbmap.graph.pop(k) for k in loop}]: a set of blocks.  Building it
    hashes every block, and a [RegionBlock] is not hashable (its fields hold
    a dict or a block map). *)
Definition pop_insiders (bbmap : BlockMap) (loop : list Label) : M (list BasicBlock) :=
  for_eachM (λ insiders k,
               b ← bbmap_pop bbmap k;
               match b with
               | Basic bb =>
                   mret (if bool_decide (bb ∈ insiders) then insiders
                         else insiders ++ [bb])
               | Region _ => raise TypeError
               end)
            loop [].

Definition build_loop_body (headers : gset Label) (loop_head : Label)
    (insiders : list BasicBlock) : Res Graph :=
  for_each (λ body node,
              if bool_decide (begin node ∈ headers) then Ok body
              else
                b ← replace_backedge (Basic node) loop_head;
                Ok (Dict.set (begin node) b body))
           insiders [].

Definition build_loop_headers (headers : gset Label) (insiders : list BasicBlock)
  : Dict.t Label BasicBlock :=
  foldl (λ d node,
           if bool_decide (begin node ∈ headers)
           then Dict.set (begin node) node d else d)
        [] insiders.

(** The body of [for loop in loops].  [labels] carries the function's local
    variables [pre_exit_label], [post_exit_label]: unbound ([None]) until an
    iteration assigns them, and kept from one iteration to the next. *)
Definition restructure_loop_body (rec : BlockMap → M unit) (bbmap : BlockMap)
    (labels : option (Label * Label)) (loop : gset Label)
  : M (option (Label * Label)) :=
  g ← get_graph bbmap;
  let '(headers, entries) := find_headers_and_entries g loop in
  '(pre_exits, post_exits) ← lift (find_exits loop g);
  '(loop, labels) ←
    (if bool_decide (size post_exits ≠ 1%nat) then
       '(loop, pre_exit_label, post_exit_label) ← join_exits loop bbmap post_exits;
       mret (loop, Some (pre_exit_label, post_exit_label))
     else if bool_decide (size pre_exits ≠ 1%nat) then
       (* [Exception("unreachable?")] is built and dropped *)
       mret (loop, labels)
     else
       pre_exit_label ← lift (next_iter pre_exits);
       post_exit_label ← lift (next_iter post_exits);
       mret (loop, Some (pre_exit_label, post_exit_label)));
  (* the two [_logger.debug] calls read the locals *)
  '(pre_exit_label, post_exit_label) ← lift (from_option UnboundLocalError labels);
  insiders ← pop_insiders bbmap (elements loop);
  _ ← lift (assert (bool_decide (size headers = 1%nat)));
  loop_head ← lift (next_iter headers);
  loop_body ← lift (build_loop_body headers loop_head insiders);
  end_label ← lift (_next_inst_offset loop_head);
  sub ← new_BlockMap loop_body;
  let blk :=
    Region (mkRegionBlock
              (mkBasicBlock loop_head end_label false [post_exit_label] [])
              "loop"
              (HeadersDict (build_loop_headers headers insiders))
              sub
              (Some pre_exit_label)) in
  _ ← rec sub;
  _ ← bbmap_setitem bbmap loop_head blk;
  mret labels.

Fixpoint restructure_loop (fuel : nat) (bbmap : BlockMap) : M unit :=
  match fuel with
  | O => diverge
  | S fuel' =>
      g ← get_graph bbmap;
      let scc := compute_scc g in
      let loops := filter (λ nodes, 1 < size nodes)%nat scc in
      _ ← for_eachM (restructure_loop_body (restructure_loop fuel') bbmap) loops None;
      mret tt
  end.

(** ** Branch restructuring *)

(** The [while True] walk from the head of the map down to [begin]. *)
Fixpoint head_walk (fuel : nat) (g : Graph) (begin : Label)
    (head_subregion : list Label) (current_block : Label) : Res (list Label) :=
  match fuel with
  | O => NoFuel
  | S fuel' =>
      let head_subregion := head_subregion ++ [current_block] in
      if bool_decide (current_block = begin) then Ok head_subregion
      else
        b ← from_option KeyError (Dict.get current_block g);
        nxt ← from_option IndexError (head (block_jump_targets b));
        head_walk fuel' g begin head_subregion nxt
  end.

(** [subgraph = BlockMap()] filled with [bbmap.graph[k]] for [k] in [ks]. *)
Definition extract_subgraph (bbmap : BlockMap) (ks : list Label) : M BlockMap :=
  subgraph ← new_BlockMap [];
  _ ← for_eachM (λ _ k, b ← bbmap_getitem bbmap k; bbmap_add_node subgraph b) ks tt;
  mret subgraph.

Definition delete_nodes (bbmap : BlockMap) (ks : list Label) : M unit :=
  for_eachM (λ _ k, bbmap_delitem bbmap k) ks tt.

(** The double loop that fills empty branch regions with synthetic blocks. *)
Definition fill_empty_branches (fuel : nat) (bbmap : BlockMap)
    (jump_targets : list Label) : M (list Label * bool) :=
  for_eachM (λ acc a,
    for_eachM (λ '(new_jump_targets, jump_targets_changed) b,
      if bool_decide (a = b) then mret (new_jump_targets, jump_targets_changed)
      else
        g ← get_graph bbmap;
        r ← lift (is_reachable_dfs fuel g a b);
        if r : bool then
          i ← new_index;
          let synthetic_branch_block_label := ControlLabel i in
          e ← new_index;
          let synthetic_branch_block_block :=
            Basic (mkBasicBlock synthetic_branch_block_label (ControlLabel e)
                                true [b] []) in
          _ ← bbmap_add_node bbmap synthetic_branch_block_block;
          mret (new_jump_targets ++ [synthetic_branch_block_label], true)
        else mret (new_jump_targets ++ [b], jump_targets_changed))
      jump_targets acc)
    jump_targets ([], false).

Definition branch_sub_keys (doms : Doms) (bra_start end_ : Label) : gset Label :=
  list_to_set (filter (λ kd, bra_start ∈ kd.2 ∧ end_ ∉ kd.2) doms).*1.

(** Extraction of one branch arm; appends to [recursive_subregions]. *)
Definition extract_branch (bbmap : BlockMap) (end_ : Label)
    (recursive_subregions : list BlockMap) (arm : Label * gset Label)
  : M (list BlockMap) :=
  let '(bra_start, inner_nodes) := arm in
  if bool_decide (inner_nodes ≠ ∅) then
    g ← get_graph bbmap;
    '(pre_exits, post_exits) ← lift (find_exits inner_nodes g);
    '(inner_nodes, pre_exit_label, post_exit_label) ←
      (if bool_decide (size pre_exits ≠ 1%nat) && bool_decide (size post_exits = 1%nat)
       then
         post_exit_label ← lift (next_iter post_exits);
         '(inner_nodes, pre_exit_label) ←
           join_pre_exits pre_exits post_exit_label inner_nodes bbmap;
         mret (inner_nodes, pre_exit_label, post_exit_label)
       else if bool_decide (size pre_exits ≠ 1%nat)
               && bool_decide (1 < size post_exits)%nat
       then join_exits inner_nodes bbmap post_exits
       else
         pre_exit_label ← lift (next_iter pre_exits);
         b ← bbmap_getitem bbmap pre_exit_label;
         post_exit_label ← lift (from_option IndexError (head (block_jump_targets b)));
         mret (inner_nodes, pre_exit_label, post_exit_label));
    subgraph ← extract_subgraph bbmap (elements inner_nodes);
    let subregion :=
      Region (mkRegionBlock
                (mkBasicBlock bra_start end_ false [post_exit_label] [])
                "branch" (HeadersDict []) subgraph (Some pre_exit_label)) in
    _ ← delete_nodes bbmap (elements inner_nodes);
    _ ← bbmap_setitem bbmap bra_start subregion;
    sg ← get_graph subgraph;
    mret (if bool_decide (sg ≠ []) then recursive_subregions ++ [subgraph]
          else recursive_subregions)
  else mret recursive_subregions.

(** The body of [for begin, end in _iter_branch_regions(...)].  The loop
    state is the local [doms] (rebound when jump targets change) and the
    queue [recursive_subregions]. *)
Definition branch_region_body (fuel : nat) (bbmap : BlockMap) (begin end_ : Label)
    (doms : Doms) (recursive_subregions : list BlockMap)
  : M (Doms * list BlockMap) :=
  (* partition head *)
  g ← get_graph bbmap;
  head_label ← lift (find_head g);
  head_subregion ← lift (head_walk fuel g begin [] head_label);
  subgraph ← extract_subgraph bbmap head_subregion;
  begin_block ← bbmap_getitem bbmap begin;
  let subregion :=
    Region (mkRegionBlock
              (mkBasicBlock head_label begin false (block_jump_targets begin_block) [])
              "head" (HeadersTuple [head_label]) subgraph None) in
  _ ← delete_nodes bbmap head_subregion;
  _ ← bbmap_setitem bbmap begin subregion;
  (* insert synthetic branch blocks in case of empty branch regions *)
  begin_block ← bbmap_getitem bbmap begin;
  '(new_jump_targets, jump_targets_changed) ←
    fill_empty_branches fuel bbmap (block_jump_targets begin_block);
  doms ←
    (if jump_targets_changed : bool then
       b ← bbmap_pop bbmap begin;
       _ ← bbmap_add_node bbmap (replace_jump_targets b new_jump_targets);
       g ← get_graph bbmap;
       doms ← lift (_doms fuel g);
       postdoms ← lift (_post_doms fuel g);
       _ ← lift (_imm_doms fuel postdoms);
       _ ← lift (_imm_doms fuel doms);
       mret doms
     else mret doms);
  (* identify branch regions *)
  begin_block ← bbmap_getitem bbmap begin;
  let branch_regions :=
    (λ bra_start, (bra_start, branch_sub_keys doms bra_start end_))
      <$> block_jump_targets begin_block in
  (* identify and close tail *)
  g ← get_graph bbmap;
  let tail_subregion :=
    foldl (λ t '(b, sub), (t ∖ {[b]}) ∖ sub) (graph_keys g) branch_regions
    ∖ {[begin]} in
  let '(headers, entries) := find_headers_and_entries g tail_subregion in
  '(exits, _) ← lift (find_exits tail_subregion g);
  '(tail_subregion, entry_label) ←
    (if bool_decide (1 < size headers)%nat then
       '(entry_label, _) ← join_headers headers entries bbmap;
       mret (tail_subregion ∪ {[entry_label]}, entry_label)
     else
       entry_label ← lift (next_iter headers);
       mret (tail_subregion, entry_label));
  subgraph ← extract_subgraph bbmap (elements tail_subregion);
  tail_end ← lift (next_iter exits);
  let subregion :=
    Region (mkRegionBlock
              (mkBasicBlock entry_label tail_end false [] [])
              "tail" (HeadersSet headers) subgraph None) in
  _ ← delete_nodes bbmap (elements tail_subregion);
  _ ← bbmap_setitem bbmap entry_label subregion;
  sg ← get_graph subgraph;
  let recursive_subregions :=
    if bool_decide (sg ≠ []) then recursive_subregions ++ [subgraph]
    else recursive_subregions in
  (* extract the subregion *)
  recursive_subregions ←
    for_eachM (extract_branch bbmap end_) branch_regions recursive_subregions;
  mret (doms, recursive_subregions).

(** One step of the generator [_iter_branch_regions] over its snapshot of the
    items, followed by the loop body when the step yields. *)
Definition branch_region_step (fuel : nat) (bbmap : BlockMap)
    (immdoms postimmdoms : Dict.t Label Label)
    (st : Doms * list BlockMap) (item : Label * Block)
  : M (Doms * list BlockMap) :=
  let '(begin, node) := item in
  if bool_decide (1 < length (block_jump_targets node))%nat then
    match Dict.get begin postimmdoms with
    | Some end_ =>
        d ← lift (from_option KeyError (Dict.get end_ immdoms));
        if bool_decide (d = begin)
        then branch_region_body fuel bbmap begin end_ st.1 st.2
        else mret st
    | None => mret st
    end
  else mret st.

Fixpoint restructure_branch (fuel : nat) (bbmap : BlockMap) : M unit :=
  match fuel with
  | O => diverge
  | S fuel' =>
      g ← get_graph bbmap;
      doms ← lift (_doms fuel' g);
      postdoms ← lift (_post_doms fuel' g);
      postimmdoms ← lift (_imm_doms fuel' postdoms);
      immdoms ← lift (_imm_doms fuel' doms);
      '(_, recursive_subregions) ←
        for_eachM (branch_region_step fuel' bbmap immdoms postimmdoms) g (doms, []);
      for_eachM (λ _ region, restructure_branch fuel' region) recursive_subregions tt
  end.

(** ** The orchestrator *)

Record ByteFlow := mkByteFlow {
  bc : list Instruction;
  bbmap : BlockMap;
}.

(** [copy.deepcopy] of a block map: the dict, and behind every region block
    the block map of its subregion, are copied; [memo] maps the objects
    already copied to their copies. *)
Fixpoint deepcopy_BlockMap (fuel : nat) (memo : list (BlockMap * BlockMap))
    (a : BlockMap) : M (BlockMap * list (BlockMap * BlockMap)) :=
  match Dict.get a memo with
  | Some a' => mret (a', memo)
  | None =>
      match fuel with
      | O => diverge
      | S fuel' =>
          g ← get_graph a;
          a' ← new_BlockMap [];
          '(g', memo) ←
            for_eachM (λ '(g', memo) '(k, b),
                         match b with
                         | Basic _ => mret (g' ++ [(k, b)], memo)
                         | Region r =>
                             '(sub', memo) ← deepcopy_BlockMap fuel' memo (subregion r);
                             mret (g' ++ [(k, Region (mkRegionBlock
                                                        (base r) (kind r) (headers r)
                                                        sub' (exit r)))],
                                   memo)
                         end)
                      g ([], (a, a') :: memo);
          _ ← put_graph a' g';
          mret (a', memo)
      end
  end.

Definition deepcopy (fuel : nat) (a : BlockMap) : M BlockMap :=
  '(a', _) ← deepcopy_BlockMap fuel [] a; mret a'.

(** [ByteFlow.from_bytecode], from the decoded instructions on. *)
Definition ByteFlow_from_bytecode (code : list Instruction) : M ByteFlow :=
  flowinfo ← lift (from_bytecode code);
  g ← lift (build_basicblocks flowinfo None);
  bbmap ← new_BlockMap g;
  mret (mkByteFlow code bbmap).

Definition _join_returns (fuel : nat) (self : ByteFlow) : M ByteFlow :=
  bbmap' ← deepcopy fuel (bbmap self);
  _ ← join_returns (bbmap self);
  mret (mkByteFlow (bc self) bbmap').

Definition _restructure_loop (fuel : nat) (self : ByteFlow) : M ByteFlow :=
  bbmap' ← deepcopy fuel (bbmap self);
  _ ← restructure_loop fuel bbmap';
  mret (mkByteFlow (bc self) bbmap').

Definition _restructure_branch (fuel : nat) (self : ByteFlow) : M ByteFlow :=
  bbmap' ← deepcopy fuel (bbmap self);
  _ ← restructure_branch fuel bbmap';
  mret (mkByteFlow (bc self) bbmap').

Definition restructure (fuel : nat) (self : ByteFlow) : M ByteFlow :=
  bbmap' ← deepcopy fuel (bbmap self);
  (* close *)
  _ ← join_returns (bbmap self);
  (* handle loop *)
  _ ← restructure_loop fuel bbmap';
  (* handle branch *)
  _ ← restructure_branch fuel bbmap';
  mret (mkByteFlow (bc self) bbmap').

(** ** Observations on block maps *)

Definition graph_at (s : State) (a : BlockMap) : Graph :=
  default [] (store s !! a).

(** Keys of the terminating nodes (no jump targets), in dict order. *)
Definition terminating_nodes (g : Graph) : list Label :=
  (filter (λ kb, is_exiting kb.2 = true) g).*1.

Definition region_blocks (g : Graph) : list (Label * RegionBlock) :=
  g ≫= λ '(k, b), match b with Region r => [(k, r)] | Basic _ => [] end.

Definition regions_of_kind (kd : string) (g : Graph) : list (Label * RegionBlock) :=
  filter (λ kr, kind kr.2 = kd) (region_blocks g).

(** Header labels of a region that are also keys of its subregion. *)
Definition headers_in_subregion (s : State) (r : RegionBlock) : list Label :=
  filter (λ h, Dict.mem h (graph_at s (subregion r)) = true)
         (header_labels (headers r)).

(** The jump-target edge relation of a map, restricted to its keys. *)
Definition graph_edge (g : Graph) (u v : Label) : Prop :=
  v ∈ GraphWrap_getitem g u.

(** Predecessors of [n] inside the map: sources of an edge to [n]. *)
Definition is_pred (g : Graph) (n p : Label) : Prop :=
  ∃ b, (p, b) ∈ g ∧ n ∈ block_jump_targets b.

(** A dict: no key twice. *)
Definition is_dict {V} (d : Dict.t Label V) : Prop := NoDup (Dict.keys d).

(** Every node sits under its own [begin] label, as [add_node] files it. *)
Definition keyed_by_begin (g : Graph) : Prop :=
  ∀ k b, (k, b) ∈ g → block_begin b = k.

(** ** Instruction streams used below *)

Definition inst (op : string) (arg off : Z) (jt : bool) : Instruction :=
  mkInstruction op arg off jt.

(** Scenario A; the flags are those of the six block starts, the
    instructions inside a block carry none. *)
Definition scenarioA (f0 f4 f8 f12 f14 f18 : bool) : list Instruction :=
  [ inst "OP" 0 0 f0;
    inst "POP_JUMP_IF_TRUE" 14 2 false;
    inst "OP" 0 4 f4;
    inst "POP_JUMP_IF_TRUE" 12 6 false;
    inst "OP" 0 8 f8;
    inst "JUMP_ABSOLUTE" 18 10 false;
    inst "OP" 0 12 f12;
    inst "OP" 4 14 f14;
    inst "JUMP_ABSOLUTE" 18 16 false;
    inst "RETURN_VALUE" 0 18 f18 ].

(** Scenario B: Scenario A with the jump at offset 16 sent back to 4. *)
Definition scenarioB : list Instruction :=
  [ inst "OP" 0 0 false;
    inst "POP_JUMP_IF_TRUE" 14 2 false;
    inst "OP" 0 4 true;
    inst "POP_JUMP_IF_TRUE" 12 6 false;
    inst "OP" 0 8 false;
    inst "JUMP_ABSOLUTE" 18 10 false;
    inst "OP" 0 12 true;
    inst "OP" 4 14 true;
    inst "JUMP_ABSOLUTE" 4 16 false;
    inst "RETURN_VALUE" 0 18 true ].

Definition scenarioB_graph : Graph :=
  [ (BCLabel 0, Basic (mkBasicBlock (BCLabel 0) (BCLabel 4) false [BCLabel 14; BCLabel 4] []));
    (BCLabel 4, Basic (mkBasicBlock (BCLabel 4) (BCLabel 8) false [BCLabel 12; BCLabel 8] []));
    (BCLabel 8, Basic (mkBasicBlock (BCLabel 8) (BCLabel 12) false [BCLabel 18] []));
    (BCLabel 12, Basic (mkBasicBlock (BCLabel 12) (BCLabel 14) true [BCLabel 14] []));
    (BCLabel 14, Basic (mkBasicBlock (BCLabel 14) (BCLabel 18) false [BCLabel 4] []));
    (BCLabel 18, Basic (mkBasicBlock (BCLabel 18) (BCLabel 20) false [] [])) ].

(** Two returns: [if c: return a] / [return b]. *)
Definition two_returns : list Instruction :=
  [ inst "POP_JUMP_IF_TRUE" 4 0 false;
    inst "RETURN_VALUE" 0 2 false;
    inst "RETURN_VALUE" 0 4 true ].

(** A diamond: a conditional, two arms, one return. *)
Definition diamond : list Instruction :=
  [ inst "POP_JUMP_IF_TRUE" 4 0 false;
    inst "JUMP_FORWARD" 6 2 false;
    inst "OP" 0 4 true;
    inst "RETURN_VALUE" 0 6 true ].

(** Three loops, one instruction per block: {2,4}, {6,8,10} and {12,14}.
    The middle one leaves to 12 from two of its nodes (6 and 8). *)
Definition three_loops : list Instruction :=
  [ inst "POP_JUMP_IF_TRUE" 12 0 false;
    inst "POP_JUMP_IF_TRUE" 6 2 true;
    inst "JUMP_ABSOLUTE" 2 4 false;
    inst "POP_JUMP_IF_TRUE" 12 6 true;
    inst "POP_JUMP_IF_TRUE" 12 8 false;
    inst "JUMP_ABSOLUTE" 6 10 false;
    inst "POP_JUMP_IF_TRUE" 16 12 true;
    inst "JUMP_ABSOLUTE" 12 14 false;
    inst "RETURN_VALUE" 0 16 true ].

(** The middle loop of [three_loops] alone. *)
Definition two_exit_loop : list Instruction :=
  [ inst "OP" 0 0 false;
    inst "POP_JUMP_IF_TRUE" 8 2 true;
    inst "POP_JUMP_IF_TRUE" 8 4 false;
    inst "JUMP_ABSOLUTE" 2 6 false;
    inst "RETURN_VALUE" 0 8 true ].

Definition initial_state : State := mkState 0 [].

Definition scenarioA_graph : Graph :=
  [ (BCLabel 0, Basic (mkBasicBlock (BCLabel 0) (BCLabel 4) false [BCLabel 14; BCLabel 4] []));
    (BCLabel 4, Basic (mkBasicBlock (BCLabel 4) (BCLabel 8) false [BCLabel 12; BCLabel 8] []));
    (BCLabel 8, Basic (mkBasicBlock (BCLabel 8) (BCLabel 12) false [BCLabel 18] []));
    (BCLabel 12, Basic (mkBasicBlock (BCLabel 12) (BCLabel 14) true [BCLabel 14] []));
    (BCLabel 14, Basic (mkBasicBlock (BCLabel 14) (BCLabel 18) false [BCLabel 18] []));
    (BCLabel 18, Basic (mkBasicBlock (BCLabel 18) (BCLabel 20) false [] [])) ].

(** The jump-target edges of a map never lead to a smaller or equal label
    number (checked edge by edge). *)
Definition edges_ascend (g : Graph) : bool :=
  forallb (λ '(k, b),
             forallb (λ t, bool_decide (label_int k < label_int t))
                     (GraphWrap_getitem g k))
          g.

(** The block of Scenario B that holds offset 16. *)
Definition scenarioB_block14 : Block :=
  Basic (mkBasicBlock (BCLabel 14) (BCLabel 18) false [BCLabel 4] []).

Definition scenarioB_loop : gset Label := {[BCLabel 4; BCLabel 12; BCLabel 14]}.

(** [ByteFlow.from_bytecode(code)] followed by [restructure_loop] on its map. *)
Definition run_restructure_loop (fuel : nat) (code : list Instruction) : Outcome unit :=
  (f ← ByteFlow_from_bytecode code; restructure_loop fuel (bbmap f)) initial_state.

(** The initial block map of a stream, before it becomes an object. *)
Definition graph_of (code : list Instruction) : Res Graph :=
  fi ← from_bytecode code; build_basicblocks fi None.

(** [ByteFlow.from_bytecode(code).restructure()] *)
Definition run_restructure (fuel : nat) (code : list Instruction) : Outcome ByteFlow :=
  (f ← ByteFlow_from_bytecode code; restructure fuel f) initial_state.

(** The [for loop in loops] of [restructure_loop] on the map of a stream,
    with the list of loops given. *)
Definition run_loops_in_order (fuel : nat) (code : list Instruction)
    (loops : list (gset Label)) : Outcome (option (Label * Label)) :=
  (f ← ByteFlow_from_bytecode code;
   for_eachM (restructure_loop_body (restructure_loop fuel) (bbmap f)) loops None)
    initial_state.

(** The three passes in the order the orchestrator is meant to run them,
    all on one map. *)
Definition close_loop_branch (fuel : nat) (a : BlockMap) : M unit :=
  _ ← join_returns a;
  _ ← restructure_loop fuel a;
  restructure_branch fuel a.

Definition region_at (s : State) (a : BlockMap) (k : Label) : option RegionBlock :=
  match Dict.get k (graph_at s a) with
  | Some (Region r) => Some r
  | _ => None
  end.

(** Kind, jump targets and exit of the region filed under [k]. *)
Definition region_exits (s : State) (a : BlockMap) (k : Label)
  : option (string * list Label * option Label) :=
  r ← region_at s a k; Some (kind r, jump_targets (base r), exit r).

Definition outcome_state {A} (o : Outcome A) : option State :=
  match o with Done _ s => Some s | Raised _ s => Some s | Diverged => None end.

Definition is_done {A} (o : Outcome A) : bool :=
  match o with Done _ _ => true | _ => false end.

Definition loop_2_4 : gset Label := {[BCLabel 2; BCLabel 4]}.
Definition loop_6_8_10 : gset Label := {[BCLabel 6; BCLabel 8; BCLabel 10]}.
Definition loop_12_14 : gset Label := {[BCLabel 12; BCLabel 14]}.

(** The loop body of [join_returns] seen on the dict it updates:
    [add_node(graph.pop(rnode).replace_jump_targets((solo,)))]; [None] is the
    [KeyError] of [pop]. *)
Definition rewire_return (solo : Label) (g : Graph) (rnode : Label) : option Graph :=
  match Dict.pop rnode g with
  | Some (b, g') => Some (add_node g' (replace_jump_targets b [solo]))
  | None => None
  end.

Fixpoint rewire_returns (solo : Label) (rnodes : list Label) (g : Graph)
  : option Graph :=
  match rnodes with
  | [] => Some g
  | r :: rs => g' ← rewire_return solo g r; rewire_returns solo rs g'
  end.

(** The synthetic exit block minted by [join_returns] at counter value [c]. *)
Definition return_solo_block (c : Z) : Block :=
  Basic (mkBasicBlock (ControlLabel c) (ControlLabel (c + 1)) false [] []).

(** The initial block map of [two_returns]. *)
Definition two_returns_graph : Graph :=
  [ (BCLabel 0, Basic (mkBasicBlock (BCLabel 0) (BCLabel 2) false [BCLabel 4; BCLabel 2] []));
    (BCLabel 2, Basic (mkBasicBlock (BCLabel 2) (BCLabel 4) false [] []));
    (BCLabel 4, Basic (mkBasicBlock (BCLabel 4) (BCLabel 6) false [] [])) ].

(** ** The worklist loop of the dominator engine: measure and invariant *)

(** Sum of the sizes of the sets held by a table of dominators. *)
Definition doms_weight (doms : Doms) : nat := sum_list (size <$> doms.*2).

(** What [new_doms_of] computes, as a membership condition. *)
Definition new_doms_spec (preds_table : DomTable) (doms : Doms) (n : Label)
    (D : gset Label) : Prop :=
  ∀ x, x ∈ D ↔
       x = n ∨ (tbl_get preds_table n ≠ ∅ ∧
                ∀ p, p ∈ tbl_get preds_table n →
                     ∃ Dp, Dict.get p doms = Some Dp ∧ x ∈ Dp).

(** Invariant of the [while todo] loop. *)
Record dom_inv (nodes : list Label) (entries : gset Label)
    (preds_table : DomTable) (doms : Doms) (todo : list Label) : Prop := {
  dom_inv_total : ∀ n, n ∈ nodes → is_Some (Dict.get n doms);
  dom_inv_self : ∀ n D, n ∈ nodes → Dict.get n doms = Some D →
                        n ∈ D ∧ D ⊆ list_to_set nodes;
  dom_inv_entry : ∀ e, e ∈ nodes → e ∈ entries → Dict.get e doms = Some {[e]};
  dom_inv_above : ∀ n D Dn, n ∈ nodes → n ∉ entries →
                            Dict.get n doms = Some D →
                            new_doms_of preds_table doms n = Ok Dn → Dn ⊆ D;
  dom_inv_stable : ∀ n D, n ∈ nodes → n ∉ entries → n ∉ todo →
                          Dict.get n doms = Some D →
                          new_doms_of preds_table doms n = Ok D;
  dom_inv_todo : ∀ n, n ∈ todo → n ∈ nodes;
}.

(** Edges of the map as the scan of [_doms] sees them: from a key to a jump
    target that is itself a key. *)
Definition map_edge (g : Graph) (src dst : Label) : Prop :=
  ∃ node, (src, node) ∈ g ∧ dst ∈ block_jump_targets node ∧ dst ∈ Dict.keys g.

(** ** A small program logic for the state monad *)

(** [triple P m Q]: from a state in [P], [m] does not run out of fuel, and
    when it returns, value and state are in [Q]; an exception satisfies the
    triple. *)
Definition triple {A} (P : State → Prop) (m : M A) (Q : A → State → Prop) : Prop :=
  ∀ s, P s →
       match m s with
       | Done v s' => Q v s'
       | Raised _ _ => True
       | Diverged => False
       end.

(** The run of [m] from [s] does not return normally. *)
Definition never_done {A} (m : M A) (s : State) : Prop :=
  match m s with Done _ _ => False | _ => True end.

(** The run of [m] from [s] ends in an exception. *)
Definition raises {A} (m : M A) (s : State) : Prop :=
  ∃ e s', m s = Raised e s'.

(** What the restructuring passes keep true of the dict of a block map:
    no key twice, and every node under its [begin] label. *)
Definition wf_graph (g : Graph) : Prop := is_dict g ∧ keyed_by_begin g.

(** From [s] to [s'] only the block map at [a] and block maps created in
    between may differ; the generator only moves forward. *)
Definition frame (a : BlockMap) (s s' : State) : Prop :=
  (length (store s) ≤ length (store s'))%nat ∧
  clg_index s ≤ clg_index s' ∧
  ∀ a', a' ≠ a → (a' < length (store s))%nat → store s' !! a' = store s !! a'.

(** Invariant of a pass working on the block map [a] since state [s0]; the
    nodes listed in [keep] are still in the map. *)
Definition pass_inv (a : BlockMap) (keep : list (Label * Block)) (s0 s : State) : Prop :=
  (a < length (store s0))%nat ∧
  frame a s0 s ∧
  wf_graph (graph_at s a) ∧
  ∀ kb, kb ∈ keep → kb ∈ graph_at s a.

(** What the loop body needs of the recursive call: on a well-formed map
    of at most [n] nodes it ends, touches nothing but that map, and leaves
    it well-formed. *)
Definition rec_ok (n : nat) (rec : BlockMap → M unit) : Prop :=
  ∀ sub s,
    (sub < length (store s))%nat →
    wf_graph (graph_at s sub) →
    (length (graph_at s sub) ≤ n)%nat →
    match rec sub s with
    | Done _ s' => frame sub s s' ∧ wf_graph (graph_at s' sub)
    | Raised _ _ => True
    | Diverged => False
    end.

(** ** Properties of the model of [scc] *)

(** A set of labels closed under the jump-target edges of the map. *)
Definition succ_closed (g : Graph) (T : gset Label) : Prop :=
  succ_set g T ⊆ T.

Fixpoint pairwise_disjoint (l : list (gset Label)) : Prop :=
  match l with
  | [] => True
  | c :: l' => (∀ c', c' ∈ l' → c ## c') ∧ pairwise_disjoint l'
  end.

(** ** Heads, headers and exits, as conditions on the map *)

(** A key of the map that no node of the map jumps to. *)
Definition is_head (g : Graph) (h : Label) : Prop :=
  h ∈ Dict.keys g ∧ ∀ k b, (k, b) ∈ g → h ∉ block_jump_targets b.

(** ** What the flow builder keeps true *)

(** Every block offset is a bytecode label, every target of a recorded jump
    is a block offset, and no instruction offset is recorded twice. *)
Definition flow_ok (fi : FlowInfo) : Prop :=
  (∀ l, l ∈ block_offsets fi → is_BCLabel l = true) ∧
  (∀ off ts t, (off, ts) ∈ jump_insts fi → t ∈ ts → t ∈ block_offsets fi) ∧
  is_dict (jump_insts fi).

(** The block starts that one instruction asks for. *)
Definition starts_of (i : Instruction) : list Label :=
  (if bool_decide (offset i = 0) || is_jump_target i then [BCLabel (offset i)] else [])
  ++ (if is_conditional_jump (opname i)
      then [BCLabel (argval i); BCLabel (offset i + 2)]
      else if is_unconditional_jump (opname i) then [BCLabel (argval i)] else []).

(** A two-node cycle: neither an entry nor an exit. *)
Definition cycle_graph : Graph :=
  [ (BCLabel 0, Basic (mkBasicBlock (BCLabel 0) (BCLabel 2) false [BCLabel 2] []));
    (BCLabel 2, Basic (mkBasicBlock (BCLabel 2) (BCLabel 4) false [BCLabel 0] [])) ].

(** ** Reachability along jump targets *)

(** [v] is a jump target of the node the map holds under [u]. *)
Definition jumps_to (g : Graph) (u v : Label) : Prop :=
  ∃ b, Dict.get u g = Some b ∧ v ∈ block_jump_targets b.

(** Jump targets still to be pushed by the search: those of the nodes whose
    key has not been seen. *)
Definition dfs_weight (g : Graph) (seen : gset Label) : nat :=
  sum_list ((λ kb : Label * Block,
               if bool_decide (kb.1 ∈ seen) then 0%nat
               else length (block_jump_targets kb.2)) <$> g).

(** Invariant of the [while True] loop of [is_reachable_dfs]. *)
Definition dfs_inv (g : Graph) (begin end_ : Label) (seen : gset Label)
    (to_vist : list Label) : Prop :=
  (∀ x, x ∈ to_vist → tc (jumps_to g) begin x) ∧
  end_ ∉ seen ∧
  (∀ v, jumps_to g begin v → v ∈ seen ∨ v ∈ to_vist) ∧
  (∀ s v, s ∈ seen → jumps_to g s v → v ∈ seen ∨ v ∈ to_vist).

(** The run of [m] never runs out of fuel, from any state. *)
Definition no_diverge {A} (m : M A) : Prop := ∀ s, m s ≠ Diverged.


(** A loop with one header and one exit: 0 -> 2, 2 -> 4 or 6, 4 -> 2, 6. *)
Definition loop_graph : Graph :=
  [ (BCLabel 0, Basic (mkBasicBlock (BCLabel 0) (BCLabel 2) true [BCLabel 2] []));
    (BCLabel 2, Basic (mkBasicBlock (BCLabel 2) (BCLabel 4) false [BCLabel 6; BCLabel 4] []));
    (BCLabel 4, Basic (mkBasicBlock (BCLabel 4) (BCLabel 6) false [BCLabel 2] []));
    (BCLabel 6, Basic (mkBasicBlock (BCLabel 6) (BCLabel 8) false [] [])) ].

(** The map holds basic blocks only. *)
Definition region_free (g : Graph) : Prop :=
  ∀ k b, (k, b) ∈ g → ∃ bb, b = Basic bb.

(** ** The instructions of a block *)

(** [x < y] on labels: the dataclasses are ordered, and an instance only
    compares with an instance of its own class. *)
Definition label_lt (x y : Label) : Res bool :=
  match x, y with
  | BCLabel a, BCLabel b => Ok (bool_decide (a < b))
  | ControlLabel a, ControlLabel b => Ok (bool_decide (a < b))
  | _, _ => Err TypeError
  end.

(** The [while it < end] loop of [BasicBlock.get_instructions]. *)
Fixpoint get_instructions_loop (fuel : nat) (bcmap : Dict.t Label Instruction)
    (end_ it : Label) (out : list Instruction) : Res (list Instruction) :=
  match fuel with
  | O => NoFuel
  | S fuel' =>
      c ← label_lt it end_;
      if c : bool then
        i ← from_option KeyError (Dict.get it bcmap);
        it ← _next_inst_offset it;
        get_instructions_loop fuel' bcmap end_ it (out ++ [i])
      else Ok out
  end.

Definition get_instructions (fuel : nat) (self : BasicBlock)
    (bcmap : Dict.t Label Instruction) : Res (list Instruction) :=
  get_instructions_loop fuel bcmap (end_ self) (begin self) [].

(** [ByteFlowRenderer.bcmap_from_bytecode]: the instructions by offset. *)
Definition bcmap_from_bytecode (bc : list Instruction) : Dict.t Label Instruction :=
  foldl (λ m i, Dict.set (BCLabel (offset i)) i m) [] bc.

(** ** Tables of dominators as [_imm_doms] sees them *)

(** Every member of every set of the table is a key of the table. *)
Definition closed_table (d : Doms) : Prop :=
  ∀ k D v, Dict.get k d = Some D → v ∈ D → v ∈ Dict.keys d.

(** [d'] has the keys of [d] and under each key a subset of what [d] has. *)
Definition table_below (d' d : Doms) : Prop :=
  Dict.keys d' = Dict.keys d ∧
  ∀ k D', Dict.get k d' = Some D' → ∃ D, Dict.get k d = Some D ∧ D' ⊆ D.

(** Dominators of a chain 0 -> 2 -> 4. *)
Definition chain_doms : Doms :=
  [ (BCLabel 0, {[BCLabel 0]});
    (BCLabel 2, {[BCLabel 0; BCLabel 2]});
    (BCLabel 4, {[BCLabel 0; BCLabel 2; BCLabel 4]}) ].

(** ** The walk from the head of a map to the start of a branch *)

(** [v] is the first jump target of the node the map holds under [u]. *)
Definition first_jump (g : Graph) (u v : Label) : Prop :=
  ∃ b, Dict.get u g = Some b ∧ head (block_jump_targets b) = Some v.

(** [path] starts at [cur], follows first jump targets and stops the first
    time it is at [begin]. *)
Fixpoint head_path (g : Graph) (begin cur : Label) (path : list Label) : Prop :=
  match path with
  | [] => False
  | u :: rest =>
      u = cur ∧
      ((cur = begin ∧ rest = []) ∨
       (cur ≠ begin ∧ ∃ v, first_jump g cur v ∧ head_path g begin v rest))
  end.

(** * Properties *)

(** ** Dictionaries *)

Section dict_facts.
Context {K V : Type} `{EqDecision K}.
Implicit Types (d : Dict.t K V) (k : K) (v : V).

Lemma dict_get_elem_of d k v : Dict.get k d = Some v → (k, v) ∈ d.
Proof.
  induction d as [|[k' v'] d IH]; simpl; [done|].
  case_decide; intros Hg; simplify_eq; [left | right; auto].
Qed.

Lemma dict_get_None d k : Dict.get k d = None ↔ k ∉ Dict.keys d.
Proof.
  unfold Dict.keys. induction d as [|[k' v'] d IH]; simpl.
  - split; [intros _; apply not_elem_of_nil | done].
  - case_decide; subst.
    + split; [done | intros Hn; exfalso; apply Hn; left].
    + rewrite IH, not_elem_of_cons. tauto.
Qed.

Lemma dict_get_is_Some d k : is_Some (Dict.get k d) ↔ k ∈ Dict.keys d.
Proof.
  rewrite <- not_eq_None_Some, dict_get_None.
  destruct (decide (k ∈ Dict.keys d)); naive_solver.
Qed.

Lemma dict_mem_true d k : Dict.mem k d = true ↔ k ∈ Dict.keys d.
Proof. unfold Dict.mem. rewrite bool_decide_eq_true. apply dict_get_is_Some. Qed.

Lemma dict_elem_of_get d k v :
  NoDup (Dict.keys d) → (k, v) ∈ d → Dict.get k d = Some v.
Proof.
  unfold Dict.keys. induction d as [|[k' v'] d IH]; simpl; intros Hnd Hin.
  - by apply elem_of_nil in Hin.
  - apply NoDup_cons in Hnd as [Hk Hnd]. apply elem_of_cons in Hin as [Heq|Hin].
    + simplify_eq. by rewrite decide_True.
    + rewrite decide_False; [auto|]. intros ->. apply Hk.
      apply list_elem_of_fmap. by exists (k', v).
Qed.

End dict_facts.

(** ** Backedge replacement *)

(** C10.  [replace_backedge] leaves a block that does not jump to the header
    untouched; on a block that does, it succeeds exactly when the header is
    the only jump target and there is no backedge yet, and then empties the
    jump targets and records the header as the one backedge; in every other
    case the assertion fails.  A block that jumps to the header and somewhere
    else as well therefore never gets its header edge converted. *)
Theorem replace_backedge_spec (b : Block) (h : Label) :
  (h ∉ block_jump_targets b → replace_backedge b h = Ok b) ∧
  (h ∈ block_jump_targets b →
   length (block_jump_targets b) = 1%nat → block_backedges b = [] →
   replace_backedge b h =
     Ok (with_base (λ bb, mkBasicBlock (begin bb) (end_ bb) (fallthrough bb) [] [h]) b)) ∧
  (h ∈ block_jump_targets b →
   ¬ (length (block_jump_targets b) = 1%nat ∧ block_backedges b = []) →
   replace_backedge b h = Err AssertionError) ∧
  (∀ b', h ∈ block_jump_targets b → replace_backedge b h = Ok b' →
   block_jump_targets b = [h] ∧ block_backedges b = [] ∧
   block_jump_targets b' = [] ∧ block_backedges b' = [h] ∧
   block_begin b' = block_begin b) ∧
  (h ∈ block_jump_targets b → (1 < length (block_jump_targets b))%nat →
   replace_backedge b h = Err AssertionError).
Proof.
  unfold replace_backedge, assert.
  split_and!.
  - intros Hn. by rewrite bool_decide_eq_false_2.
  - intros Hin Hlen Hbe. rewrite bool_decide_eq_true_2 by done.
    rewrite (bool_decide_eq_true_2 _ Hlen). simpl.
    by rewrite (bool_decide_eq_true_2 _ Hbe).
  - intros Hin Hno. rewrite bool_decide_eq_true_2 by done.
    destruct (decide (length (block_jump_targets b) = 1%nat)) as [Hlen|Hlen].
    + rewrite (bool_decide_eq_true_2 _ Hlen). simpl.
      rewrite bool_decide_eq_false_2; [done | naive_solver].
    + by rewrite (bool_decide_eq_false_2 _ Hlen).
  - intros b' Hin. rewrite bool_decide_eq_true_2 by done.
    destruct (decide (length (block_jump_targets b) = 1%nat)) as [Hlen|Hlen];
      [rewrite (bool_decide_eq_true_2 _ Hlen) | by rewrite (bool_decide_eq_false_2 _ Hlen)].
    simpl.
    destruct (decide (block_backedges b = [])) as [Hbe|Hbe];
      [rewrite (bool_decide_eq_true_2 _ Hbe) | by rewrite (bool_decide_eq_false_2 _ Hbe)].
    simpl. intros [= <-].
    assert (block_jump_targets b = [h]) as Hjt.
    { destruct (block_jump_targets b) as [|x [|y l]]; simplify_eq/=.
      by apply list_elem_of_singleton in Hin as ->. }
    split_and!; try done; by destruct b.
  - intros Hin Hlen. rewrite bool_decide_eq_true_2 by done.
    by rewrite (bool_decide_eq_false_2 (length (block_jump_targets b) = 1%nat)) by lia.
Qed.

(** ** Graphs without cycles *)

Lemma graph_edge_inv g u v :
  graph_edge g u v →
  ∃ b, (u, b) ∈ g ∧ v ∈ block_jump_targets b ∧ v ∈ Dict.keys g.
Proof.
  unfold graph_edge, GraphWrap_getitem.
  destruct (Dict.get u g) as [b|] eqn:Hg; [|by intros ?%elem_of_nil].
  intros [Hmem Hin]%list_elem_of_filter.
  exists b. split_and!; [by apply dict_get_elem_of | done | by apply dict_mem_true].
Qed.

Lemma forallb_elem_of {A} (f : A → bool) (l : list A) (x : A) :
  forallb f l = true → x ∈ l → f x = true.
Proof.
  induction l as [|y l IH]; simpl; intros Hall Hin.
  - by apply elem_of_nil in Hin.
  - apply andb_true_iff in Hall as [Hy Hl].
    apply elem_of_cons in Hin as [->|Hin]; auto.
Qed.

Lemma edges_ascend_edge g u v :
  edges_ascend g = true → graph_edge g u v → label_int u < label_int v.
Proof.
  intros Hall Hedge.
  destruct (graph_edge_inv _ _ _ Hedge) as (b & Hin & _).
  pose proof (forallb_elem_of _ _ _ Hall Hin) as Hb. simpl in Hb.
  pose proof (forallb_elem_of _ _ _ Hb Hedge) as Hv.
  by apply bool_decide_eq_true in Hv.
Qed.

Lemma edges_ascend_acyclic g u :
  edges_ascend g = true → ¬ tc (graph_edge g) u u.
Proof.
  intros Hasc Hcyc.
  assert (∀ a b, tc (graph_edge g) a b → label_int a < label_int b) as Hlt.
  { induction 1 as [a b Hab|a b c Hab _ IH].
    - by eapply edges_ascend_edge.
    - pose proof (edges_ascend_edge _ _ _ Hasc Hab). lia. }
  specialize (Hlt _ _ Hcyc). lia.
Qed.

(** ** Scenario A *)

(** C9.  Scenario A, whatever jump-target flags the decoder set on the
    block starts: the flow builder finds the block boundaries
    {0,4,8,12,14,18} and builds the six blocks of [scenarioA_graph]; the SCC
    computation on that map returns no component with two or more nodes, and
    indeed the map has no cycle at all. *)
Theorem scenarioA_boundaries_no_loop (f0 f4 f8 f12 f14 f18 : bool) :
  ∃ fi,
    from_bytecode (scenarioA f0 f4 f8 f12 f14 f18) = Ok fi ∧
    block_offsets fi =
      {[BCLabel 0; BCLabel 4; BCLabel 8; BCLabel 12; BCLabel 14; BCLabel 18]} ∧
    build_basicblocks fi None = Ok scenarioA_graph ∧
    Dict.keys scenarioA_graph =
      [BCLabel 0; BCLabel 4; BCLabel 8; BCLabel 12; BCLabel 14; BCLabel 18] ∧
    filter (λ nodes, 1 < size nodes)%nat (compute_scc scenarioA_graph) = [] ∧
    (∀ u, ¬ tc (graph_edge scenarioA_graph) u u).
Proof.
  assert (match from_bytecode (scenarioA f0 f4 f8 f12 f14 f18) with
          | Ok fi =>
              bool_decide (block_offsets fi =
                {[BCLabel 0; BCLabel 4; BCLabel 8; BCLabel 12; BCLabel 14; BCLabel 18]})
              && bool_decide (build_basicblocks fi None = Ok scenarioA_graph)
          | _ => false
          end = true) as Hrun.
  { destruct f0, f4, f8, f12, f14, f18; vm_compute; reflexivity. }
  destruct (from_bytecode _) as [fi| |]; try discriminate.
  apply andb_true_iff in Hrun as [Hoff%bool_decide_eq_true Hg%bool_decide_eq_true].
  exists fi. do 3 (split; [done|]).
  split; [reflexivity|]. split; [vm_compute; reflexivity|].
  intros u. apply edges_ascend_acyclic. vm_compute. reflexivity.
Qed.

(** ** Scenario B *)

(** C2, as stated, fails: on the Scenario B stream [restructure_loop] stops
    at its single-header assertion, and the map it leaves holds no region at
    all. *)
Lemma scenarioB_restructure_loop_raises :
  ∃ s, run_restructure_loop 8 scenarioB = Raised AssertionError s ∧
       region_blocks (graph_at s 0%nat) = [].
Proof. eexists. split; vm_compute; reflexivity. Qed.

(** C2, amended.  The flow builder turns the Scenario B stream into the six
    blocks of [scenarioB_graph]; the only SCC with two or more nodes is
    {4,12,14} (the nodes from offset 4 through 16); block 0 jumps to both 14
    and 4, so the loop has the two headers 4 and 14, and [restructure_loop]
    fails its single-header assertion for every positive fuel, producing no
    loop region.  Taken alone, the node that holds offset 16 (block 14, whose
    only jump target is 4) is turned by [replace_backedge] into a node with
    backedges (4,) and no jump target. *)
Theorem scenarioB_loop_has_two_headers :
  (fi ← from_bytecode scenarioB; build_basicblocks fi None) = Ok scenarioB_graph ∧
  filter (λ nodes, 1 < size nodes)%nat (compute_scc scenarioB_graph) = [scenarioB_loop] ∧
  find_headers_and_entries scenarioB_graph scenarioB_loop
    = ({[BCLabel 4; BCLabel 14]}, {[BCLabel 0]}) ∧
  find_exits scenarioB_loop scenarioB_graph = Ok ({[BCLabel 4]}, {[BCLabel 8]}) ∧
  (∀ fuel, (0 < fuel)%nat →
     ∃ s, run_restructure_loop fuel scenarioB = Raised AssertionError s ∧
          regions_of_kind "loop" (graph_at s 0%nat) = []) ∧
  Dict.get (BCLabel 14) scenarioB_graph = Some scenarioB_block14 ∧
  replace_backedge scenarioB_block14 (BCLabel 4)
    = Ok (Basic (mkBasicBlock (BCLabel 14) (BCLabel 18) false [] [BCLabel 4])).
Proof.
  do 4 (split; [vm_compute; reflexivity|]).
  split; [|split; vm_compute; reflexivity].
  intros [|fuel] Hfuel; [lia|].
  eexists. split; vm_compute; reflexivity.
Qed.

(** ** The exit pair of a loop with one post-exit and several pre-exits *)

Ltac each_of tac :=
  repeat first [apply Forall_nil_2 | apply Forall_cons_2; [tac|]].

(** C6 at a failing input.  In [three_loops] the loop {6,8,10} has the one
    post-exit 12 and the two pre-exits 6 and 8.  [restructure_loop] does not
    raise on it: the call returns normally, and the loop region filed under 6
    carries the exit pair left over from the loop handled just before it
    (jump target 6 and exit 2 after {2,4}, jump target 16 and exit 12 after
    {12,14}) instead of the post-exit 12.  This holds in
    every order of the three loops in which {6,8,10} is not the first; when
    it is the first, or the only loop as in [two_exit_loop], the call ends
    in [UnboundLocalError] raised by the read of the unassigned local. *)
Theorem three_loops_exit_pair_left_over :
  (∃ g, graph_of three_loops = Ok g ∧
        filter (λ nodes, 1 < size nodes)%nat (compute_scc g)
          = [loop_2_4; loop_6_8_10; loop_12_14] ∧
        find_exits loop_6_8_10 g = Ok ({[BCLabel 6; BCLabel 8]}, {[BCLabel 12]})) ∧
  (∃ s, run_restructure_loop 8 three_loops = Done tt s ∧
        region_exits s 0%nat (BCLabel 6)
          = Some ("loop", [BCLabel 6], Some (BCLabel 2))) ∧
  Forall (λ loops, ∃ v s, run_loops_in_order 8 three_loops loops = Done v s ∧
                          region_exits s 0%nat (BCLabel 6)
                            = Some ("loop", [BCLabel 6], Some (BCLabel 2)))
         [ [loop_2_4; loop_6_8_10; loop_12_14]; [loop_12_14; loop_2_4; loop_6_8_10] ] ∧
  Forall (λ loops, ∃ v s, run_loops_in_order 8 three_loops loops = Done v s ∧
                          region_exits s 0%nat (BCLabel 6)
                            = Some ("loop", [BCLabel 16], Some (BCLabel 12)))
         [ [loop_12_14; loop_6_8_10; loop_2_4]; [loop_2_4; loop_12_14; loop_6_8_10] ] ∧
  Forall (λ loops, ∃ s, run_loops_in_order 8 three_loops loops
                          = Raised UnboundLocalError s)
         [ [loop_6_8_10; loop_2_4; loop_12_14]; [loop_6_8_10; loop_12_14; loop_2_4] ] ∧
  (∃ s, run_restructure_loop 8 two_exit_loop = Raised UnboundLocalError s).
Proof.
  split; [eexists; split_and!; vm_compute; reflexivity|].
  split; [eexists; split; vm_compute; reflexivity|].
  split; [each_of ltac:(eexists _, _; split; vm_compute; reflexivity)|].
  split; [each_of ltac:(eexists _, _; split; vm_compute; reflexivity)|].
  split; [each_of ltac:(eexists; vm_compute; reflexivity)|].
  eexists; vm_compute; reflexivity.
Qed.

(** ** The orchestrator and the map it closes *)

(** C1 at a failing input.  On [two_returns], [restructure] returns a flow
    whose map is a fresh object holding the initial map unchanged, still
    with its two terminating nodes 2 and 4, while the receiver's own map has
    been closed in place (its only terminating node is the new control label
    0).  Running the three passes in order on the initial map gives another
    map: a head, a tail and two branch regions. *)
Theorem restructure_closes_the_receiver_only :
  ∃ f s0 f' s,
    ByteFlow_from_bytecode two_returns initial_state = Done f s0 ∧
    restructure 8 f s0 = Done f' s ∧
    bbmap f' ≠ bbmap f ∧
    graph_at s (bbmap f') = graph_at s0 (bbmap f) ∧
    terminating_nodes (graph_at s (bbmap f')) = [BCLabel 2; BCLabel 4] ∧
    graph_at s (bbmap f) ≠ graph_at s0 (bbmap f) ∧
    terminating_nodes (graph_at s (bbmap f)) = [ControlLabel 0] ∧
    ∃ s', close_loop_branch 8 (bbmap f) s0 = Done tt s' ∧
          graph_at s' (bbmap f) ≠ graph_at s (bbmap f') ∧
          (λ kr, (kr.1, kind kr.2)) <$> region_blocks (graph_at s' (bbmap f))
            = [(BCLabel 0, "head"); (ControlLabel 0, "tail");
               (BCLabel 4, "branch"); (BCLabel 2, "branch")].
Proof.
  eexists _, _, _, _.
  split; [vm_compute; reflexivity|].
  split; [vm_compute; reflexivity|].
  split; [by vm_compute|].
  split; [vm_compute; reflexivity|].
  split; [vm_compute; reflexivity|].
  split; [refine (bool_decide_eq_false_1 _ _); vm_compute; reflexivity|].
  split; [vm_compute; reflexivity|].
  eexists. split; [vm_compute; reflexivity|].
  split; [refine (bool_decide_eq_false_1 _ _); vm_compute; reflexivity|].
  vm_compute; reflexivity.
Qed.

(** ** Regions and their headers *)

(** C3 at a failing input.  After [restructure] on [diamond], the head
    region filed under 0 lists 0 as its header and its subregion has the key
    0; the tail region filed under 6 lists 6 as its header and its subregion
    has the key 6. *)
Theorem head_and_tail_regions_hold_their_headers :
  ∃ f s,
    run_restructure 8 diamond = Done f s ∧
    (∃ r, region_at s (bbmap f) (BCLabel 0) = Some r ∧
          kind r = "head" ∧
          header_labels (headers r) = [BCLabel 0] ∧
          Dict.keys (graph_at s (subregion r)) = [BCLabel 0] ∧
          headers_in_subregion s r = [BCLabel 0]) ∧
    (∃ r, region_at s (bbmap f) (BCLabel 6) = Some r ∧
          kind r = "tail" ∧
          header_labels (headers r) = [BCLabel 6] ∧
          Dict.keys (graph_at s (subregion r)) = [BCLabel 6] ∧
          headers_in_subregion s r = [BCLabel 6]).
Proof.
  eexists _, _. split; [vm_compute; reflexivity|].
  split; eexists; split_and!; vm_compute; reflexivity.
Qed.

(** ** More on dictionaries: assignment and deletion *)

Section dict_update_facts.
Context {K V : Type} `{EqDecision K}.
Implicit Types (d : Dict.t K V) (k : K) (v : V).

Lemma dict_keys_replace d k v : Dict.keys (Dict.replace k v d) = Dict.keys d.
Proof.
  unfold Dict.keys. induction d as [|[k' v'] d IH]; simpl; [done|].
  case_decide; simpl; [by subst | by f_equal].
Qed.

Lemma dict_keys_set d k v :
  Dict.keys (Dict.set k v d) =
    if Dict.mem k d then Dict.keys d else Dict.keys d ++ [k].
Proof.
  unfold Dict.set. destruct (Dict.mem k d); [apply dict_keys_replace|].
  unfold Dict.keys. by rewrite fmap_app.
Qed.

Lemma dict_elem_of_keys_set d k v k' :
  k' ∈ Dict.keys (Dict.set k v d) ↔ k' = k ∨ k' ∈ Dict.keys d.
Proof.
  rewrite dict_keys_set. destruct (Dict.mem k d) eqn:Hm.
  - apply dict_mem_true in Hm. naive_solver.
  - rewrite elem_of_app, list_elem_of_singleton. tauto.
Qed.

Lemma dict_set_NoDup d k v : NoDup (Dict.keys d) → NoDup (Dict.keys (Dict.set k v d)).
Proof.
  intros Hnd. rewrite dict_keys_set. destruct (Dict.mem k d) eqn:Hm; [done|].
  apply NoDup_app. split_and!; [done | | apply NoDup_singleton].
  intros x Hx ->%list_elem_of_singleton.
  apply dict_mem_true in Hx. congruence.
Qed.

Lemma dict_elem_of_replace d k v k' v' :
  (k', v') ∈ Dict.replace k v d → (k', v') = (k, v) ∨ (k', v') ∈ d.
Proof.
  induction d as [|[k0 v0] d IH]; simpl; [by intros ?%elem_of_nil|].
  case_decide; subst; rewrite !elem_of_cons; naive_solver.
Qed.

Lemma dict_elem_of_set d k v k' v' :
  (k', v') ∈ Dict.set k v d → (k', v') = (k, v) ∨ (k', v') ∈ d.
Proof.
  unfold Dict.set. destruct (Dict.mem k d); [apply dict_elem_of_replace|].
  intros [?|?%list_elem_of_singleton]%elem_of_app; auto.
Qed.

Lemma dict_replace_other d k v k' v' :
  k' ≠ k → (k', v') ∈ d → (k', v') ∈ Dict.replace k v d.
Proof.
  intros Hne. induction d as [|[k0 v0] d IH]; simpl; [done|].
  case_decide; subst; rewrite !elem_of_cons; naive_solver.
Qed.

Lemma dict_set_other d k v k' v' :
  k' ≠ k → (k', v') ∈ d → (k', v') ∈ Dict.set k v d.
Proof.
  intros Hne Hin. unfold Dict.set. destruct (Dict.mem k d).
  - by apply dict_replace_other.
  - apply elem_of_app. by left.
Qed.

Lemma dict_set_elem_of_new d k v : (k, v) ∈ Dict.set k v d.
Proof.
  unfold Dict.set. destruct (Dict.mem k d) eqn:Hm.
  - apply dict_mem_true in Hm. unfold Dict.keys in Hm.
    induction d as [|[k0 v0] d IH]; simpl; [by apply elem_of_nil in Hm|].
    case_decide; subst; [by left|].
    right. apply IH. simpl in Hm. apply elem_of_cons in Hm as [?|?]; [congruence|done].
  - apply elem_of_app. right. by apply list_elem_of_singleton.
Qed.

Lemma dict_elem_of_del d k k' v' :
  (k', v') ∈ Dict.del k d ↔ (k', v') ∈ d ∧ k' ≠ k.
Proof. unfold Dict.del. rewrite list_elem_of_filter. simpl. tauto. Qed.

Lemma dict_elem_of_keys_del d k k' :
  k' ∈ Dict.keys (Dict.del k d) ↔ k' ∈ Dict.keys d ∧ k' ≠ k.
Proof.
  unfold Dict.keys. rewrite !list_elem_of_fmap. split.
  - intros ([k0 v0] & -> & Hin). apply dict_elem_of_del in Hin as [Hin Hne].
    split; [by exists (k0, v0) | done].
  - intros [([k0 v0] & -> & Hin) Hne]. exists (k0, v0). split; [done|].
    by apply dict_elem_of_del.
Qed.

Lemma dict_keys_del d k :
  Dict.keys (Dict.del k d) = filter (λ k', k' ≠ k) (Dict.keys d).
Proof.
  unfold Dict.keys, Dict.del. induction d as [|[k0 v0] d IH]; [done|].
  rewrite fmap_cons. simpl. destruct (decide (k0 ≠ k)).
  - rewrite (filter_cons_True (λ k', k' ≠ k)) by exact n.
    rewrite (filter_cons_True (λ kv : K * V, kv.1 ≠ k)) by exact n.
    rewrite fmap_cons. simpl. by f_equal.
  - rewrite (filter_cons_False (λ k', k' ≠ k)) by exact n.
    by rewrite (filter_cons_False (λ kv : K * V, kv.1 ≠ k)) by exact n.
Qed.

Lemma dict_del_NoDup d k : NoDup (Dict.keys d) → NoDup (Dict.keys (Dict.del k d)).
Proof. rewrite dict_keys_del. apply NoDup_filter. Qed.

Lemma dict_NoDup_elem_of_eq d k v v' :
  NoDup (Dict.keys d) → (k, v) ∈ d → (k, v') ∈ d → v = v'.
Proof.
  intros Hnd H1%(dict_elem_of_get _ _ _ Hnd) H2%(dict_elem_of_get _ _ _ Hnd).
  congruence.
Qed.

End dict_update_facts.

(** ** Running the primitives of the store *)

Lemma run_bbmap_pop c st a g k b g' :
  st !! a = Some g → Dict.pop k g = Some (b, g') →
  bbmap_pop a k (mkState c st) = Done b (mkState c (<[a := g']> st)).
Proof.
  intros Ha Hpop. unfold bbmap_pop, mbind, M_bind, get_graph, put_graph. simpl.
  rewrite Ha. simpl. by rewrite Hpop.
Qed.

Lemma run_bbmap_add_node c st a g b :
  st !! a = Some g →
  bbmap_add_node a b (mkState c st) = Done tt (mkState c (<[a := add_node g b]> st)).
Proof.
  intros Ha. unfold bbmap_add_node, mbind, M_bind, get_graph, put_graph. simpl.
  by rewrite Ha.
Qed.

Lemma store_insert_lookup (st : list Graph) a g g' :
  st !! a = Some g → <[a := g']> st !! a = Some g'.
Proof. intros Ha. apply list_lookup_insert_eq. by eapply lookup_lt_Some. Qed.

Lemma graph_at_insert c (st : list Graph) a g g' :
  st !! a = Some g → graph_at (mkState c (<[a := g']> st)) a = g'.
Proof. intros Ha. unfold graph_at. simpl. by erewrite store_insert_lookup. Qed.

(** ** Closing the map: [join_returns] *)

Lemma join_returns_loop solo rs : ∀ c st a g g2,
  st !! a = Some g → rewire_returns solo rs g = Some g2 →
  for_eachM (λ _ rnode,
               b ← bbmap_pop a rnode;
               bbmap_add_node a (replace_jump_targets b [solo]))
            rs tt (mkState c st)
  = Done tt (mkState c (<[a := g2]> st)).
Proof.
  induction rs as [|r rs IH]; intros c st a g g2 Ha Hrw; simpl in *.
  - simplify_eq. by rewrite list_insert_id.
  - unfold rewire_return in Hrw.
    destruct (Dict.pop r g) as [[b g']|] eqn:Hpop; simplify_eq/=.
    unfold mbind at 1, M_bind at 1. unfold mbind at 1, M_bind at 1.
    rewrite (run_bbmap_pop _ _ _ _ _ _ _ Ha Hpop).
    rewrite (run_bbmap_add_node _ _ _ g') by by eapply store_insert_lookup.
    rewrite list_insert_insert_eq.
    erewrite IH; [|by eapply store_insert_lookup|done].
    by rewrite list_insert_insert_eq.
Qed.

Lemma join_returns_run c st a g g2 :
  st !! a = Some g →
  (1 < length (terminating_nodes g))%nat →
  rewire_returns (ControlLabel c) (terminating_nodes g)
                 (add_node g (return_solo_block c)) = Some g2 →
  join_returns a (mkState c st) = Done tt (mkState (c + 1 + 1) (<[a := g2]> st)).
Proof.
  intros Ha Hlen Hrw. unfold join_returns.
  unfold mbind at 1, M_bind at 1, get_graph at 1. simpl. rewrite Ha. simpl.
  fold (terminating_nodes g). rewrite bool_decide_eq_true_2 by done.
  unfold mbind at 1, M_bind at 1, new_index at 1. simpl.
  unfold mbind at 1, M_bind at 1, new_index at 1. simpl.
  unfold mbind at 1, M_bind at 1.
  rewrite (run_bbmap_add_node _ _ _ g) by done.
  erewrite join_returns_loop; [|by eapply store_insert_lookup|exact Hrw].
  by rewrite list_insert_insert_eq.
Qed.

Lemma join_returns_noop s a :
  (length (terminating_nodes (graph_at s a)) ≤ 1)%nat →
  join_returns a s = Done tt s.
Proof.
  intros Hlen. unfold join_returns.
  unfold mbind at 1, M_bind at 1, get_graph at 1. simpl.
  fold (graph_at s a). fold (terminating_nodes (graph_at s a)).
  rewrite bool_decide_eq_false_2 by lia. done.
Qed.

Lemma terminating_nodes_elem_of g k :
  k ∈ terminating_nodes g ↔ ∃ b, (k, b) ∈ g ∧ is_exiting b = true.
Proof.
  unfold terminating_nodes. rewrite list_elem_of_fmap. split.
  - intros ([k' b] & -> & [Hex Hin]%list_elem_of_filter). by exists b.
  - intros (b & Hin & Hex). exists (k, b). split; [done|].
    by apply list_elem_of_filter.
Qed.

Lemma terminating_nodes_NoDup g : is_dict g → NoDup (terminating_nodes g).
Proof.
  unfold is_dict, Dict.keys, terminating_nodes.
  induction g as [|[k b] g IH]; simpl; [intros; apply NoDup_nil_2|].
  intros [Hk Hnd]%NoDup_cons. rewrite filter_cons. case_decide; simpl; [|auto].
  apply NoDup_cons. split; [|auto].
  intros Hin. apply Hk. apply list_elem_of_fmap in Hin as ([k1 b1] & -> & Hin).
  apply list_elem_of_filter in Hin as [_ Hin]. apply list_elem_of_fmap.
  by exists (k1, b1).
Qed.

Lemma replace_jump_targets_not_exiting b solo :
  is_exiting (replace_jump_targets b [solo]) = false.
Proof. by destruct b. Qed.

(** Every terminating node that is left after the rewiring loop was in the
    map before the loop and is not one of the rewired keys. *)
Lemma rewire_returns_exiting solo rs : ∀ gc,
  NoDup rs → NoDup (Dict.keys gc) → (∀ r, r ∈ rs → r ∈ Dict.keys gc) →
  ∃ g2, rewire_returns solo rs gc = Some g2 ∧
        NoDup (Dict.keys g2) ∧
        (∀ k b, (k, b) ∈ g2 → is_exiting b = true → (k, b) ∈ gc ∧ k ∉ rs).
Proof.
  induction rs as [|r rs IH]; intros gc Hrs Hgc Hin; simpl.
  - exists gc. split_and!; [done..|]. intros k b ? _. split; [done|]. apply not_elem_of_nil.
  - apply NoDup_cons in Hrs as [Hr Hrs].
    assert (is_Some (Dict.get r gc)) as [b Hb].
    { apply dict_get_is_Some, Hin. left. }
    unfold rewire_return, Dict.pop. rewrite Hb. simpl.
    set (gc' := add_node (Dict.del r gc) (replace_jump_targets b [solo])).
    destruct (IH gc') as (g2 & Hrw & Hnd & Hex); [done | | |].
    + apply dict_set_NoDup, dict_del_NoDup, Hgc.
    + intros r' Hr'. apply dict_elem_of_keys_set. right.
      apply dict_elem_of_keys_del. split; [apply Hin; by right|]. by intros ->.
    + exists g2. split_and!; [done..|].
      intros k b' Hkb Hexit. destruct (Hex _ _ Hkb Hexit) as [Hgc' Hk].
      apply dict_elem_of_set in Hgc' as [Heq|Hdel].
      * simplify_eq. by rewrite replace_jump_targets_not_exiting in Hexit.
      * apply dict_elem_of_del in Hdel as [? ?].
        split; [done|]. rewrite not_elem_of_cons. done.
Qed.

(** With every node filed under its [begin] label, the rewiring loop keeps
    the untouched nodes and replaces each rewired node in place of itself. *)
Lemma rewire_returns_keyed solo rs : ∀ gc,
  NoDup rs → NoDup (Dict.keys gc) →
  (∀ r, r ∈ rs → ∃ b, (r, b) ∈ gc ∧ block_begin b = r) →
  ∃ g2, rewire_returns solo rs gc = Some g2 ∧
        (∀ k b, (k, b) ∈ gc → k ∉ rs → (k, b) ∈ g2) ∧
        (∀ r b, r ∈ rs → (r, b) ∈ gc → (r, replace_jump_targets b [solo]) ∈ g2).
Proof.
  induction rs as [|r rs IH]; intros gc Hrs Hgc Hin; simpl.
  - exists gc. split_and!; [done..|]. by intros r b ?%elem_of_nil.
  - apply NoDup_cons in Hrs as [Hr Hrs].
    destruct (Hin r) as (b & Hb & Hbegin); [left|].
    unfold rewire_return, Dict.pop.
    rewrite (dict_elem_of_get _ _ _ Hgc Hb). simpl.
    set (b' := replace_jump_targets b [solo]).
    assert (block_begin b' = r) as Hb' by (by destruct b).
    set (gc' := add_node (Dict.del r gc) b').
    assert (∀ k b0, (k, b0) ∈ gc → k ≠ r → (k, b0) ∈ gc') as Hkeep.
    { intros k b0 Hk Hne. unfold gc', add_node. rewrite Hb'.
      apply dict_set_other; [done|]. by apply dict_elem_of_del. }
    assert ((r, b') ∈ gc') as Hnew.
    { unfold gc', add_node. rewrite Hb'. apply dict_set_elem_of_new. }
    destruct (IH gc') as (g2 & Hrw & Hold & Hrew); [done | | |].
    + apply dict_set_NoDup, dict_del_NoDup, Hgc.
    + intros r' Hr'. destruct (Hin r') as (b0 & Hb0 & ?); [by right|].
      exists b0. split; [|done]. apply Hkeep; [done|]. by intros ->.
    + exists g2. split_and!; [done| |].
      * intros k b0 Hk [Hne Hnin]%not_elem_of_cons. apply Hold; auto.
      * intros r0 b0 [->|Hr0]%elem_of_cons Hb0.
        -- rewrite (dict_NoDup_elem_of_eq _ _ _ _ Hgc Hb0 Hb). by apply Hold.
        -- apply Hrew; [done|]. apply Hkeep; [done|]. by intros ->.
Qed.

Lemma filter_all_equal {A} (P : A → Prop) `{∀ x, Decision (P x)} (l : list A) (a : A) :
  NoDup l → a ∈ l → P a → (∀ x, x ∈ l → P x → x = a) → filter P l = [a].
Proof.
  intros Hnd Hin Ha Hall.
  assert (NoDup (filter P l)) as Hndf by by apply NoDup_filter.
  assert (a ∈ filter P l) as Haf by by apply list_elem_of_filter.
  assert (∀ x, x ∈ filter P l → x = a) as Hallf.
  { intros x [HP Hx]%list_elem_of_filter. by apply Hall. }
  destruct (filter P l) as [|x [|y l']].
  - by apply elem_of_nil in Haf.
  - f_equal. apply Hallf. left.
  - exfalso. apply NoDup_cons in Hndf as [Hx _]. apply Hx.
    rewrite (Hallf x), (Hallf y); [left | right; left | left].
Qed.

Lemma dict_NoDup_entries {V} (d : Dict.t Label V) : NoDup (Dict.keys d) → NoDup d.
Proof. apply NoDup_fmap_1. Qed.

Lemma keyed_by_begin_check g :
  forallb (λ kb, bool_decide (block_begin kb.2 = kb.1)) g = true → keyed_by_begin g.
Proof.
  intros Hall k b Hin.
  by apply (forallb_elem_of _ _ _ Hall), bool_decide_eq_true in Hin.
Qed.

(** C7.  A map that is a dict (no key twice) with every node filed under its
    [begin] label, not yet holding the label the generator mints next, and
    with more than one terminating node: [join_returns] returns, the label
    it minted is afterwards the only terminating node, every node that was
    terminating now has exactly that label as its jump targets, and every
    other node is as it was. *)
Theorem join_returns_unifies_exits (s : State) (self : BlockMap) (g : Graph) :
  store s !! self = Some g →
  is_dict g →
  keyed_by_begin g →
  ControlLabel (clg_index s) ∉ Dict.keys g →
  (1 < length (terminating_nodes g))%nat →
  ∃ s',
    join_returns self s = Done tt s' ∧
    terminating_nodes (graph_at s' self) = [ControlLabel (clg_index s)] ∧
    (∀ k b, (k, b) ∈ g → is_exiting b = true →
       Dict.get k (graph_at s' self)
         = Some (replace_jump_targets b [ControlLabel (clg_index s)])) ∧
    (∀ k b, (k, b) ∈ g → is_exiting b = false →
       Dict.get k (graph_at s' self) = Some b).
Proof.
  destruct s as [c st]. simpl. intros Hst Hnd Hkeyed Hfresh Hlen.
  set (solo := ControlLabel c).
  set (gc := add_node g (return_solo_block c)).
  assert (NoDup (Dict.keys gc)) as Hgc by by apply dict_set_NoDup.
  assert (∀ k b, (k, b) ∈ g → (k, b) ∈ gc) as Hsub.
  { intros k b Hin. apply dict_set_other; [|done]. intros ->. apply Hfresh.
    apply list_elem_of_fmap. by exists (solo, b). }
  assert ((solo, return_solo_block c) ∈ gc) as Hsolo by apply dict_set_elem_of_new.
  assert (solo ∉ terminating_nodes g) as Hsolo_rs.
  { intros (b & Hin & _)%terminating_nodes_elem_of. apply Hfresh.
    apply list_elem_of_fmap. by exists (solo, b). }
  destruct (rewire_returns_exiting solo (terminating_nodes g) gc)
    as (g2 & Hrw & Hg2 & Hexit); [by apply terminating_nodes_NoDup | done | |].
  { intros r (b & Hin & _)%terminating_nodes_elem_of.
    apply list_elem_of_fmap. exists (r, b). split; [done|]. by apply Hsub. }
  destruct (rewire_returns_keyed solo (terminating_nodes g) gc)
    as (g2' & Hrw' & Hold & Hrew); [by apply terminating_nodes_NoDup | done | |].
  { intros r (b & Hin & _)%terminating_nodes_elem_of. exists b.
    split; [by apply Hsub | by eapply Hkeyed]. }
  assert (g2' = g2) as -> by congruence.
  exists (mkState (c + 1 + 1) (<[self := g2]> st)).
  rewrite (graph_at_insert _ _ _ g) by done.
  split; [by apply (join_returns_run _ _ _ g)|]. split_and!.
  - unfold terminating_nodes.
    rewrite (filter_all_equal _ g2 (solo, return_solo_block c)); [done | | | done |].
    + by apply dict_NoDup_entries.
    + by apply Hold.
    + intros [k b] Hin Hex. simpl in Hex.
      destruct (Hexit _ _ Hin Hex) as [Hgc' Hk].
      apply dict_elem_of_set in Hgc' as [?|Hg]; [done|].
      exfalso. apply Hk. apply terminating_nodes_elem_of. by exists b.
  - intros k b Hin Hex. apply dict_elem_of_get; [done|].
    apply Hrew; [|by apply Hsub]. apply terminating_nodes_elem_of. by exists b.
  - intros k b Hin Hex. apply dict_elem_of_get; [done|].
    apply Hold; [by apply Hsub|].
    intros (b' & Hin' & Hex')%terminating_nodes_elem_of.
    rewrite (dict_NoDup_elem_of_eq _ _ _ _ Hnd Hin Hin') in Hex. congruence.
Qed.

Lemma join_returns_unifies_exits_witness :
  ∃ s',
    join_returns 0%nat (mkState 0 [two_returns_graph]) = Done tt s' ∧
    terminating_nodes (graph_at s' 0%nat) = [ControlLabel 0] ∧
    (∀ k b, (k, b) ∈ two_returns_graph → is_exiting b = true →
       Dict.get k (graph_at s' 0%nat)
         = Some (replace_jump_targets b [ControlLabel 0])) ∧
    (∀ k b, (k, b) ∈ two_returns_graph → is_exiting b = false →
       Dict.get k (graph_at s' 0%nat) = Some b).
Proof.
  apply (join_returns_unifies_exits (mkState 0 [two_returns_graph]) 0%nat
                                    two_returns_graph).
  - reflexivity.
  - refine (bool_decide_unpack _ _). vm_compute. exact I.
  - apply keyed_by_begin_check. vm_compute. reflexivity.
  - refine (bool_decide_unpack _ _). vm_compute. exact I.
  - vm_compute. lia.
Defined.

(** C8.  On a map that is a dict, [join_returns] returns, and a second call
    right after the first returns with the state it found: the map (and the
    label generator) are unchanged. *)
Theorem join_returns_idempotent (s : State) (self : BlockMap) :
  is_dict (graph_at s self) →
  ∃ s1, join_returns self s = Done tt s1 ∧ join_returns self s1 = Done tt s1.
Proof.
  intros Hnd.
  destruct (decide (length (terminating_nodes (graph_at s self)) ≤ 1)%nat) as [Hle|Hgt].
  { exists s. split; by apply join_returns_noop. }
  destruct s as [c st]. unfold graph_at in *. simpl in *.
  destruct (st !! self) as [g|] eqn:Hst; simpl in *; [|exfalso; apply Hgt; simpl; lia].
  set (solo := ControlLabel c).
  set (gc := add_node g (return_solo_block c)).
  destruct (rewire_returns_exiting solo (terminating_nodes g) gc)
    as (g2 & Hrw & Hg2 & Hexit).
  { by apply terminating_nodes_NoDup. }
  { by apply dict_set_NoDup. }
  { intros r (b & Hin & _)%terminating_nodes_elem_of.
    apply dict_elem_of_keys_set. right. apply list_elem_of_fmap. by exists (r, b). }
  exists (mkState (c + 1 + 1) (<[self := g2]> st)).
  split; [apply (join_returns_run _ _ _ g); [done | lia | done]|].
  apply join_returns_noop. rewrite (graph_at_insert _ _ _ g) by done.
  assert (∀ x, x ∈ filter (λ kb : Label * Block, is_exiting kb.2 = true) g2 →
               x = (solo, return_solo_block c)) as Hall.
  { intros [k b] [Hex Hin]%list_elem_of_filter. simpl in Hex.
    destruct (Hexit _ _ Hin Hex) as [Hgc' Hk].
    apply dict_elem_of_set in Hgc' as [?|Hg]; [done|].
    exfalso. apply Hk. apply terminating_nodes_elem_of. by exists b. }
  assert (NoDup (filter (λ kb : Label * Block, is_exiting kb.2 = true) g2)) as Hndf.
  { apply NoDup_filter. by apply dict_NoDup_entries. }
  unfold terminating_nodes. rewrite length_fmap.
  destruct (filter _ g2) as [|x [|y l]]; simpl; [lia..|].
  exfalso. apply NoDup_cons in Hndf as [Hx _]. apply Hx.
  rewrite (Hall x), (Hall y); [left | right; left | left].
Qed.

Lemma join_returns_idempotent_witness :
  ∃ s1, join_returns 0%nat (mkState 0 [two_returns_graph]) = Done tt s1 ∧
        join_returns 0%nat s1 = Done tt s1.
Proof.
  apply (join_returns_idempotent (mkState 0 [two_returns_graph]) 0%nat).
  refine (bool_decide_unpack _ _). vm_compute. exact I.
Defined.

(** ** Lists, tables and dictionaries used by the dominator engine *)

Lemma list_pop_Some {A} (l l' : list A) (x : A) :
  list_pop l = Some (x, l') ↔ l = l' ++ [x].
Proof.
  unfold list_pop. split.
  - destruct (reverse l) as [|y r] eqn:Hr; [done|]. intros [= -> <-].
    rewrite <- (reverse_involutive l), Hr. by rewrite reverse_cons.
  - intros ->. rewrite reverse_app. simpl. by rewrite reverse_involutive.
Qed.

Lemma list_pop_None {A} (l : list A) : list_pop l = None ↔ l = [].
Proof.
  unfold list_pop. split.
  - destruct (reverse l) as [|y r] eqn:Hr; [|done]. intros _.
    by rewrite <- (reverse_involutive l), Hr.
  - by intros ->.
Qed.

Lemma tbl_get_add (tbl : gmap Label (gset Label)) k y k' x :
  x ∈ tbl_get (tbl_add tbl k y) k' ↔ x ∈ tbl_get tbl k' ∨ (k = k' ∧ x = y).
Proof.
  unfold tbl_add, tbl_get. destruct (decide (k = k')) as [->|Hne].
  - rewrite lookup_insert_eq. simpl. set_solver.
  - rewrite lookup_insert_ne by done. naive_solver.
Qed.

Section dict_get_facts.
Context {V : Type}.
Implicit Types (d : Dict.t Label V) (k : Label) (v : V).

Lemma dict_get_replace d k v k' :
  Dict.get k' (Dict.replace k v d) =
    if decide (k' = k)
    then match Dict.get k d with Some _ => Some v | None => None end
    else Dict.get k' d.
Proof.
  induction d as [|[k0 v0] d IH]; simpl.
  - by case_decide.
  - destruct (decide (k = k0)) as [->|Hne]; simpl.
    + by destruct (decide (k' = k0)).
    + rewrite IH. destruct (decide (k' = k0)) as [->|?]; [|done].
      by rewrite decide_False by done.
Qed.

Lemma dict_get_app d d' k :
  Dict.get k (d ++ d') =
    match Dict.get k d with Some v => Some v | None => Dict.get k d' end.
Proof.
  induction d as [|[k0 v0] d IH]; simpl; [done|]. by case_decide.
Qed.

Lemma dict_get_set d k v k' :
  Dict.get k' (Dict.set k v d) = if decide (k' = k) then Some v else Dict.get k' d.
Proof.
  unfold Dict.set. destruct (Dict.mem k d) eqn:Hm.
  - rewrite dict_get_replace. case_decide; [|done].
    apply bool_decide_eq_true in Hm as [v' ->]. done.
  - rewrite dict_get_app. simpl. case_decide; subst.
    + assert (Dict.get k d = None) as ->; [|done].
      unfold Dict.mem in Hm. apply bool_decide_eq_false in Hm.
      by apply eq_None_not_Some.
    + by destruct (Dict.get k' d).
Qed.

End dict_get_facts.

Lemma doms_weight_cons k (D : gset Label) (d : Doms) :
  doms_weight ((k, D) :: d) = (size D + doms_weight d)%nat.
Proof. done. Qed.

Lemma doms_weight_replace (d : Doms) k (D D' : gset Label) :
  Dict.get k d = Some D →
  (doms_weight (Dict.replace k D' d) + size D = doms_weight d + size D')%nat.
Proof.
  induction d as [|[k0 D0] d IH]; simpl; [done|].
  destruct (decide (k = k0)) as [->|Hne].
  - intros [= ->]. rewrite !doms_weight_cons. lia.
  - intros Hg. specialize (IH Hg). rewrite !doms_weight_cons. lia.
Qed.

Lemma doms_weight_set (d : Doms) k (D D' : gset Label) :
  Dict.get k d = Some D →
  (doms_weight (Dict.set k D' d) + size D = doms_weight d + size D')%nat.
Proof.
  intros Hg. unfold Dict.set, Dict.mem.
  rewrite bool_decide_eq_true_2 by (rewrite Hg; eauto).
  by apply doms_weight_replace.
Qed.

Lemma foldl_intersection_elem_of (d : gset Label) ds x :
  x ∈ foldl (∩) d ds ↔ x ∈ d ∧ ∀ d', d' ∈ ds → x ∈ d'.
Proof.
  revert d. induction ds as [|d0 ds IH]; intros d; simpl.
  - split; [intros ?; split; [done|by intros ? ?%elem_of_nil] | by intros [? _]].
  - rewrite IH, elem_of_intersection. split.
    + intros [[? ?] Hall]. split; [done|].
      intros d' [->|?]%elem_of_cons; auto.
    + intros [? Hall]. split; [split; [done|apply Hall; left]|].
      intros d' ?. apply Hall. by right.
Qed.

Lemma mapM_cons_Res {A B} (f : A → Res B) (x : A) (l : list A) :
  mapM f (x :: l) = (y ← f x; k ← mapM f l; mret (y :: k)).
Proof. done. Qed.

Lemma mapM_get_doms (doms : Doms) (ps : list Label) :
  (∀ p, p ∈ ps → is_Some (Dict.get p doms)) →
  ∃ sets, mapM (λ p, from_option KeyError (Dict.get p doms)) ps = Ok sets ∧
          length sets = length ps ∧
          ∀ D, D ∈ sets ↔ ∃ p, p ∈ ps ∧ Dict.get p doms = Some D.
Proof.
  induction ps as [|p ps IH]; intros Hall.
  - exists []. split_and!; [done..|]. intros D. split.
    + by intros ?%elem_of_nil.
    + by intros (p & ?%elem_of_nil & _).
  - destruct (Hall p) as [D0 HD0]; [left|].
    destruct IH as (sets & Hm & Hlen & Hsets); [intros; apply Hall; by right|].
    exists (D0 :: sets). split_and!.
    + by rewrite mapM_cons_Res, Hm, HD0.
    + simpl. by rewrite Hlen.
    + intros D. rewrite elem_of_cons, Hsets. split.
      * intros [->|(q & ? & ?)]; [exists p; split; [left|done]|].
        exists q. split; [by right|done].
      * intros (q & [->|?]%elem_of_cons & Hq); [left; congruence|].
        right. by exists q.
Qed.

Lemma new_doms_of_ok preds_table (doms : Doms) n :
  (∀ p, p ∈ tbl_get preds_table n → is_Some (Dict.get p doms)) →
  ∃ D, new_doms_of preds_table doms n = Ok D ∧ new_doms_spec preds_table doms n D.
Proof.
  intros Hall. unfold new_doms_of, new_doms_spec.
  destruct (decide (tbl_get preds_table n ≠ ∅)) as [Hne|He].
  - rewrite bool_decide_eq_true_2 by done.
    destruct (mapM_get_doms doms (elements (tbl_get preds_table n)))
      as (sets & Hm & Hlen & Hsets).
    { intros p Hp. apply Hall. by apply elem_of_elements. }
    rewrite Hm. simpl. unfold mbind at 1, Res_bind.
    destruct sets as [|d ds].
    { exfalso. apply Hne. apply leibniz_equiv, elements_empty_inv.
      destruct (elements _); [done|discriminate]. }
    simpl. eexists. split; [done|]. intros x.
    rewrite elem_of_union, elem_of_singleton, foldl_intersection_elem_of.
    split.
    + intros [->|[Hd Hds]]; [by left|]. right. split; [done|].
      intros p Hp. destruct (Hall p Hp) as [Dp HDp]. exists Dp. split; [done|].
      assert (Dp ∈ d :: ds) as [->|?]%elem_of_cons; [|done|by apply Hds].
      apply Hsets. exists p. split; [by apply elem_of_elements|done].
    + intros [->|[_ Hps]]; [by left|]. right.
      assert (∀ d', d' ∈ d :: ds → x ∈ d') as Hx.
      { intros d' (p & Hp%elem_of_elements & Hd')%Hsets.
        destruct (Hps p Hp) as (Dp & ? & ?). congruence. }
      split; [apply Hx; left | intros d' ?; apply Hx; by right].
  - apply dec_stable in He. rewrite bool_decide_eq_false_2 by (by intros ?).
    eexists. split; [done|]. intros x. rewrite elem_of_singleton. naive_solver.
Qed.

Lemma new_doms_of_spec preds_table (doms : Doms) n D :
  new_doms_of preds_table doms n = Ok D →
  (∀ p, p ∈ tbl_get preds_table n → is_Some (Dict.get p doms)) →
  new_doms_spec preds_table doms n D.
Proof.
  intros HD Hall. destruct (new_doms_of_ok preds_table doms n Hall) as (D' & HD' & Hs).
  rewrite HD in HD'. by injection HD' as ->.
Qed.

(** ** The worklist loop keeps its invariant and terminates *)

Lemma mapM_ext_Res {A B} (f h : A → Res B) (l : list A) :
  (∀ x, x ∈ l → f x = h x) → mapM f l = mapM h l.
Proof.
  induction l as [|x l IH]; intros Hext; [done|].
  rewrite !mapM_cons_Res, (Hext x), IH; [done | | left].
  intros y ?. apply Hext. by right.
Qed.

Lemma new_doms_of_frame preds_table (doms doms' : Doms) n :
  (∀ p, p ∈ tbl_get preds_table n → Dict.get p doms' = Dict.get p doms) →
  new_doms_of preds_table doms' n = new_doms_of preds_table doms n.
Proof.
  intros Hsame. unfold new_doms_of. case_bool_decide; [|done].
  rewrite (mapM_ext_Res _ (λ p, from_option KeyError (Dict.get p doms))); [done|].
  intros p Hp%elem_of_elements. by rewrite Hsame.
Qed.

Lemma gset_size_le_length (X : gset Label) (l : list Label) :
  (∀ x, x ∈ X → x ∈ l) → (size X ≤ length l)%nat.
Proof.
  intros Hsub. unfold size, set_size. simpl.
  apply submseteq_length, NoDup_submseteq; [apply NoDup_elements|].
  intros x Hx%elem_of_elements. by apply Hsub.
Qed.

Section dom_loop_facts.
Variables (nodes : list Label) (entries : gset Label).
Variables (preds_table succs_table : DomTable).
Hypothesis preds_in_nodes : ∀ n p, p ∈ tbl_get preds_table n → p ∈ nodes.
Hypothesis succs_in_nodes : ∀ n m, m ∈ tbl_get succs_table n → m ∈ nodes.
Hypothesis preds_succs : ∀ n m, n ∈ tbl_get preds_table m → m ∈ tbl_get succs_table n.

#[local] Abbreviation Inv := (dom_inv nodes entries preds_table).

Lemma dom_inv_preds_total doms todo n :
  Inv doms todo → ∀ p, p ∈ tbl_get preds_table n → is_Some (Dict.get p doms).
Proof. intros HI p Hp. eapply dom_inv_total; eauto. Qed.

Lemma dom_step_entry doms todo n :
  Inv doms (todo ++ [n]) → n ∈ entries → Inv doms todo.
Proof.
  intros [H1 H2 H3 H4 H5 H6] Hn. split; try done.
  - intros m D Hm Hme Hmt. apply H5; try done.
    intros [?|Hs%list_elem_of_singleton]%elem_of_app; [done|by subst].
  - intros m Hm. apply H6, elem_of_app. by left.
Qed.

Lemma dom_step_same doms todo n D :
  Inv doms (todo ++ [n]) → Dict.get n doms = Some D →
  new_doms_of preds_table doms n = Ok D → Inv doms todo.
Proof.
  intros [H1 H2 H3 H4 H5 H6] Hget Hnew. split; try done.
  - intros m D' Hm Hme Hmt HD'. destruct (decide (m = n)) as [->|Hne].
    + congruence.
    + apply H5; try done.
      intros [?|Hs%list_elem_of_singleton]%elem_of_app; [done|by subst].
  - intros m Hm. apply H6, elem_of_app. by left.
Qed.

Lemma dom_step_shrink doms todo n old new :
  Inv doms (todo ++ [n]) → n ∉ entries →
  Dict.get n doms = Some old →
  new_doms_of preds_table doms n = Ok new →
  new ≠ old →
  (size new < size old)%nat ∧
  Inv (Dict.set n new doms) (todo ++ elements (tbl_get succs_table n)).
Proof.
  intros HI Hne Hold Hnew Hdiff.
  pose proof HI as [H1 H2 H3 H4 H5 H6].
  assert (n ∈ nodes) as Hn by (apply H6, elem_of_app; right; left).
  assert (new ⊆ old) as Hsub by (by eapply H4).
  assert (new_doms_spec preds_table doms n new) as Hspec.
  { apply new_doms_of_spec; [done|]. by eapply dom_inv_preds_total. }
  assert (∀ p, is_Some (Dict.get p (Dict.set n new doms)) ↔
               p = n ∨ is_Some (Dict.get p doms)) as Htot.
  { intros p. rewrite dict_get_set. case_decide; naive_solver. }
  assert (∀ m, (∀ p, p ∈ tbl_get preds_table m →
                     is_Some (Dict.get p (Dict.set n new doms)))) as Htot'.
  { intros m p Hp. apply Htot. right. by eapply dom_inv_preds_total. }
  assert (∀ m Dm Dm', new_doms_of preds_table doms m = Ok Dm →
                      new_doms_of preds_table (Dict.set n new doms) m = Ok Dm' →
                      Dm' ⊆ Dm) as Hmono.
  { intros m Dm Dm' HDm HDm'.
    apply new_doms_of_spec in HDm; [|by eapply dom_inv_preds_total].
    apply new_doms_of_spec in HDm'; [|apply Htot'].
    intros x [->|[Hpne Hall]]%HDm'; apply HDm; [by left|]. right. split; [done|].
    intros p Hp. destruct (Hall p Hp) as (Dp' & HDp' & Hx).
    rewrite dict_get_set in HDp'. case_decide; simplify_eq.
    - exists old. split; [done|]. by apply Hsub.
    - by exists Dp'. }
  split.
  { apply subset_size. split; [done|]. intros Hsup. apply Hdiff.
    apply leibniz_equiv. by apply (anti_symm (⊆)). }
  split.
  - intros m Hm. apply Htot. right. by apply H1.
  - intros m D Hm. rewrite dict_get_set. case_decide; simplify_eq.
    + intros [= <-]. split; [apply Hspec; by left|].
      destruct (H2 _ _ Hm Hold) as [_ ?]. set_solver.
    + by apply H2.
  - intros e He Hee. rewrite dict_get_set. case_decide; simplify_eq. by apply H3.
  - intros m D Dm Hm Hme. rewrite dict_get_set. case_decide; simplify_eq.
    + intros [= <-] HDm. by eapply Hmono.
    + intros HD HDm.
      destruct (new_doms_of_ok preds_table doms m) as (Dm0 & HDm0 & _);
        [by eapply dom_inv_preds_total|].
      transitivity Dm0; [by eapply Hmono | by eapply H4].
  - intros m D Hm Hme Hmt. rewrite elem_of_app, elem_of_elements in Hmt.
    assert (n ∉ tbl_get preds_table m) as Hnp by (intros ?%preds_succs; tauto).
    rewrite (new_doms_of_frame _ doms).
    2:{ intros p Hp. rewrite dict_get_set. case_decide; congruence. }
    rewrite dict_get_set. case_decide; simplify_eq.
    + by intros [= <-].
    + intros HD. apply H5; try done.
      intros [?|Hs%list_elem_of_singleton]%elem_of_app; [tauto|by subst].
  - intros m [Hm|Hm%elem_of_elements]%elem_of_app.
    + apply H6, elem_of_app. by left.
    + by eapply succs_in_nodes.
Qed.

Lemma dom_loop_terminates fuel : ∀ doms todo,
  Inv doms todo →
  ((length nodes + 1) * doms_weight doms + length todo < fuel)%nat →
  ∃ doms', dom_loop fuel entries preds_table succs_table doms todo = Ok doms' ∧
           Inv doms' [].
Proof.
  induction fuel as [|fuel IH]; intros doms todo HI Hfuel; [lia|]. simpl.
  destruct (list_pop todo) as [[n todo']|] eqn:Hpop.
  2:{ apply list_pop_None in Hpop as ->. by exists doms. }
  apply list_pop_Some in Hpop as ->. rewrite length_app in Hfuel. simpl in Hfuel.
  case_bool_decide as Hent.
  { apply IH; [by eapply dom_step_entry | lia]. }
  assert (n ∈ nodes) as Hn.
  { eapply dom_inv_todo; [done|]. apply elem_of_app. right. left. }
  destruct (new_doms_of_ok preds_table doms n) as (new & Hnew & _);
    [by eapply dom_inv_preds_total|].
  destruct (dom_inv_total _ _ _ _ _ HI n Hn) as [old Hold].
  rewrite Hnew, Hold. simpl.
  case_bool_decide as Hdiff.
  - destruct (dom_step_shrink _ _ _ _ _ HI Hent Hold Hnew Hdiff) as [Hlt HI'].
    unfold assert. rewrite bool_decide_eq_true_2 by done. simpl.
    apply IH; [done|]. rewrite length_app.
    pose proof (doms_weight_set doms n old new Hold) as Hw.
    assert (length (elements (tbl_get succs_table n)) ≤ length nodes)%nat as Hs.
    { apply (gset_size_le_length (tbl_get succs_table n)). apply succs_in_nodes. }
    set (w' := doms_weight (Dict.set n new doms)) in *.
    set (w := doms_weight doms) in *.
    set (so := size old) in *. set (sn := size new) in *.
    set (ls := length (elements (tbl_get succs_table n))) in *.
    clearbody w' w so sn ls. nia.
  - subst old. apply IH; [by eapply dom_step_same | lia].
Qed.

End dom_loop_facts.

(** ** Seeding the worklist *)

Lemma init_entries_get (es : list Label) : ∀ (d : Doms) k,
  Dict.get k (foldl (λ doms e, Dict.set e {[e]} doms) d es) =
    if decide (k ∈ es) then Some {[k]} else Dict.get k d.
Proof.
  induction es as [|e es IH]; intros d k; cbn [foldl].
  - case_decide as H; [by apply elem_of_nil in H|done].
  - rewrite IH, dict_get_set.
    repeat case_decide; subst; try done; exfalso; set_solver.
Qed.

Lemma init_nodes_spec (entries A : gset Label) (ns : list Label) :
  ∀ (d : Doms) (t : list Label),
  let r := foldl (λ '(doms, todo) n,
                    if bool_decide (n ∈ entries) then (doms, todo)
                    else (Dict.set n A doms, todo ++ [n]))
                 (d, t) ns in
  (∀ k, Dict.get k r.1 =
          if decide (k ∈ ns ∧ k ∉ entries) then Some A else Dict.get k d) ∧
  (∀ k, k ∈ r.2 ↔ k ∈ t ∨ (k ∈ ns ∧ k ∉ entries)).
Proof.
  induction ns as [|n ns IH]; intros d t; cbn [foldl].
  - cbn zeta. split; intros k.
    + case_decide as H; [|done]. destruct H as [?%elem_of_nil _]. done.
    + cbn [snd]. split; [by left|]. intros [?|[?%elem_of_nil _]]; done.
  - case_bool_decide as Hn.
    + destruct (IH d t) as [IH1 IH2]. cbn zeta. split; intros k.
      * rewrite IH1. repeat case_decide; try done; exfalso; set_solver.
      * rewrite IH2. set_solver.
    + destruct (IH (Dict.set n A d) (t ++ [n])) as [IH1 IH2]. cbn zeta.
      split; intros k.
      * rewrite IH1, dict_get_set.
        repeat case_decide; subst; try done; exfalso; set_solver.
      * rewrite IH2. set_solver.
Qed.

Lemma init_doms_inv (nodes : list Label) (entries : gset Label)
    (preds_table : DomTable) :
  (∀ n p, p ∈ tbl_get preds_table n → p ∈ nodes) →
  dom_inv nodes entries preds_table
          (init_doms entries nodes).1 (init_doms entries nodes).2.
Proof.
  intros Hpreds. unfold init_doms.
  set (d0 := foldl (λ doms e, Dict.set e {[e]} doms) [] (elements entries)).
  destruct (init_nodes_spec entries (list_to_set nodes) nodes d0 []) as [Hget Htodo].
  set (r := foldl _ (d0, []) nodes) in *. simpl in Hget, Htodo. clearbody r.
  assert (∀ k, k ∈ nodes → k ∈ entries → Dict.get k r.1 = Some {[k]}) as Hent.
  { intros k Hk Hke. rewrite Hget, decide_False by tauto.
    unfold d0. rewrite init_entries_get, decide_True; [done|].
    by apply elem_of_elements. }
  assert (∀ k, k ∈ nodes → k ∉ entries →
               Dict.get k r.1 = Some (list_to_set nodes)) as Hnon.
  { intros k Hk Hke. by rewrite Hget, decide_True. }
  assert (∀ n D, n ∈ nodes → Dict.get n r.1 = Some D →
                 n ∈ D ∧ D ⊆ list_to_set nodes) as Hself.
  { intros n D Hn HD. destruct (decide (n ∈ entries)).
    - rewrite Hent in HD by done. injection HD as <-. set_solver.
    - rewrite Hnon in HD by done. injection HD as <-. set_solver. }
  assert (∀ n, n ∈ nodes → is_Some (Dict.get n r.1)) as Htot.
  { intros n Hn. destruct (decide (n ∈ entries)); [rewrite Hent|rewrite Hnon]; eauto. }
  split; try done.
  - intros n D Dn Hn Hne HD HDn. rewrite Hnon in HD by done. injection HD as <-.
    apply new_doms_of_spec in HDn; [|intros p Hp; eapply Htot, Hpreds, Hp].
    intros x [->|[Hpne Hall]]%HDn; [set_solver|].
    apply set_choose_L in Hpne as [p Hp].
    destruct (Hall p Hp) as (Dp & HDp & Hx).
    eapply Hself; [|exact HDp|exact Hx]. by eapply Hpreds.
  - intros n D Hn Hne Hnt. exfalso. apply Hnt, Htodo. right. done.
  - intros n [?%elem_of_nil|[? _]]%Htodo; done.
Qed.

(** ** The edge scan *)

Lemma tbl_get_empty k : tbl_get ∅ k = ∅.
Proof. unfold tbl_get. by rewrite lookup_empty. Qed.

Lemma edge_scan_inner (g : Graph) (src : Label) (jts : list Label) :
  ∀ (tbls : DomTable * DomTable),
  let r := foldl (λ '(into, out_of) dst,
                    if Dict.mem dst g
                    then (tbl_add into dst src, tbl_add out_of src dst)
                    else (into, out_of))
                 tbls jts in
  (∀ p n, p ∈ tbl_get r.1 n ↔
          p ∈ tbl_get tbls.1 n ∨ (p = src ∧ n ∈ jts ∧ n ∈ Dict.keys g)) ∧
  (∀ n m, m ∈ tbl_get r.2 n ↔
          m ∈ tbl_get tbls.2 n ∨ (n = src ∧ m ∈ jts ∧ m ∈ Dict.keys g)).
Proof.
  induction jts as [|dst jts IH]; intros [into out_of]; simpl.
  - split; intros a b; (split; [by left|]);
      intros [?|(_ & ?%elem_of_nil & _)]; done.
  - destruct (Dict.mem dst g) eqn:Hm.
    + apply dict_mem_true in Hm.
      destruct (IH (tbl_add into dst src, tbl_add out_of src dst)) as [IH1 IH2].
      simpl in *. split; intros a b.
      * rewrite IH1, tbl_get_add, elem_of_cons. naive_solver.
      * rewrite IH2, tbl_get_add, elem_of_cons. naive_solver.
    + assert (dst ∉ Dict.keys g) as Hn.
      { intros ?%dict_mem_true. congruence. }
      destruct (IH (into, out_of)) as [IH1 IH2]. simpl in *. split; intros a b.
      * rewrite IH1, elem_of_cons. naive_solver.
      * rewrite IH2, elem_of_cons. naive_solver.
Qed.

Lemma edge_scan_outer (g : Graph) (l : list (Label * Block)) :
  ∀ (tbls : DomTable * DomTable),
  let r := foldl (λ tbls '(src, node),
                    foldl (λ '(into, out_of) dst,
                             if Dict.mem dst g
                             then (tbl_add into dst src, tbl_add out_of src dst)
                             else (into, out_of))
                          tbls (block_jump_targets node))
                 tbls l in
  (∀ p n, p ∈ tbl_get r.1 n ↔
          p ∈ tbl_get tbls.1 n ∨
          ∃ node, (p, node) ∈ l ∧ n ∈ block_jump_targets node ∧ n ∈ Dict.keys g) ∧
  (∀ n m, m ∈ tbl_get r.2 n ↔
          m ∈ tbl_get tbls.2 n ∨
          ∃ node, (n, node) ∈ l ∧ m ∈ block_jump_targets node ∧ m ∈ Dict.keys g).
Proof.
  induction l as [|[src node] l IH]; intros tbls; simpl.
  - split; intros a b; (split; [by left|]);
      intros [?|(? & ?%elem_of_nil & _)]; done.
  - destruct (edge_scan_inner g src (block_jump_targets node) tbls) as [I1 I2].
    set (tbls' := foldl _ tbls (block_jump_targets node)) in *.
    destruct (IH tbls') as [IH1 IH2]. simpl in *. split; intros a b.
    + rewrite IH1, I1. split.
      * intros [[?|(-> & ? & ?)]|(nd & ? & ? & ?)]; [by left| |].
        -- right. exists node. split; [left|done].
        -- right. exists nd. split; [by right|done].
      * intros [?|(nd & [[= -> ->]|?]%elem_of_cons & ? & ?)]; [by left; left| |].
        -- left. right. done.
        -- right. by exists nd.
    + rewrite IH2, I2. split.
      * intros [[?|(-> & ? & ?)]|(nd & ? & ? & ?)]; [by left| |].
        -- right. exists node. split; [left|done].
        -- right. exists nd. split; [by right|done].
      * intros [?|(nd & [[= -> ->]|?]%elem_of_cons & ? & ?)]; [by left; left| |].
        -- left. right. done.
        -- right. by exists nd.
Qed.

Lemma edge_scan_spec (g : Graph) :
  (∀ p n, p ∈ tbl_get (edge_scan g).1 n ↔ map_edge g p n) ∧
  (∀ n m, m ∈ tbl_get (edge_scan g).2 n ↔ map_edge g n m).
Proof.
  destruct (edge_scan_outer g g (∅, ∅)) as [H1 H2]. unfold edge_scan, map_edge.
  simpl in *. split; intros a b.
  - rewrite H1, tbl_get_empty. set_solver.
  - rewrite H2, tbl_get_empty. set_solver.
Qed.

(** ** Dominators of a block map *)

Lemma map_edge_is_pred (g : Graph) (n p : Label) :
  n ∈ Dict.keys g → (map_edge g p n ↔ is_pred g n p).
Proof. unfold map_edge, is_pred. naive_solver. Qed.

Lemma dom_entries_elem_of (g : Graph) (preds_table : DomTable) e :
  e ∈ dom_entries g preds_table ↔ e ∈ Dict.keys g ∧ tbl_get preds_table e = ∅.
Proof.
  unfold dom_entries. rewrite elem_of_list_to_set, list_elem_of_filter. tauto.
Qed.

(** C4.  On a block map with at least one entry node (a key with no
    predecessor in the map) the dominator engine returns, for every fuel
    from some bound on, a table in which every node belongs to its own
    dominator set, every entry has the dominator set that holds only itself,
    and the set of every node [n] with a predecessor is [n] together with
    what is common to the sets of all the predecessors of [n]. *)
Theorem doms_fixpoint (g : Graph) :
  (∃ e, e ∈ Dict.keys g ∧ ∀ p, ¬ is_pred g e p) →
  ∃ fuel0, ∀ fuel, (fuel0 ≤ fuel)%nat →
  ∃ doms,
    _doms fuel g = Ok doms ∧
    (∀ n, n ∈ Dict.keys g → ∃ D, Dict.get n doms = Some D ∧ n ∈ D) ∧
    (∀ e, e ∈ Dict.keys g → (∀ p, ¬ is_pred g e p) →
       Dict.get e doms = Some {[e]}) ∧
    (∀ n, n ∈ Dict.keys g → (∃ p, is_pred g n p) →
       ∃ D, Dict.get n doms = Some D ∧
            ∀ x, x ∈ D ↔
                 x = n ∨ ∀ p, is_pred g n p →
                              ∃ Dp, Dict.get p doms = Some Dp ∧ x ∈ Dp).
Proof.
  intros (e0 & He0 & Hno0).
  destruct (edge_scan_spec g) as [Hpreds Hsuccs].
  unfold _doms. destruct (edge_scan g) as [preds_table succs_table]. simpl in *.
  set (entries := dom_entries g preds_table).
  set (nodes := Dict.keys g).
  assert (∀ n p, p ∈ tbl_get preds_table n → p ∈ nodes) as Hpn.
  { intros n p (node & Hin & _ & _)%Hpreds. apply list_elem_of_fmap.
    by exists (p, node). }
  assert (∀ n m, m ∈ tbl_get succs_table n → m ∈ nodes) as Hsn.
  { by intros n m (node & _ & _ & ?)%Hsuccs. }
  assert (∀ n m, n ∈ tbl_get preds_table m → m ∈ tbl_get succs_table n) as Hps.
  { intros n m ?%Hpreds. by apply Hsuccs. }
  assert (∀ n, n ∈ nodes → (tbl_get preds_table n = ∅ ↔ ∀ p, ¬ is_pred g n p)) as Hent.
  { intros n Hn. split.
    - intros Hempty p Hp%map_edge_is_pred%Hpreds; [|done]. set_solver.
    - intros Hno. apply leibniz_equiv, elem_of_equiv_empty. intros p Hp%Hpreds.
      eapply Hno, map_edge_is_pred; done. }
  pose proof (init_doms_inv nodes entries preds_table Hpn) as Hinit.
  unfold _find_dominators_internal.
  rewrite bool_decide_eq_false_2.
  2:{ intros Hempty. assert (e0 ∈ entries) as He; [|set_solver].
      apply dom_entries_elem_of. split; [done|]. by apply Hent. }
  destruct (init_doms entries nodes) as [doms0 todo0]. simpl in Hinit.
  exists (S ((length nodes + 1) * doms_weight doms0 + length todo0)).
  intros fuel Hfuel.
  destruct (dom_loop_terminates nodes entries preds_table succs_table
              Hpn Hsn Hps fuel doms0 todo0 Hinit) as (doms & Hrun & HI);
    [lia|].
  exists doms. split; [done|]. destruct HI as [H1 H2 H3 H4 H5 H6]. split_and!.
  - intros n Hn. destruct (H1 n Hn) as [D HD]. exists D. split; [done|].
    by eapply H2.
  - intros e He Hno. apply H3; [done|]. apply dom_entries_elem_of.
    split; [done|]. by apply Hent.
  - intros n Hn (p0 & Hp0). destruct (H1 n Hn) as [D HD]. exists D. split; [done|].
    assert (n ∉ entries) as Hne.
    { intros [_ Hempty]%dom_entries_elem_of. eapply Hent; eauto. }
    assert (new_doms_spec preds_table doms n D) as Hspec.
    { apply new_doms_of_spec; [apply H5; try done; apply not_elem_of_nil|].
      intros p Hp. by eapply H1, Hpn. }
    intros x. rewrite (Hspec x). split.
    + intros [->|[_ Hall]]; [by left|]. right.
      intros p Hp. apply Hall, Hpreds, map_edge_is_pred; done.
    + intros [->|Hall]; [by left|]. right. split.
      * intros Hempty. eapply Hent; eauto.
      * intros p Hp%Hpreds%map_edge_is_pred; [|done]. by apply Hall.
Qed.

Lemma doms_fixpoint_witness :
  ∃ fuel0, ∀ fuel, (fuel0 ≤ fuel)%nat →
  ∃ doms,
    _doms fuel scenarioA_graph = Ok doms ∧
    (∀ n, n ∈ Dict.keys scenarioA_graph → ∃ D, Dict.get n doms = Some D ∧ n ∈ D) ∧
    (∀ e, e ∈ Dict.keys scenarioA_graph → (∀ p, ¬ is_pred scenarioA_graph e p) →
       Dict.get e doms = Some {[e]}) ∧
    (∀ n, n ∈ Dict.keys scenarioA_graph → (∃ p, is_pred scenarioA_graph n p) →
       ∃ D, Dict.get n doms = Some D ∧
            ∀ x, x ∈ D ↔
                 x = n ∨ ∀ p, is_pred scenarioA_graph n p →
                              ∃ Dp, Dict.get p doms = Some Dp ∧ x ∈ Dp).
Proof.
  apply (doms_fixpoint scenarioA_graph).
  exists (BCLabel 0). split.
  - vm_compute. left.
  - intros p (b & Hin & Hjt). vm_compute in Hin.
    repeat (apply elem_of_cons in Hin as [Hin|Hin];
            [injection Hin as -> ->; vm_compute in Hjt;
             repeat (apply elem_of_cons in Hjt as [Hjt|Hjt]; [discriminate|]);
             by apply elem_of_nil in Hjt|]).
    by apply elem_of_nil in Hin.
Defined.

(** ** Rules of the program logic *)

Section triple_rules.
Context {A B : Type}.

Lemma triple_ret (P : State → Prop) (x : A) (Q : A → State → Prop) :
  (∀ s, P s → Q x s) → triple P (mret x) Q.
Proof. intros H s Hs. by apply H. Qed.

Lemma triple_bind (P : State → Prop) (m : M A) (R : A → State → Prop)
    (f : A → M B) (Q : B → State → Prop) :
  triple P m R → (∀ x, triple (R x) (f x) Q) → triple P (m ≫= f) Q.
Proof.
  intros Hm Hf s Hs. specialize (Hm s Hs). unfold mbind, M_bind.
  destruct (m s) as [v s'| |]; [|done..]. by apply Hf.
Qed.

Lemma triple_conseq (P P' : State → Prop) (m : M A) (Q Q' : A → State → Prop) :
  triple P' m Q' → (∀ s, P s → P' s) → (∀ v s, Q' v s → Q v s) → triple P m Q.
Proof.
  intros Hm HP HQ s Hs. specialize (Hm s (HP s Hs)).
  destruct (m s); auto.
Qed.

Lemma triple_raise (P : State → Prop) (e : Exc) (Q : A → State → Prop) :
  triple P (raise e) Q.
Proof. by intros s Hs. Qed.

Lemma triple_lift (P : State → Prop) (r : Res A) (Q : A → State → Prop) :
  r ≠ NoFuel → (∀ x s, r = Ok x → P s → Q x s) → triple P (lift r) Q.
Proof. intros Hr H s Hs. unfold lift. destruct r; [by apply H|done|done]. Qed.

Lemma triple_pure (P : State → Prop) (φ : Prop) (m : M A) (Q : A → State → Prop) :
  (φ → triple P m Q) → triple (λ s, φ ∧ P s) m Q.
Proof. intros H s [Hφ Hs]. by apply H. Qed.

End triple_rules.

(** [for_eachM] with an invariant that sees the part of the list already
    walked. *)
Lemma triple_for_eachM {A S} (body : S → A → M S) (xs : list A)
    (I : list A → S → State → Prop) (acc0 : S) :
  (∀ done x acc, x ∈ xs → triple (I done acc) (body acc x) (I (done ++ [x]))) →
  triple (I [] acc0) (for_eachM body xs acc0) (I xs).
Proof.
  intros Hbody.
  assert (∀ done rest acc, (∀ x, x ∈ rest → x ∈ xs) →
            triple (I done acc) (for_eachM body rest acc) (I (done ++ rest))) as H.
  { intros done rest. revert done.
    induction rest as [|x rest IH]; intros done acc Hsub; simpl.
    - rewrite app_nil_r. by apply triple_ret.
    - eapply triple_bind; [apply Hbody, Hsub; left|].
      intros acc'. replace (done ++ x :: rest) with ((done ++ [x]) ++ rest)
        by by rewrite <- app_assoc.
      apply IH. intros y ?. apply Hsub. by right. }
  apply (H [] xs acc0). done.
Qed.

Lemma never_done_bind {A B} (m : M A) (f : A → M B) (s : State) :
  (∀ x s', never_done (f x) s') → never_done (m ≫= f) s.
Proof.
  intros Hf. unfold never_done, mbind, M_bind.
  destruct (m s) as [v s'| |]; [apply Hf|done..].
Qed.

Lemma never_done_raised {A} (m : M A) (s : State) :
  never_done m s → m s ≠ Diverged → raises m s.
Proof.
  unfold never_done, raises. destruct (m s) as [v s'|e s'|]; [done| |done].
  intros _ _. by exists e, s'.
Qed.

(** ** The single-header assertion guards every loop extraction *)

Lemma restructure_loop_body_guard rec bbmap labels loop s :
  size (find_headers_and_entries (graph_at s bbmap) loop).1 ≠ 1%nat →
  never_done (restructure_loop_body rec bbmap labels loop) s.
Proof.
  intros Hsize. unfold restructure_loop_body.
  unfold never_done, mbind at 1, M_bind at 1, get_graph at 1.
  fold (graph_at s bbmap).
  destruct (find_headers_and_entries (graph_at s bbmap) loop) as [headers entries].
  simpl in Hsize.
  apply never_done_bind. intros [pre_exits post_exits] s1.
  apply never_done_bind. intros [loop' labels'] s2.
  apply never_done_bind. intros [pre_exit_label post_exit_label] s3.
  apply never_done_bind. intros insiders s4.
  unfold never_done, mbind at 1, M_bind at 1, lift, assert.
  by rewrite bool_decide_eq_false_2.
Qed.

(** ** The components of the model of [scc] *)

Lemma GraphWrap_getitem_keys g u x :
  x ∈ GraphWrap_getitem g u → x ∈ Dict.keys g ∧ u ∈ Dict.keys g.
Proof.
  intros (b & Hin & _ & Hx)%graph_edge_inv. split; [done|].
  apply list_elem_of_fmap. by exists (u, b).
Qed.

Lemma elem_of_succ_set g (S : gset Label) x :
  x ∈ succ_set g S ↔ ∃ u, u ∈ S ∧ x ∈ GraphWrap_getitem g u.
Proof.
  unfold succ_set. rewrite elem_of_list_to_set, list_elem_of_bind.
  split; intros (u & H1 & H2); exists u; [split; [|done]|split; [done|]];
    by apply elem_of_elements.
Qed.

Lemma succ_set_keys g (S : gset Label) : succ_set g S ⊆ graph_keys g.
Proof.
  intros x (u & _ & [Hx _]%GraphWrap_getitem_keys)%elem_of_succ_set.
  by apply elem_of_list_to_set.
Qed.

Lemma succ_set_mono g (S T : gset Label) : S ⊆ T → succ_set g S ⊆ succ_set g T.
Proof.
  intros Hsub x (u & Hu & Hx)%elem_of_succ_set. apply elem_of_succ_set.
  exists u. split; [by apply Hsub|done].
Qed.

Lemma reach_closure_incl n g : ∀ S : gset Label, S ⊆ reach_closure n g S.
Proof.
  induction n as [|n IH]; intros S; simpl; [done|].
  etransitivity; [|apply IH]. set_solver.
Qed.

Lemma reach_closure_closed_id n g : ∀ T : gset Label,
  succ_closed g T → reach_closure n g T = T.
Proof.
  induction n as [|n IH]; intros T HT; simpl; [done|].
  assert (T ∪ succ_set g T = T) as -> by (unfold succ_closed in HT; set_solver).
  by apply IH.
Qed.

Lemma reach_closure_least n g : ∀ S T : gset Label,
  succ_closed g T → S ⊆ T → reach_closure n g S ⊆ T.
Proof.
  induction n as [|n IH]; intros S T HT HS; simpl; [done|].
  apply IH; [done|]. pose proof (succ_set_mono g S T HS).
  unfold succ_closed in HT. set_solver.
Qed.

Lemma reach_closure_bounded n g : ∀ S K : gset Label,
  S ⊆ K → graph_keys g ⊆ K → reach_closure n g S ⊆ K.
Proof.
  induction n as [|n IH]; intros S K HS HK; simpl; [done|].
  apply IH; [|done]. pose proof (succ_set_keys g S). set_solver.
Qed.

Lemma reach_closure_saturates n g : ∀ S K : gset Label,
  S ⊆ K → graph_keys g ⊆ K → (size K ≤ size S + n)%nat →
  succ_closed g (reach_closure n g S).
Proof.
  induction n as [|n IH]; intros S K HS HK Hsize; simpl.
  - assert (S = K) as ->.
    { apply leibniz_equiv, set_subseteq_size_equiv; [done|lia]. }
    unfold succ_closed. pose proof (succ_set_keys g K). set_solver.
  - destruct (decide (succ_set g S ⊆ S)) as [Hcl|Hncl].
    + assert (S ∪ succ_set g S = S) as -> by set_solver.
      by rewrite reach_closure_closed_id.
    + apply (IH _ K); [|done|].
      * pose proof (succ_set_keys g S). set_solver.
      * assert (S ⊂ S ∪ succ_set g S) as Hlt%subset_size by set_solver. lia.
Qed.

Lemma graph_keys_size g : (size (graph_keys g) ≤ length g)%nat.
Proof.
  unfold graph_keys. rewrite <- (length_fmap fst g).
  apply gset_size_le_length. intros x. by rewrite elem_of_list_to_set.
Qed.

Lemma descendants_closed g v :
  v ∈ Dict.keys g → succ_closed g (descendants g v).
Proof.
  intros Hv. unfold descendants.
  apply (reach_closure_saturates _ _ _ (graph_keys g)); [|done|].
  - apply singleton_subseteq_l. by apply elem_of_list_to_set.
  - rewrite size_singleton. pose proof (graph_keys_size g). lia.
Qed.

Lemma descendants_self g v : v ∈ descendants g v.
Proof. apply reach_closure_incl. set_solver. Qed.

Lemma descendants_keys g v x :
  v ∈ Dict.keys g → x ∈ descendants g v → x ∈ Dict.keys g.
Proof.
  intros Hv Hx. apply (elem_of_list_to_set (C := gset Label)).
  revert x Hx. apply reach_closure_bounded; [|done].
  apply singleton_subseteq_l. by apply elem_of_list_to_set.
Qed.

Lemma descendants_trans g v w x :
  v ∈ Dict.keys g → w ∈ descendants g v → x ∈ descendants g w →
  x ∈ descendants g v.
Proof.
  intros Hv Hw. revert x. apply reach_closure_least.
  - by apply descendants_closed.
  - by apply singleton_subseteq_l.
Qed.

Lemma elem_of_scc_of g v x :
  x ∈ scc_of g v ↔ x ∈ descendants g v ∧ v ∈ descendants g x.
Proof. unfold scc_of. rewrite elem_of_filter. tauto. Qed.

Lemma scc_of_keys g v x : v ∈ Dict.keys g → x ∈ scc_of g v → x ∈ Dict.keys g.
Proof. intros Hv [Hx _]%elem_of_scc_of. by eapply descendants_keys. Qed.

Lemma scc_of_self g v : v ∈ scc_of g v.
Proof. apply elem_of_scc_of. split; apply descendants_self. Qed.

Lemma scc_of_overlap g u v x :
  u ∈ Dict.keys g → v ∈ Dict.keys g →
  x ∈ scc_of g u → x ∈ scc_of g v → v ∈ scc_of g u.
Proof.
  intros Hu Hv [Hux Hxu]%elem_of_scc_of [Hvx Hxv]%elem_of_scc_of.
  assert (x ∈ Dict.keys g) as Hx by by eapply descendants_keys.
  apply elem_of_scc_of. split; by eapply descendants_trans.
Qed.

Lemma pairwise_disjoint_snoc l c :
  pairwise_disjoint (l ++ [c]) ↔ pairwise_disjoint l ∧ ∀ c', c' ∈ l → c' ## c.
Proof.
  induction l as [|c0 l IH]; simpl.
  - split; [intros _; split; [done|by intros ? ?%elem_of_nil]|].
    intros _. split; [by intros ? ?%elem_of_nil|done].
  - rewrite IH. split.
    + intros [H0 [Hl Hc]]. split_and!; [|done|].
      * intros c' ?. apply H0, elem_of_app. by left.
      * intros c' [->|?]%elem_of_cons; [|by apply Hc].
        apply H0, elem_of_app. right. left.
    + intros [[H0 Hl] Hc]. split_and!; [|done|].
      * intros c' [?|Hs%list_elem_of_singleton]%elem_of_app; [by apply H0|].
        subst c'. apply Hc. left.
      * intros c' ?. apply Hc. by right.
Qed.

Lemma pairwise_disjoint_filter (P : gset Label → Prop) `{∀ c, Decision (P c)} l :
  pairwise_disjoint l → pairwise_disjoint (filter P l).
Proof.
  induction l as [|c l IH]; simpl; [done|]. intros [Hc Hl].
  rewrite filter_cons. case_decide; simpl; [|auto]. split; [|auto].
  intros c' [_ ?]%list_elem_of_filter. by apply Hc.
Qed.

Lemma scc_spec g :
  (∀ c, c ∈ scc g → ∃ v, v ∈ Dict.keys g ∧ c = scc_of g v) ∧
  pairwise_disjoint (scc g).
Proof.
  unfold scc.
  assert (∀ ks acc,
            (∀ k, k ∈ ks → k ∈ Dict.keys g) →
            ((∀ c, c ∈ acc → ∃ v, v ∈ Dict.keys g ∧ c = scc_of g v) ∧
             pairwise_disjoint acc) →
            let r := foldl (λ acc v,
                              if existsb (λ c : gset Label, bool_decide (v ∈ c)) acc
                              then acc else acc ++ [scc_of g v]) acc ks in
            (∀ c, c ∈ r → ∃ v, v ∈ Dict.keys g ∧ c = scc_of g v) ∧
            pairwise_disjoint r) as H.
  { induction ks as [|k ks IH]; intros acc Hks Hacc; simpl; [done|].
    apply IH; [intros; apply Hks; by right|].
    destruct (existsb _ acc) eqn:Hex; [done|].
    destruct Hacc as [Hall Hdis]. split.
    - intros c [?|Hs%list_elem_of_singleton]%elem_of_app; [by apply Hall|].
      subst c. exists k. split; [apply Hks; left|done].
    - apply pairwise_disjoint_snoc. split; [done|].
      intros c Hc. destruct (Hall c Hc) as (u & Hu & ->).
      intros x Hxu Hxk.
      assert (k ∈ scc_of g u) as Hk.
      { eapply scc_of_overlap; [done|apply Hks; left|done..]. }
      assert (existsb (λ c : gset Label, bool_decide (k ∈ c)) acc = true);
        [|congruence].
      apply existsb_exists. exists (scc_of g u).
      split; [by apply list_elem_of_In|by apply bool_decide_eq_true]. }
  apply (H (Dict.keys g) []); [done|]. split; [by intros ? ?%elem_of_nil|done].
Qed.

(** ** The primitives of the store keep the pass invariant *)

Lemma frame_refl a s : frame a s s.
Proof. split_and!; [lia|lia|done]. Qed.

Lemma keyed_by_begin_set (g : Graph) b :
  keyed_by_begin g → keyed_by_begin (Dict.set (block_begin b) b g).
Proof.
  intros Hk k b' [[= -> ->]|Hin]%dict_elem_of_set; [done|by apply Hk].
Qed.

Lemma keyed_by_begin_del (g : Graph) k :
  keyed_by_begin g → keyed_by_begin (Dict.del k g).
Proof. intros Hk k' b' [Hin _]%dict_elem_of_del. by apply Hk. Qed.

Lemma wf_graph_set (g : Graph) b : wf_graph g → wf_graph (Dict.set (block_begin b) b g).
Proof. intros [? ?]. split; [by apply dict_set_NoDup|by apply keyed_by_begin_set]. Qed.

Lemma wf_graph_del (g : Graph) k : wf_graph g → wf_graph (Dict.del k g).
Proof. intros [? ?]. split; [by apply dict_del_NoDup|by apply keyed_by_begin_del]. Qed.

Section pass_facts.
Variables (a : BlockMap) (keep : list (Label * Block)) (s0 : State).

#[local] Abbreviation J := (pass_inv a keep s0).

Lemma pass_inv_valid s : J s → (a < length (store s))%nat.
Proof. intros (Ha & (Hlen & _) & _). lia. Qed.

Lemma pass_inv_lookup s : J s → store s !! a = Some (graph_at s a).
Proof.
  intros HJ. apply pass_inv_valid in HJ. unfold graph_at.
  destruct (lookup_lt_is_Some_2 (store s) a HJ) as [g ->]. done.
Qed.

Lemma pass_inv_put s g' :
  J s → wf_graph g' → (∀ kb, kb ∈ keep → kb ∈ g') →
  J (mkState (clg_index s) (<[a := g']> (store s))).
Proof.
  intros HJ Hwf Hkeep. pose proof (pass_inv_lookup s HJ) as Hl.
  destruct HJ as (Ha & (Hlen & Hclg & Hfr) & _ & _).
  split_and!; [done| |..].
  - split_and!; simpl; [by rewrite length_insert|done|].
    intros a' Hne Ha'. rewrite list_lookup_insert_ne by done. by apply Hfr.
  - by rewrite (graph_at_insert _ _ _ _ _ Hl).
  - by rewrite (graph_at_insert _ _ _ _ _ Hl).
Qed.

Lemma pass_inv_clg s c' :
  J s → clg_index s ≤ c' → J (mkState c' (store s)).
Proof.
  intros (Ha & (Hlen & Hclg & Hfr) & Hwf & Hkeep) Hc.
  split_and!; [done|split_and!; simpl; [done|lia|done]|done..].
Qed.

Lemma pass_inv_alloc s g' :
  J s → J (mkState (clg_index s) (store s ++ [g'])).
Proof.
  intros HJ. pose proof (pass_inv_valid s HJ) as Hv.
  destruct HJ as (Ha & (Hlen & Hclg & Hfr) & Hwf & Hkeep).
  assert (graph_at (mkState (clg_index s) (store s ++ [g'])) a = graph_at s a) as Hg.
  { unfold graph_at. simpl. by rewrite lookup_app_l. }
  split_and!; [done| |by rewrite Hg..].
  split_and!; simpl; [rewrite length_app; lia|done|].
  intros a' Hne Ha'. rewrite lookup_app_l by lia. by apply Hfr.
Qed.

Lemma pass_inv_foreign s s' sub :
  J s → frame sub s s' → sub ≠ a → (length (store s0) ≤ sub)%nat → J s'.
Proof.
  intros HJ (Hlen' & Hclg' & Hfr') Hne Hsub.
  pose proof (pass_inv_valid s HJ) as Hv.
  destruct HJ as (Ha & (Hlen & Hclg & Hfr) & Hwf & Hkeep).
  assert (graph_at s' a = graph_at s a) as Hg.
  { unfold graph_at. rewrite Hfr'; [done|done|lia]. }
  split_and!; [done| |by rewrite Hg..].
  split_and!; [lia|lia|].
  intros a' Hne' Ha'. rewrite Hfr'; [by apply Hfr|lia|lia].
Qed.

Lemma triple_new_index :
  triple J new_index (λ i s, J s ∧ clg_index s0 ≤ i).
Proof.
  intros s HJ. unfold new_index. split.
  - apply (pass_inv_clg s); [done|lia].
  - destruct HJ as (_ & (_ & ? & _) & _). done.
Qed.

Lemma triple_get_graph :
  triple J (get_graph a) (λ g s, J s ∧ g = graph_at s a).
Proof. intros s HJ. unfold get_graph. done. Qed.

Lemma triple_add_node b :
  block_begin b ∉ keep.*1 → triple J (bbmap_add_node a b) (λ _, J).
Proof.
  intros Hb s HJ. pose proof (pass_inv_lookup s HJ) as Hl.
  destruct s as [c st]. simpl in Hl.
  rewrite (run_bbmap_add_node _ _ _ _ _ Hl).
  apply (pass_inv_put (mkState c st)); [done| |].
  - apply wf_graph_set. by destruct HJ as (_ & _ & ? & _).
  - intros [k b'] Hin. apply dict_set_other.
    + intros ->. apply Hb. apply list_elem_of_fmap. by exists (block_begin b, b').
    + by destruct HJ as (_ & _ & _ & Hkeep); apply Hkeep.
Qed.

Lemma triple_setitem k b :
  block_begin b = k → k ∉ keep.*1 → triple J (bbmap_setitem a k b) (λ _, J).
Proof. intros <- Hk. by apply triple_add_node. Qed.

Lemma triple_pop k :
  k ∉ keep.*1 → triple J (bbmap_pop a k) (λ b s, J s ∧ block_begin b = k).
Proof.
  intros Hk s HJ. pose proof (pass_inv_lookup s HJ) as Hl.
  destruct s as [c st]. simpl in Hl.
  unfold bbmap_pop, mbind, M_bind, get_graph. simpl. rewrite Hl. simpl.
  unfold Dict.pop. fold (graph_at (mkState c st) a).
  destruct (Dict.get k (graph_at (mkState c st) a)) as [b|] eqn:Hget; [|done].
  simpl. unfold mret, M_ret. pose proof HJ as (_ & _ & [Hd Hkb] & Hkeep). split.
  - apply (pass_inv_put (mkState c st)); [done|by apply wf_graph_del|].
    intros [k' b'] Hin. apply dict_elem_of_del. split; [by apply Hkeep|].
    intros ->. apply Hk. apply list_elem_of_fmap. by exists (k, b').
  - by apply Hkb, dict_get_elem_of.
Qed.

Lemma triple_getitem k :
  triple J (bbmap_getitem a k)
         (λ b s, J s ∧ block_begin b = k ∧ (k, b) ∈ graph_at s a).
Proof.
  intros s HJ. unfold bbmap_getitem, mbind, M_bind, get_graph, lift. simpl.
  fold (graph_at s a).
  destruct (Dict.get k (graph_at s a)) as [b|] eqn:Hget; simpl; [|done].
  apply dict_get_elem_of in Hget. split_and!; [done| |done].
  destruct HJ as (_ & _ & [_ Hkb] & _). by apply Hkb.
Qed.

Lemma triple_new_BlockMap g' :
  triple J (new_BlockMap g')
         (λ sub s, J s ∧ store s !! sub = Some g' ∧ (length (store s0) ≤ sub)%nat).
Proof.
  intros s HJ. unfold new_BlockMap. split_and!.
  - by apply pass_inv_alloc.
  - simpl. by rewrite lookup_app_r, Nat.sub_diag by lia.
  - destruct HJ as (_ & (? & _) & _). done.
Qed.

Lemma triple_rec n rec sub g' :
  rec_ok n rec → wf_graph g' → (length g' ≤ n)%nat →
  triple (λ s, J s ∧ store s !! sub = Some g' ∧ (length (store s0) ≤ sub)%nat)
         (rec sub) (λ _, J).
Proof.
  intros Hrec Hwf Hlen s (HJ & Hsub & Hge).
  assert (graph_at s sub = g') as Hg by (unfold graph_at; by rewrite Hsub).
  specialize (Hrec sub s). rewrite Hg in Hrec.
  destruct (rec sub s) as [v s'| |]; [|done|].
  - apply (pass_inv_foreign s s' sub); [done| |..|done].
    + eapply proj1, Hrec; [by eapply lookup_lt_Some|done..].
    + destruct HJ as (? & _). lia.
  - apply Hrec; [by eapply lookup_lt_Some|done..].
Qed.

End pass_facts.

(** ** Headers and entries of a set of nodes *)

Lemma find_headers_and_entries_from (loop : gset Label) (l : list (Label * Block)) :
  ∀ (acc : gset Label * gset Label),
  let r := foldl (λ '(headers, entries) '(node, b),
                    if bool_decide (node ∈ loop) then (headers, entries)
                    else
                      let nodes_jump_in_loop :=
                        list_to_set (block_jump_targets b) ∩ loop in
                      (headers ∪ nodes_jump_in_loop,
                       if bool_decide (nodes_jump_in_loop ≠ ∅)
                       then entries ∪ {[node]} else entries))
                 acc l in
  (∀ h, h ∈ r.1 ↔
        h ∈ acc.1 ∨
        ∃ k b, (k, b) ∈ l ∧ k ∉ loop ∧ h ∈ block_jump_targets b ∧ h ∈ loop) ∧
  (∀ e, e ∈ r.2 ↔
        e ∈ acc.2 ∨
        ∃ b h, (e, b) ∈ l ∧ e ∉ loop ∧ h ∈ block_jump_targets b ∧ h ∈ loop).
Proof.
  induction l as [|[node b] l IH]; intros [H E]; simpl.
  - split; intros x; (split; [by left|]);
      intros [?|(? & ? & ?%elem_of_nil & _)]; done.
  - case_bool_decide as Hin.
    + destruct (IH (H, E)) as [IH1 IH2]. simpl in *. split; intros x.
      * rewrite IH1. split.
        -- intros [?|(k & b' & ? & ?)]; [by left|]. right. exists k, b'.
           split; [by right|done].
        -- intros [?|(k & b' & [[= -> ->]|?]%elem_of_cons & ? & ?)];
             [by left|done|]. right. by exists k, b'.
      * rewrite IH2. split.
        -- intros [?|(b' & h & ? & ?)]; [by left|]. right. exists b', h.
           split; [by right|done].
        -- intros [?|(b' & h & [[= -> ->]|?]%elem_of_cons & ? & ?)];
             [by left|done|]. right. by exists b', h.
    + set (J := list_to_set (block_jump_targets b) ∩ loop).
      assert (∀ h, h ∈ J ↔ h ∈ block_jump_targets b ∧ h ∈ loop) as HJ.
      { intros h. unfold J. rewrite elem_of_intersection, elem_of_list_to_set. done. }
      destruct (IH (H ∪ J, if bool_decide (J ≠ ∅) then E ∪ {[node]} else E))
        as [IH1 IH2]. simpl in *. split; intros x.
      * rewrite IH1, elem_of_union, HJ. split.
        -- intros [[?|[? ?]]|(k & b' & ? & ?)]; [by left| |].
           ++ right. exists node, b. split; [left|done].
           ++ right. exists k, b'. split; [by right|done].
        -- intros [?|(k & b' & [[= -> ->]|?]%elem_of_cons & ? & ? & ?)];
             [by left; left|by left; right|]. right. by exists k, b'.
      * rewrite IH2. split.
        -- intros [HE|(b' & h & ? & ?)].
           ++ case_bool_decide as HJne.
              ** apply elem_of_union in HE as [?|Hx]; [by left|].
                 apply elem_of_singleton in Hx as ->.
                 right. apply set_choose_L in HJne as [h Hh]. apply HJ in Hh as [? ?].
                 exists b, h. split; [left|done].
              ** by left.
           ++ right. exists b', h. split; [by right|done].
        -- intros [?|(b' & h & [[= -> ->]|?]%elem_of_cons & ? & ? & ?)].
           ++ left. case_bool_decide; [apply elem_of_union; by left|done].
           ++ left. rewrite bool_decide_eq_true_2.
              ** apply elem_of_union. right. by apply elem_of_singleton.
              ** intros Hempty. assert (h ∈ J) as Hh by by apply HJ.
                 rewrite Hempty in Hh. by apply elem_of_empty in Hh.
           ++ right. by exists b', h.
Qed.

(** X1.  [find_headers_and_entries]: the headers it reports are exactly the
    labels of [loop] that a node filed outside [loop] jumps to, and the
    entries exactly the keys outside [loop] whose node jumps to a label of
    [loop]. *)
Theorem find_headers_and_entries_spec (g : Graph) (loop : gset Label) :
  (∀ h, h ∈ (find_headers_and_entries g loop).1 ↔
        h ∈ loop ∧ ∃ k b, (k, b) ∈ g ∧ k ∉ loop ∧ h ∈ block_jump_targets b) ∧
  (∀ e, e ∈ (find_headers_and_entries g loop).2 ↔
        e ∉ loop ∧ ∃ b h, (e, b) ∈ g ∧ h ∈ block_jump_targets b ∧ h ∈ loop).
Proof.
  destruct (find_headers_and_entries_from loop g (∅, ∅)) as [H1 H2].
  unfold find_headers_and_entries. simpl in *. split; intros x.
  - rewrite H1. split.
    + intros [?%elem_of_empty|(k & b & ? & ? & ? & ?)]; [done|].
      split; [done|]. by exists k, b.
    + intros (? & k & b & ? & ? & ?). right. by exists k, b.
  - rewrite H2. split.
    + intros [?%elem_of_empty|(b & h & ? & ? & ? & ?)]; [done|].
      split; [done|]. by exists b, h.
    + intros (? & b & h & ? & ? & ?). right. by exists b, h.
Qed.

(** ** The unique head of a map *)

Lemma find_head_inner (jts : list Label) : ∀ (hs : gset Label) x,
  x ∈ foldl (λ hs jt, hs ∖ {[jt]}) hs jts ↔ x ∈ hs ∧ x ∉ jts.
Proof.
  induction jts as [|jt jts IH]; intros hs x; simpl.
  - split; [intros ?; split; [done|apply not_elem_of_nil]|by intros [? _]].
  - rewrite IH, elem_of_difference, elem_of_singleton, not_elem_of_cons. tauto.
Qed.

Lemma find_head_outer (l : list (Label * Block)) : ∀ (hs : gset Label) x,
  x ∈ foldl (λ hs kb, foldl (λ hs jt, hs ∖ {[jt]}) hs (block_jump_targets kb.2)) hs l
  ↔ x ∈ hs ∧ ∀ k b, (k, b) ∈ l → x ∉ block_jump_targets b.
Proof.
  induction l as [|[k b] l IH]; intros hs x; simpl.
  - split; [intros ?; split; [done|by intros ? ? ?%elem_of_nil]|by intros [? _]].
  - rewrite IH, find_head_inner. split.
    + intros [[? ?] Hl]. split; [done|].
      intros k' b' [[= -> ->]|?]%elem_of_cons; [done|by eapply Hl].
    + intros [? Hl]. split_and!; [done| |].
      * apply (Hl k b). left.
      * intros k' b' ?. apply (Hl k' b'). by right.
Qed.

(** X2.  [find_head] returns the one key of the map that no node of the map
    jumps to, and fails its assertion exactly when the number of such keys
    is not one (an empty map, a map where every node is a jump target, a map
    with two roots). *)
Theorem find_head_spec (g : Graph) :
  match find_head g with
  | Ok h => is_head g h ∧ ∀ h', is_head g h' → h' = h
  | Err e => e = AssertionError ∧ ¬ ∃ h, is_head g h ∧ ∀ h', is_head g h' → h' = h
  | NoFuel => False
  end.
Proof.
  unfold find_head.
  set (heads := foldl _ (graph_keys g) g).
  assert (∀ x, x ∈ heads ↔ is_head g x) as Hheads.
  { intros x. unfold heads. rewrite find_head_outer. unfold is_head, graph_keys.
    by rewrite elem_of_list_to_set. }
  clearbody heads. unfold assert. case_bool_decide as Hsize; simpl.
  - apply size_1_elem_of in Hsize as [h Hh]. apply leibniz_equiv in Hh as ->.
    unfold next_iter.
    rewrite elements_singleton. simpl. split.
    + apply Hheads. by apply elem_of_singleton.
    + intros h' Hh'%Hheads. by apply elem_of_singleton in Hh'.
  - split; [done|]. intros (h & Hh & Huniq). apply Hsize.
    assert (heads = {[h]}) as ->; [|by rewrite size_singleton].
    apply set_eq. intros x. rewrite elem_of_singleton, Hheads. split; [apply Huniq|].
    by intros ->.
Qed.

(** ** Exits of a set of nodes *)

Lemma find_exits_inner (loop : gset Label) (inside : Label) (jts : list Label) :
  ∀ (acc : gset Label * gset Label),
  let r := foldl (λ '(pre, post) jt,
                    if bool_decide (jt ∈ loop) then (pre, post)
                    else (pre ∪ {[inside]}, post ∪ {[jt]}))
                 acc jts in
  (∀ x, x ∈ r.1 ↔ x ∈ acc.1 ∨ (x = inside ∧ ∃ t, t ∈ jts ∧ t ∉ loop)) ∧
  (∀ y, y ∈ r.2 ↔ y ∈ acc.2 ∨ (y ∈ jts ∧ y ∉ loop)).
Proof.
  induction jts as [|jt jts IH]; intros [pre post]; simpl.
  - split; intros x; (split; [by left|]).
    + intros [?|(_ & t & ?%elem_of_nil & _)]; done.
    + intros [?|(?%elem_of_nil & _)]; done.
  - case_bool_decide as Hin.
    + destruct (IH (pre, post)) as [IH1 IH2]. simpl in *. split; intros x.
      * rewrite IH1. split.
        -- intros [?|(-> & t & ? & ?)]; [by left|]. right. split; [done|].
           exists t. split; [by right|done].
        -- intros [?|(-> & t & [->|?]%elem_of_cons & ?)]; [by left|done|].
           right. split; [done|]. by exists t.
      * rewrite IH2, elem_of_cons. naive_solver.
    + destruct (IH (pre ∪ {[inside]}, post ∪ {[jt]})) as [IH1 IH2].
      simpl in *. split; intros x.
      * rewrite IH1, elem_of_union, elem_of_singleton. split.
        -- intros [[?| ->]|(-> & t & ? & ?)]; [by left| |].
           ++ right. split; [done|]. exists jt. split; [left|done].
           ++ right. split; [done|]. exists t. split; [by right|done].
        -- intros [?|(-> & _)]; [by left; left|by left; right].
      * rewrite IH2, elem_of_union, elem_of_singleton, elem_of_cons. naive_solver.
Qed.

Lemma find_exits_step_spec (loop : gset Label) (g : Graph)
    (acc : gset Label * gset Label) (inside : Label) (b : Block) :
  Dict.get inside g = Some b →
  ∃ r, find_exits_step loop g acc inside = Ok r ∧
       (∀ x, x ∈ r.1 ↔
             x ∈ acc.1 ∨
             (x = inside ∧
              (is_exiting b = true ∨ ∃ t, t ∈ block_jump_targets b ∧ t ∉ loop))) ∧
       (∀ y, y ∈ r.2 ↔ y ∈ acc.2 ∨ (y ∈ block_jump_targets b ∧ y ∉ loop)).
Proof.
  intros Hget. unfold find_exits_step. rewrite Hget. simpl.
  destruct (find_exits_inner loop inside (block_jump_targets b) acc) as [H1 H2].
  destruct (foldl _ acc (block_jump_targets b)) as [pre post]. simpl in *.
  eexists. split; [done|]. simpl. split; [|done]. intros x.
  destruct (is_exiting b).
  - rewrite elem_of_union, elem_of_singleton, H1. naive_solver.
  - rewrite H1. naive_solver.
Qed.

Lemma find_exits_from (loop : gset Label) (g : Graph) (ks : list Label) :
  ∀ (acc : gset Label * gset Label),
  (∀ k, k ∈ ks → k ∈ Dict.keys g) →
  ∃ r, for_each (find_exits_step loop g) ks acc = Ok r ∧
       (∀ x, x ∈ r.1 ↔
             x ∈ acc.1 ∨
             (x ∈ ks ∧ ∃ b, Dict.get x g = Some b ∧
                (is_exiting b = true ∨ ∃ t, t ∈ block_jump_targets b ∧ t ∉ loop))) ∧
       (∀ y, y ∈ r.2 ↔
             y ∈ acc.2 ∨
             (y ∉ loop ∧ ∃ x b, x ∈ ks ∧ Dict.get x g = Some b ∧
                                y ∈ block_jump_targets b)).
Proof.
  induction ks as [|k ks IH]; intros acc Hks; simpl.
  - exists acc. split; [done|]. split; intros x; (split; [by left|]).
    + intros [?|(?%elem_of_nil & _)]; done.
    + intros [?|(_ & ? & ? & ?%elem_of_nil & _)]; done.
  - assert (is_Some (Dict.get k g)) as [b Hb].
    { apply dict_get_is_Some, Hks. left. }
    destruct (find_exits_step_spec loop g acc k b Hb) as (r1 & -> & S1 & S2). simpl.
    destruct (IH r1) as (r & -> & R1 & R2).
    { intros k' ?. apply Hks. by right. }
    exists r. split; [done|]. split; intros x.
    + rewrite R1, S1. split.
      * intros [[?|(-> & ?)]|(? & ?)]; [by left| |].
        -- right. split; [left|]. by exists b.
        -- right. split; [by right|done].
      * intros [?|([->|?]%elem_of_cons & b' & Hb' & Hex)]; [by left; left| |].
        -- left. right. split; [done|].
           rewrite Hb in Hb'. by injection Hb' as <-.
        -- right. split; [done|]. by exists b'.
    + rewrite R2, S2. split.
      * intros [[?|(? & ?)]|(? & x' & b' & ? & ? & ?)]; [by left| |].
        -- right. split; [done|]. exists k, b. split_and!; [left|done..].
        -- right. split; [done|]. exists x', b'. split_and!; [by right|done..].
      * intros [?|(? & x' & b' & [->|?]%elem_of_cons & Hb' & ?)]; [by left; left| |].
        -- left. right. split; [|done].
           rewrite Hb in Hb'. by injection Hb' as <-.
        -- right. split; [done|]. by exists x', b'.
Qed.

(** X3.  When every label of [loop] is a key of the map, [find_exits]
    returns; its pre-exits are exactly the nodes of [loop] that have no jump
    target at all or have a jump target outside [loop], and its post-exits
    exactly the labels outside [loop] that a node of [loop] jumps to (keys
    of the map or not). *)
Theorem find_exits_spec (loop : gset Label) (g : Graph) :
  (∀ k, k ∈ loop → k ∈ Dict.keys g) →
  ∃ pre post,
    find_exits loop g = Ok (pre, post) ∧
    (∀ x, x ∈ pre ↔
          x ∈ loop ∧ ∃ b, Dict.get x g = Some b ∧
            (is_exiting b = true ∨ ∃ t, t ∈ block_jump_targets b ∧ t ∉ loop)) ∧
    (∀ y, y ∈ post ↔
          y ∉ loop ∧ ∃ x b, x ∈ loop ∧ Dict.get x g = Some b ∧
                            y ∈ block_jump_targets b).
Proof.
  intros Hloop. unfold find_exits.
  destruct (find_exits_from loop g (elements loop) (∅, ∅)) as ([pre post] & -> & H1 & H2).
  { intros k ?%elem_of_elements. by apply Hloop. }
  exists pre, post. split; [done|]. simpl in *. split; intros x.
  - rewrite H1, elem_of_elements. split; [|by right].
    intros [?%elem_of_empty|?]; done.
  - rewrite H2. split; [intros [?%elem_of_empty|(? & x' & b & ?%elem_of_elements & ?)]|].
    + done.
    + split; [done|]. by exists x', b.
    + intros (? & x' & b & ? & ?). right. split; [done|]. exists x', b.
      by rewrite elem_of_elements.
Qed.

Lemma find_exits_spec_witness :
  ∃ pre post,
    find_exits scenarioB_loop scenarioB_graph = Ok (pre, post) ∧
    (∀ x, x ∈ pre ↔
          x ∈ scenarioB_loop ∧ ∃ b, Dict.get x scenarioB_graph = Some b ∧
            (is_exiting b = true ∨
             ∃ t, t ∈ block_jump_targets b ∧ t ∉ scenarioB_loop)) ∧
    (∀ y, y ∈ post ↔
          y ∉ scenarioB_loop ∧ ∃ x b, x ∈ scenarioB_loop ∧
            Dict.get x scenarioB_graph = Some b ∧ y ∈ block_jump_targets b).
Proof.
  apply (find_exits_spec scenarioB_loop scenarioB_graph).
  intros k Hk. refine (bool_decide_unpack _ _).
  revert k Hk. refine (bool_decide_unpack _ _). vm_compute. exact I.
Defined.

Lemma for_each_KeyError (loop : gset Label) (g : Graph) (ks : list Label) :
  ∀ (acc : gset Label * gset Label) k,
  k ∈ ks → k ∉ Dict.keys g →
  for_each (find_exits_step loop g) ks acc = Err KeyError.
Proof.
  induction ks as [|k0 ks IH]; intros acc k Hk Hnk; [by apply elem_of_nil in Hk|].
  simpl. destruct (Dict.get k0 g) as [b|] eqn:Hget.
  - destruct (find_exits_step_spec loop g acc k0 b Hget) as (r1 & -> & _). simpl.
    apply elem_of_cons in Hk as [->|Hk].
    + exfalso. apply Hnk, dict_get_is_Some. by rewrite Hget.
    + by apply (IH r1 k).
  - unfold find_exits_step. by rewrite Hget.
Qed.

(** X4.  [find_exits] looks every label of [loop] up in the map: a label of
    [loop] that is not a key makes the call fail with [KeyError], whatever
    else the map holds. *)
Theorem find_exits_missing_key (loop : gset Label) (g : Graph) (k : Label) :
  k ∈ loop → k ∉ Dict.keys g → find_exits loop g = Err KeyError.
Proof.
  intros Hk Hnk. unfold find_exits. apply (for_each_KeyError loop g _ _ k); [|done].
  by apply elem_of_elements.
Qed.

Lemma find_exits_missing_key_witness :
  find_exits {[BCLabel 4; BCLabel 6]} scenarioB_graph = Err KeyError.
Proof.
  apply (find_exits_missing_key _ _ (BCLabel 6)).
  - refine (bool_decide_unpack _ _). vm_compute. exact I.
  - refine (bool_decide_unpack _ _). vm_compute. exact I.
Defined.

(** ** The flow builder: [FlowInfo.from_bytecode] *)

Lemma add_targets_elem_of (ts : list Label) : ∀ (B : gset Label) x,
  x ∈ foldl (λ s t, s ∪ {[t]}) B ts ↔ x ∈ B ∨ x ∈ ts.
Proof.
  induction ts as [|t ts IH]; intros B x; simpl.
  - split; [by left|]. intros [?|?%elem_of_nil]; done.
  - rewrite IH, elem_of_union, elem_of_singleton, elem_of_cons. tauto.
Qed.

Lemma add_jump_inst_ok fi off ts :
  flow_ok fi → (∀ t, t ∈ ts → is_BCLabel t = true) →
  flow_ok (_add_jump_inst fi off ts) ∧
  (∀ x, x ∈ block_offsets (_add_jump_inst fi off ts) ↔ x ∈ block_offsets fi ∨ x ∈ ts).
Proof.
  intros (HB & HJ & HD) Hts. unfold _add_jump_inst. simpl.
  split; [|intros x; apply add_targets_elem_of].
  split_and!; simpl.
  - intros l [?|?]%add_targets_elem_of; auto.
  - intros o ts' t [[= -> ->]|Hin]%dict_elem_of_set Ht; apply add_targets_elem_of.
    + by right.
    + left. by eapply HJ.
  - by apply dict_set_NoDup.
Qed.

Lemma from_bytecode_step_ok fi i :
  flow_ok fi →
  ∃ fi', from_bytecode_step fi i = Ok fi' ∧ flow_ok fi' ∧
         last_offset fi' = last_offset fi ∧
         (∀ x, x ∈ block_offsets fi' ↔ x ∈ block_offsets fi ∨ x ∈ starts_of i).
Proof.
  intros Hok. unfold from_bytecode_step, starts_of.
  set (fi1 := if bool_decide (offset i = 0) || is_jump_target i
              then mkFlowInfo (block_offsets fi ∪ {[BCLabel (offset i)]})
                              (jump_insts fi) (last_offset fi)
              else fi).
  assert (flow_ok fi1 ∧ last_offset fi1 = last_offset fi ∧
          ∀ x, x ∈ block_offsets fi1 ↔
               x ∈ block_offsets fi ∨
               x ∈ (if bool_decide (offset i = 0) || is_jump_target i
                    then [BCLabel (offset i)] else [])) as (Hok1 & Hlast & HB1).
  { unfold fi1. destruct (bool_decide (offset i = 0) || is_jump_target i).
    - destruct Hok as (HB & HJ & HD). split_and!; [split_and!|done|]; simpl.
      + intros l [?| ->%elem_of_singleton]%elem_of_union; auto.
      + intros o ts t Hin Ht. apply elem_of_union. left. by eapply HJ.
      + done.
      + intros x. by rewrite elem_of_union, elem_of_singleton, list_elem_of_singleton.
    - split_and!; [done..|]. intros x. split; [by left|].
      intros [?|?%elem_of_nil]; done. }
  clearbody fi1. simpl.
  destruct (is_conditional_jump (opname i)); simpl;
    [|destruct (is_unconditional_jump (opname i)); simpl;
      [|destruct (is_exiting_op (opname i)); simpl]].
  - destruct (add_jump_inst_ok fi1 (BCLabel (offset i))
                [BCLabel (argval i); BCLabel (offset i + 2)] Hok1) as [Hok2 HB2].
    { by intros t [->|[->|?%elem_of_nil]%elem_of_cons]%elem_of_cons. }
    eexists. split_and!; [done|done|done|].
    intros x. rewrite HB2, HB1, elem_of_app. tauto.
  - destruct (add_jump_inst_ok fi1 (BCLabel (offset i)) [BCLabel (argval i)] Hok1)
      as [Hok2 HB2].
    { by intros t [->|?%elem_of_nil]%elem_of_cons. }
    eexists. split_and!; [done|done|done|].
    intros x. rewrite HB2, HB1, elem_of_app. tauto.
  - destruct (add_jump_inst_ok fi1 (BCLabel (offset i)) [] Hok1) as [Hok2 HB2].
    { by intros t ?%elem_of_nil. }
    eexists. split_and!; [done|done|done|].
    intros x. rewrite HB2, HB1, elem_of_app. tauto.
  - eexists. split_and!; [done|done|done|].
    intros x. rewrite HB1, elem_of_app.
    split; [intros [?|?]; auto|intros [?|[?|?%elem_of_nil]]; auto; done].
Qed.

Lemma from_bytecode_loop_ok (bc : list Instruction) : ∀ fi,
  flow_ok fi →
  ∃ fi', for_each from_bytecode_step bc fi = Ok fi' ∧ flow_ok fi' ∧
         last_offset fi' = last_offset fi ∧
         (∀ x, x ∈ block_offsets fi' ↔
               x ∈ block_offsets fi ∨ ∃ i, i ∈ bc ∧ x ∈ starts_of i).
Proof.
  induction bc as [|i bc IH]; intros fi Hok; simpl.
  - exists fi. split_and!; [done..|]. intros x. split; [by left|].
    intros [?|(? & ?%elem_of_nil & _)]; done.
  - destruct (from_bytecode_step_ok fi i Hok) as (fi1 & -> & Hok1 & Hl1 & HB1). simpl.
    destruct (IH fi1 Hok1) as (fi' & -> & Hok' & Hl' & HB').
    exists fi'. split_and!; [done|done|congruence|].
    intros x. rewrite HB', HB1. split.
    + intros [[?|?]|(j & ? & ?)]; [by left| |].
      * right. exists i. split; [left|done].
      * right. exists j. split; [by right|done].
    + intros [?|(j & [->|?]%elem_of_cons & ?)]; [by left; left|by left; right|].
      right. by exists j.
Qed.

(** X5.  [FlowInfo.from_bytecode] fails only on an empty instruction stream,
    with [UnboundLocalError] (the loop variable read after the loop).  On
    every other stream it returns: [last_offset] is the offset of the last
    instruction; the block offsets are exactly the offsets of the
    instructions flagged as jump targets or sitting at offset 0, the targets
    of the jumps and the offsets right after the conditional jumps; every
    target of a recorded jump is among them; and no instruction offset is
    recorded twice. *)
Theorem from_bytecode_spec (bc : list Instruction) :
  match from_bytecode bc with
  | Ok fi =>
      (∃ i, last bc = Some i ∧ last_offset fi = offset i) ∧
      flow_ok fi ∧
      (∀ x, x ∈ block_offsets fi ↔ ∃ i, i ∈ bc ∧ x ∈ starts_of i)
  | Err e => e = UnboundLocalError ∧ bc = []
  | NoFuel => False
  end.
Proof.
  unfold from_bytecode.
  destruct (from_bytecode_loop_ok bc (mkFlowInfo ∅ [] 0)) as (fi & -> & Hok & _ & HB).
  { split_and!; simpl.
    - by intros l ?%elem_of_empty.
    - by intros o ts t ?%elem_of_nil.
    - apply NoDup_nil_2. }
  simpl. destruct (last bc) as [i|] eqn:Hlast.
  - split_and!.
    + by exists i.
    + destruct Hok as (? & ? & ?). by split_and!.
    + intros x. simpl. rewrite HB. simpl. split; [|by right].
      intros [?%elem_of_empty|?]; done.
  - split; [done|]. by apply last_None.
Qed.

(** ** The flow builder: [build_basicblocks] *)

Lemma insert_sorted_perm (x : Z) (l : list Z) : insert_sorted x l ≡ₚ x :: l.
Proof.
  induction l as [|y l IH]; simpl; [done|].
  case_bool_decide; [done|]. rewrite IH. apply Permutation_swap.
Qed.

Lemma sort_Z_perm (l : list Z) : sort_Z l ≡ₚ l.
Proof.
  induction l as [|x l IH]; simpl; [done|].
  unfold sort_Z in *. simpl. by rewrite insert_sorted_perm, IH.
Qed.

Lemma insert_sorted_sorted (x : Z) (l : list Z) :
  StronglySorted Z.le l → StronglySorted Z.le (insert_sorted x l).
Proof.
  induction l as [|y l IH]; intros Hs; simpl.
  - repeat constructor.
  - apply StronglySorted_inv in Hs as [Hs Hy]. case_bool_decide as Hxy.
    + constructor; [by constructor|]. constructor; [done|].
      eapply Forall_impl; [exact Hy|]. simpl. intros z ?. lia.
    + constructor; [by apply IH|].
      rewrite insert_sorted_perm. constructor; [lia|done].
Qed.

Lemma sort_Z_sorted (l : list Z) : StronglySorted Z.le (sort_Z l).
Proof.
  induction l as [|x l IH]; simpl; [constructor|].
  unfold sort_Z in *. simpl. by apply insert_sorted_sorted.
Qed.

Lemma sorted_NoDup_strict (l : list Z) :
  StronglySorted Z.le l → NoDup l → StronglySorted Z.lt l.
Proof.
  induction l as [|x l IH]; intros Hs Hnd; [constructor|].
  apply StronglySorted_inv in Hs as [Hs Hx]. apply NoDup_cons in Hnd as [Hnx Hnd].
  constructor; [by apply IH|].
  apply Forall_forall. intros y Hy.
  rewrite Forall_forall in Hx. specialize (Hx y Hy).
  assert (x ≠ y) by (intros ->; done). lia.
Qed.

Lemma sorted_labels_BC (s : gset Label) :
  (∀ l, l ∈ s → is_BCLabel l = true) →
  ∃ zs, sorted_labels s = Ok (BCLabel <$> zs) ∧
        StronglySorted Z.lt zs ∧
        ∀ l, l ∈ BCLabel <$> zs ↔ l ∈ s.
Proof.
  intros Hs. unfold sorted_labels.
  assert (forallb is_BCLabel (elements s) = true) as ->.
  { apply forallb_forall. intros l Hl. apply Hs, elem_of_elements.
    by apply list_elem_of_In. }
  exists (sort_Z (label_int <$> elements s)). split; [done|].
  assert (NoDup (label_int <$> elements s)) as Hnd.
  { apply NoDup_fmap_2_strong; [|apply NoDup_elements].
    intros [x|x] [y|y] Hx%elem_of_elements%Hs Hy%elem_of_elements%Hs; simpl;
      try done. by intros ->. }
  split.
  - apply sorted_NoDup_strict; [apply sort_Z_sorted|]. by rewrite sort_Z_perm.
  - intros l. rewrite sort_Z_perm, <- list_fmap_compose, list_elem_of_fmap.
    split.
    + intros (l' & -> & Hl'%elem_of_elements). simpl.
      pose proof (Hs l' Hl') as Hbc. destruct l'; [done|discriminate].
    + intros Hl. exists l. split; [|by apply elem_of_elements].
      specialize (Hs l Hl). by destruct l.
Qed.

Lemma dict_set_fresh {V} (d : Dict.t Label V) k v :
  k ∉ Dict.keys d → Dict.set k v d = d ++ [(k, v)].
Proof.
  intros Hk. unfold Dict.set.
  destruct (Dict.mem k d) eqn:Hm; [|done]. by apply dict_mem_true in Hm.
Qed.

(** The blocks filed for a list of (begin, end) pairs with distinct begins. *)
Lemma build_blocks_run (fi : FlowInfo) (pairs : list (Label * Label)) :
  ∀ g0 : Graph,
  NoDup pairs.*1 →
  (∀ b, b ∈ pairs.*1 → b ∉ Dict.keys g0) →
  (∀ be, be ∈ pairs → is_BCLabel be.2 = true) →
  ∃ g1 : Graph,
    for_each (build_block fi) pairs g0 = Ok (g0 ++ g1) ∧
    Forall2 (λ (be : Label * Label) (kb : Label * Block),
               kb.1 = be.1 ∧
               ∃ bb, kb.2 = Basic bb ∧ begin bb = be.1 ∧ end_ bb = be.2 ∧
                     backedges bb = [] ∧
                     match Dict.get (BCLabel (label_int be.2 - 2)) (jump_insts fi) with
                     | Some ts => jump_targets bb = ts ∧ fallthrough bb = false
                     | None => jump_targets bb = [be.2] ∧ fallthrough bb = true
                     end)
            pairs g1.
Proof.
  induction pairs as [|[b e] pairs IH]; intros g0 Hnd Hfresh Hbc; simpl.
  - exists []. by rewrite app_nil_r.
  - simpl in Hnd. apply NoDup_cons in Hnd as [Hb Hnd].
    assert (is_BCLabel e = true) as He by (apply (Hbc (b, e)); left).
    destruct e as [eo|]; [|discriminate]. simpl.
    assert (∃ ft ts,
              (let '(targets, ft) :=
                 match Dict.get (BCLabel (eo - 2)) (jump_insts fi) with
                 | Some ts => (ts, false)
                 | None => ([BCLabel eo], true)
                 end in
               Ok (add_node g0 (Basic (mkBasicBlock b (BCLabel eo) ft targets []))))
              = Ok (add_node g0 (Basic (mkBasicBlock b (BCLabel eo) ft ts []))) ∧
              match Dict.get (BCLabel (eo - 2)) (jump_insts fi) with
              | Some ts' => ts = ts' ∧ ft = false
              | None => ts = [BCLabel eo] ∧ ft = true
              end) as (ft & ts & -> & Hts).
    { destruct (Dict.get (BCLabel (eo - 2)) (jump_insts fi)); eauto. }
    simpl. unfold add_node, block_begin. simpl.
    rewrite dict_set_fresh by (apply Hfresh; left).
    destruct (IH (g0 ++ [(b, Basic (mkBasicBlock b (BCLabel eo) ft ts []))]))
      as (g1 & -> & HF); [done| | |].
    + intros b' Hb'. unfold Dict.keys. rewrite fmap_app, not_elem_of_app. split.
      * apply Hfresh. by right.
      * simpl. rewrite list_elem_of_singleton. by intros ->.
    + intros be ?. apply Hbc. by right.
    + exists ((b, Basic (mkBasicBlock b (BCLabel eo) ft ts [])) :: g1).
      split; [by rewrite <- app_assoc|].
      constructor; [|done]. simpl. split; [done|]. eexists. split_and!; try done.
Qed.

Lemma sorted_strict_NoDup (l : list Z) : StronglySorted Z.lt l → NoDup l.
Proof.
  induction 1 as [|x l Hs IH Hx]; [apply NoDup_nil_2|].
  apply NoDup_cons. split; [|done]. intros Hin.
  rewrite Forall_forall in Hx. specialize (Hx x Hin). lia.
Qed.

Lemma label_int_BCLabel (zs : list Z) : label_int <$> (BCLabel <$> zs) = zs.
Proof. induction zs as [|z zs IH]; simpl; [done|by f_equal]. Qed.

Lemma Forall2_fst_eq {A B C} (P : A * B → A * C → Prop) (l : list (A * B))
    (k : list (A * C)) :
  (∀ x y, P x y → y.1 = x.1) → Forall2 P l k → k.*1 = l.*1.
Proof.
  intros HP. induction 1 as [|x y l k Hxy _ IH]; simpl; [done|].
  f_equal; [by apply HP|done].
Qed.

(** The layout of the map built from flow information. *)
Lemma build_basicblocks_blocks (fi : FlowInfo) :
  (∀ l, l ∈ block_offsets fi → is_BCLabel l = true) →
  ∃ g : Graph,
    build_basicblocks fi None = Ok g ∧
    wf_graph g ∧
    (∀ l, l ∈ Dict.keys g ↔ l ∈ block_offsets fi) ∧
    StronglySorted Z.lt (label_int <$> Dict.keys g) ∧
    (∀ i k b, g !! i = Some (k, b) →
       ∃ bb, b = Basic bb ∧ begin bb = k ∧ backedges bb = [] ∧
             end_ bb = default (BCLabel (last_offset fi + 2)) (Dict.keys g !! S i) ∧
             match Dict.get (BCLabel (label_int (end_ bb) - 2)) (jump_insts fi) with
             | Some ts => jump_targets bb = ts ∧ fallthrough bb = false
             | None => jump_targets bb = [end_ bb] ∧ fallthrough bb = true
             end).
Proof.
  intros HB. unfold build_basicblocks.
  destruct (sorted_labels_BC (block_offsets fi) HB) as (zs & -> & Hsorted & Hzs).
  simpl. set (offsets := BCLabel <$> zs) in *.
  set (e := BCLabel (last_offset fi + 2)).
  set (pairs := zip offsets (tail offsets ++ [e])).
  assert (NoDup offsets) as Hnd.
  { apply NoDup_fmap_2; [by intros ?? [=]|]. by apply sorted_strict_NoDup. }
  assert (pairs.*1 = offsets) as Hfst.
  { apply fst_zip. rewrite length_app, length_tl. simpl. lia. }
  destruct (build_blocks_run fi pairs []) as (g & -> & HF).
  { by rewrite Hfst. }
  { intros b _. apply not_elem_of_nil. }
  { intros [b e'] Hin. simpl. apply elem_of_zip_r in Hin.
    apply elem_of_app in Hin as [Hin|Hin%list_elem_of_singleton]; [|by subst].
    assert (e' ∈ offsets) as He'.
    { destruct offsets; [by apply elem_of_nil in Hin|]. by right. }
    apply list_elem_of_fmap in He' as (z & -> & _). done. }
  simpl. exists g. split; [done|].
  assert (Dict.keys g = offsets) as Hkeys.
  { unfold Dict.keys. rewrite <- Hfst.
    eapply Forall2_fst_eq; [|exact HF]. by intros x y [? _]. }
  assert (∀ i k b, g !! i = Some (k, b) →
            ∃ b0 e0 bb, offsets !! i = Some b0 ∧
              (tail offsets ++ [e]) !! i = Some e0 ∧ k = b0 ∧
              b = Basic bb ∧ begin bb = b0 ∧ end_ bb = e0 ∧ backedges bb = [] ∧
              match Dict.get (BCLabel (label_int e0 - 2)) (jump_insts fi) with
              | Some ts => jump_targets bb = ts ∧ fallthrough bb = false
              | None => jump_targets bb = [e0] ∧ fallthrough bb = true
              end) as Hentry.
  { intros i k b Hi.
    destruct (Forall2_lookup_r _ _ _ _ _ HF Hi) as ([b0 e0] & Hp & Hk & bb & Hbb).
    simpl in *. unfold pairs in Hp.
    apply lookup_zip_with_Some in Hp as (x & y & [= -> ->] & Hx & Hy).
    exists x, y, bb. destruct Hbb as (? & ? & ? & ? & ?). by split_and!. }
  split_and!.
  - split.
    + unfold is_dict. by rewrite Hkeys.
    + intros k b (i & Hi)%list_elem_of_lookup.
      destruct (Hentry i k b Hi) as (b0 & e0 & bb & _ & _ & -> & -> & <- & _). done.
  - intros l. by rewrite Hkeys.
  - rewrite Hkeys. unfold offsets. by rewrite label_int_BCLabel.
  - intros i k b Hi.
    destruct (Hentry i k b Hi) as (b0 & e0 & bb & Hb0 & He0 & -> & -> & Hbeg & Hend & Hbk & Hjt).
    exists bb. split_and!; [done..| |by rewrite Hend].
    rewrite Hend, Hkeys.
    apply lookup_app_Some in He0 as [He0|[Hlen He0]].
    + rewrite lookup_tail in He0. by rewrite He0.
    + rewrite length_tl in Hlen.
      apply list_lookup_singleton_Some in He0 as [_ <-].
      rewrite lookup_ge_None_2; [done|].
      apply lookup_lt_Some in Hb0. lia.
Qed.

(** X6.  On flow information whose block offsets are all bytecode labels,
    [build_basicblocks] returns a map that is a dict with every block filed
    under its [begin]; its keys are exactly the block offsets, in ascending
    order; every block is a basic block without backedges that ends where
    the next block begins (the last one right after the last instruction);
    its jump targets are those recorded for the instruction just before its
    end, and when none is recorded it falls through to its end. *)
Theorem build_basicblocks_layout (fi : FlowInfo) :
  (∀ l, l ∈ block_offsets fi → is_BCLabel l = true) →
  ∃ g : Graph,
    build_basicblocks fi None = Ok g ∧
    wf_graph g ∧
    (∀ l, l ∈ Dict.keys g ↔ l ∈ block_offsets fi) ∧
    StronglySorted Z.lt (label_int <$> Dict.keys g) ∧
    (∀ i k b, g !! i = Some (k, b) →
       ∃ bb, b = Basic bb ∧ begin bb = k ∧ backedges bb = [] ∧
             end_ bb = default (BCLabel (last_offset fi + 2)) (Dict.keys g !! S i) ∧
             match Dict.get (BCLabel (label_int (end_ bb) - 2)) (jump_insts fi) with
             | Some ts => jump_targets bb = ts ∧ fallthrough bb = false
             | None => jump_targets bb = [end_ bb] ∧ fallthrough bb = true
             end).
Proof. exact (build_basicblocks_blocks fi). Qed.

Lemma build_basicblocks_layout_witness :
  let fi := mkFlowInfo {[BCLabel 0; BCLabel 4]}
                       [(BCLabel 2, [BCLabel 4; BCLabel 4])] 4 in
  ∃ g : Graph,
    build_basicblocks fi None = Ok g ∧
    wf_graph g ∧
    (∀ l, l ∈ Dict.keys g ↔ l ∈ block_offsets fi) ∧
    StronglySorted Z.lt (label_int <$> Dict.keys g) ∧
    (∀ i k b, g !! i = Some (k, b) →
       ∃ bb, b = Basic bb ∧ begin bb = k ∧ backedges bb = [] ∧
             end_ bb = default (BCLabel (last_offset fi + 2)) (Dict.keys g !! S i) ∧
             match Dict.get (BCLabel (label_int (end_ bb) - 2)) (jump_insts fi) with
             | Some ts => jump_targets bb = ts ∧ fallthrough bb = false
             | None => jump_targets bb = [end_ bb] ∧ fallthrough bb = true
             end).
Proof.
  apply (build_basicblocks_layout
           (mkFlowInfo {[BCLabel 0; BCLabel 4]}
                       [(BCLabel 2, [BCLabel 4; BCLabel 4])] 4)).
  simpl. intros l [Hl|Hl]%elem_of_union; apply elem_of_singleton in Hl as ->;
    reflexivity.
Defined.

(** ** From an instruction stream to a flow *)

(** X7.  [ByteFlow.from_bytecode] fails only on an empty instruction stream
    (with [UnboundLocalError], leaving the state as it was).  On any other
    stream it returns a flow over the stream whose block map is a new
    object; the label generator is not touched; the map is a dict keyed by
    [begin] that holds only basic blocks without backedges, and every jump
    target of a block that does not fall through is a key of the map. *)
Theorem ByteFlow_from_bytecode_spec (code : list Instruction) (s : State) :
  match ByteFlow_from_bytecode code s with
  | Done f s' =>
      code ≠ [] ∧ bc f = code ∧ bbmap f = length (store s) ∧
      clg_index s' = clg_index s ∧
      ∃ g : Graph,
        store s' = store s ++ [g] ∧ graph_of code = Ok g ∧ wf_graph g ∧
        ∀ k b, (k, b) ∈ g →
          ∃ bb, b = Basic bb ∧ backedges bb = [] ∧
                (fallthrough bb = false →
                 ∀ t, t ∈ jump_targets bb → t ∈ Dict.keys g)
  | Raised e s' => e = UnboundLocalError ∧ code = [] ∧ s' = s
  | Diverged => False
  end.
Proof.
  unfold ByteFlow_from_bytecode, graph_of, from_bytecode.
  destruct (from_bytecode_loop_ok code (mkFlowInfo ∅ [] 0)) as (fi0 & Hrun & Hok & _ & _).
  { split_and!; simpl.
    - by intros l ?%elem_of_empty.
    - by intros o ts t ?%elem_of_nil.
    - apply NoDup_nil_2. }
  rewrite Hrun. simpl.
  destruct (last code) as [i|] eqn:Hlast; simpl.
  2:{ apply last_None in Hlast. by subst. }
  destruct Hok as (HB & HJ & HD).
  set (fi := mkFlowInfo (block_offsets fi0) (jump_insts fi0) (offset i)).
  destruct (build_basicblocks_blocks fi HB) as (g & Hg & Hwf & Hkeys & _ & Hentry).
  unfold mbind, M_bind, lift. simpl. rewrite Hg. simpl.
  split_and!; [by intros ->|done..|].
  exists g. split_and!; [done..|].
  intros k b (n & Hn)%list_elem_of_lookup.
  destruct (Hentry n k b Hn) as (bb & -> & _ & Hbk & _ & Hjt).
  exists bb. split_and!; [done..|]. intros Hft t Ht.
  destruct (Dict.get _ (jump_insts fi)) as [ts|] eqn:Hget.
  - destruct Hjt as [Hts _]. rewrite Hts in Ht.
    apply Hkeys. simpl. eapply HJ; [|exact Ht].
    apply dict_get_elem_of. exact Hget.
  - destruct Hjt as [_ Hft']. congruence.
Qed.

(** ** Post-dominators of a block map *)

Lemma postdom_entries_elem_of (g : Graph) e :
  e ∈ postdom_entries g ↔
  ∃ b, (e, b) ∈ g ∧ list_to_set (block_jump_targets b) ∩ graph_keys g = (∅ : gset Label).
Proof.
  unfold postdom_entries. rewrite elem_of_list_to_set, list_elem_of_fmap. split.
  - intros ([k b] & -> & [Hb Hin]%list_elem_of_filter). by exists b.
  - intros (b & Hin & Hb). exists (e, b). split; [done|].
    by apply list_elem_of_filter.
Qed.

Lemma postdom_entries_no_succ (g : Graph) e :
  is_dict g → e ∈ Dict.keys g →
  (e ∈ postdom_entries g ↔ ∀ m, ¬ map_edge g e m).
Proof.
  intros Hd He. rewrite postdom_entries_elem_of. split.
  - intros (b & Hin & Hempty) m (node & Hin' & Hm & Hmk).
    rewrite (dict_NoDup_elem_of_eq _ _ _ _ Hd Hin' Hin) in Hm.
    assert (m ∈ list_to_set (block_jump_targets b) ∩ graph_keys g) as Hmem.
    { apply elem_of_intersection. split; [by apply elem_of_list_to_set|].
      unfold graph_keys. by apply elem_of_list_to_set. }
    rewrite Hempty in Hmem. by apply elem_of_empty in Hmem.
  - intros Hno. apply list_elem_of_fmap in He as ([k b] & -> & Hin). simpl in *.
    exists b. split; [done|]. apply leibniz_equiv, elem_of_equiv_empty.
    intros m [Hm Hmk]%elem_of_intersection. apply (Hno m). exists b.
    apply elem_of_list_to_set in Hm. unfold graph_keys in Hmk.
    apply elem_of_list_to_set in Hmk. done.
Qed.

(** X8.  On a block map that is a dict and has at least one exit node (a key
    none of whose jump targets is a key), [_post_doms] returns, for every
    fuel from some bound on, a table in which every node belongs to its own
    set, every exit node has the set that holds only itself, and the set of
    every node [n] with a successor in the map is [n] together with what is
    common to the sets of all the successors of [n]. *)
Theorem post_doms_fixpoint (g : Graph) :
  is_dict g →
  (∃ e, e ∈ Dict.keys g ∧ ∀ m, ¬ map_edge g e m) →
  ∃ fuel0, ∀ fuel, (fuel0 ≤ fuel)%nat →
  ∃ doms,
    _post_doms fuel g = Ok doms ∧
    (∀ n, n ∈ Dict.keys g → ∃ D, Dict.get n doms = Some D ∧ n ∈ D) ∧
    (∀ e, e ∈ Dict.keys g → (∀ m, ¬ map_edge g e m) →
       Dict.get e doms = Some {[e]}) ∧
    (∀ n, n ∈ Dict.keys g → (∃ m, map_edge g n m) →
       ∃ D, Dict.get n doms = Some D ∧
            ∀ x, x ∈ D ↔
                 x = n ∨ ∀ m, map_edge g n m →
                              ∃ Dm, Dict.get m doms = Some Dm ∧ x ∈ Dm).
Proof.
  intros Hd (e0 & He0 & Hno0).
  destruct (edge_scan_spec g) as [Hinto Hout].
  unfold _post_doms. destruct (edge_scan g) as [succs_table preds_table]. simpl in *.
  set (entries := postdom_entries g).
  set (nodes := Dict.keys g).
  assert (∀ n p, p ∈ tbl_get preds_table n → p ∈ nodes) as Hpn.
  { by intros n p (node & _ & _ & ?)%Hout. }
  assert (∀ n m, m ∈ tbl_get succs_table n → m ∈ nodes) as Hsn.
  { intros n m (node & Hin & _ & _)%Hinto. apply list_elem_of_fmap.
    by exists (m, node). }
  assert (∀ n m, n ∈ tbl_get preds_table m → m ∈ tbl_get succs_table n) as Hps.
  { intros n m ?%Hout. by apply Hinto. }
  pose proof (init_doms_inv nodes entries preds_table Hpn) as Hinit.
  unfold _find_dominators_internal.
  rewrite bool_decide_eq_false_2.
  2:{ intros Hempty. assert (e0 ∈ entries) as He; [|set_solver].
      by apply postdom_entries_no_succ. }
  destruct (init_doms entries nodes) as [doms0 todo0]. simpl in Hinit.
  exists (S ((length nodes + 1) * doms_weight doms0 + length todo0)).
  intros fuel Hfuel.
  destruct (dom_loop_terminates nodes entries preds_table succs_table
              Hpn Hsn Hps fuel doms0 todo0 Hinit) as (doms & Hrun & HI);
    [lia|].
  exists doms. split; [done|]. destruct HI as [H1 H2 H3 H4 H5 H6]. split_and!.
  - intros n Hn. destruct (H1 n Hn) as [D HD]. exists D. split; [done|].
    by eapply H2.
  - intros e He Hno. apply H3; [done|]. by apply postdom_entries_no_succ.
  - intros n Hn (m0 & Hm0). destruct (H1 n Hn) as [D HD]. exists D. split; [done|].
    assert (n ∉ entries) as Hne.
    { intros Hent.
      exact (proj1 (postdom_entries_no_succ g n Hd Hn) Hent m0 Hm0). }
    assert (new_doms_spec preds_table doms n D) as Hspec.
    { apply new_doms_of_spec; [apply H5; try done; apply not_elem_of_nil|].
      intros p Hp. by eapply H1, Hpn. }
    intros x. rewrite (Hspec x). split.
    + intros [->|[_ Hall]]; [by left|]. right.
      intros m Hm. by apply Hall, Hout.
    + intros [->|Hall]; [by left|]. right. split.
      * intros Hempty. apply Hout in Hm0. rewrite Hempty in Hm0.
        by apply elem_of_empty in Hm0.
      * intros m Hm%Hout. by apply Hall.
Qed.

Lemma post_doms_fixpoint_witness :
  ∃ fuel0, ∀ fuel, (fuel0 ≤ fuel)%nat →
  ∃ doms,
    _post_doms fuel scenarioA_graph = Ok doms ∧
    (∀ n, n ∈ Dict.keys scenarioA_graph → ∃ D, Dict.get n doms = Some D ∧ n ∈ D) ∧
    (∀ e, e ∈ Dict.keys scenarioA_graph → (∀ m, ¬ map_edge scenarioA_graph e m) →
       Dict.get e doms = Some {[e]}) ∧
    (∀ n, n ∈ Dict.keys scenarioA_graph → (∃ m, map_edge scenarioA_graph n m) →
       ∃ D, Dict.get n doms = Some D ∧
            ∀ x, x ∈ D ↔
                 x = n ∨ ∀ m, map_edge scenarioA_graph n m →
                              ∃ Dm, Dict.get m doms = Some Dm ∧ x ∈ Dm).
Proof.
  apply (post_doms_fixpoint scenarioA_graph).
  - refine (bool_decide_unpack _ _). vm_compute. exact I.
  - exists (BCLabel 18). split.
    + refine (bool_decide_unpack _ _). vm_compute. exact I.
    + apply postdom_entries_no_succ.
      * refine (bool_decide_unpack _ _). vm_compute. exact I.
      * refine (bool_decide_unpack _ _). vm_compute. exact I.
      * refine (bool_decide_unpack _ _). vm_compute. exact I.
Defined.

(** ** Maps without a seed for the dominator engine *)

(** X9.  The dominator engine needs a seed.  On a map where every node has a
    predecessor in the map (the empty map, a cycle) [_doms] raises
    [RuntimeError], and on a map where every node has a jump target in the
    map [_post_doms] does; this is decided before the worklist loop, so no
    fuel is used. *)
Theorem dominators_need_a_seed (g : Graph) (fuel : nat) :
  ((∀ e, e ∈ Dict.keys g → ∃ p, is_pred g e p) →
   _doms fuel g = Err RuntimeError) ∧
  ((∀ k b, (k, b) ∈ g → ∃ m, m ∈ block_jump_targets b ∧ m ∈ Dict.keys g) →
   _post_doms fuel g = Err RuntimeError).
Proof.
  destruct (edge_scan_spec g) as [Hinto Hout]. split.
  - intros Hall. unfold _doms.
    destruct (edge_scan g) as [preds_table succs_table]. simpl in *.
    unfold _find_dominators_internal. rewrite bool_decide_eq_true_2; [done|].
    apply leibniz_equiv, elem_of_equiv_empty. intros e [He Hempty]%dom_entries_elem_of.
    destruct (Hall e He) as [p Hp].
    apply map_edge_is_pred in Hp; [|done]. apply Hinto in Hp.
    rewrite Hempty in Hp. by apply elem_of_empty in Hp.
  - intros Hall. unfold _post_doms.
    destruct (edge_scan g) as [succs_table preds_table]. simpl in *.
    unfold _find_dominators_internal. rewrite bool_decide_eq_true_2; [done|].
    apply leibniz_equiv, elem_of_equiv_empty.
    intros e (b & Hin & Hempty)%postdom_entries_elem_of.
    destruct (Hall e b Hin) as (m & Hm & Hmk).
    assert (m ∈ list_to_set (block_jump_targets b) ∩ graph_keys g) as Hmem.
    { apply elem_of_intersection. split; [by apply elem_of_list_to_set|].
      unfold graph_keys. by apply elem_of_list_to_set. }
    rewrite Hempty in Hmem. by apply elem_of_empty in Hmem.
Qed.

Lemma dominators_need_a_seed_witness :
  _doms 0 cycle_graph = Err RuntimeError ∧
  _post_doms 0 cycle_graph = Err RuntimeError.
Proof.
  split.
  - apply (proj1 (dominators_need_a_seed cycle_graph 0)).
    intros e He. unfold is_pred.
    apply elem_of_cons in He as [->|He]; [|apply elem_of_cons in He as [->|He]].
    + exists (BCLabel 2). eexists. split; [right; left|]. left.
    + exists (BCLabel 0). eexists. split; [left|]. left.
    + by apply elem_of_nil in He.
  - apply (proj2 (dominators_need_a_seed cycle_graph 0)).
    intros k b Hin.
    apply elem_of_cons in Hin as [[= -> ->]|Hin];
      [|apply elem_of_cons in Hin as [[= -> ->]|Hin]].
    + exists (BCLabel 2). split; [left|]. right. left.
    + exists (BCLabel 0). split; [left|]. left.
    + by apply elem_of_nil in Hin.
Defined.

(** ** The depth-first search of [is_reachable_dfs] *)

Lemma dfs_weight_cons (g : Graph) (seen : gset Label) (k : Label) (b : Block) :
  dfs_weight ((k, b) :: g) seen =
  ((if bool_decide (k ∈ seen) then 0 else length (block_jump_targets b))
   + dfs_weight g seen)%nat.
Proof. reflexivity. Qed.

Lemma dfs_weight_mono (g : Graph) (seen : gset Label) (x : Label) :
  (dfs_weight g (seen ∪ {[x]}) ≤ dfs_weight g seen)%nat.
Proof.
  induction g as [|[k b] g IH]; [done|]. rewrite !dfs_weight_cons.
  repeat case_bool_decide; try lia; exfalso; set_solver.
Qed.

Lemma dfs_weight_visit (g : Graph) (seen : gset Label) (k : Label) (b : Block) :
  Dict.get k g = Some b → k ∉ seen →
  (dfs_weight g (seen ∪ {[k]}) + length (block_jump_targets b)
   ≤ dfs_weight g seen)%nat.
Proof.
  intros Hget Hk.
  induction g as [|[k' b'] g IH]; [done|]. rewrite !dfs_weight_cons.
  simpl in Hget. case_decide as Hkk.
  - subst k'. injection Hget as ->.
    rewrite bool_decide_eq_true_2 by set_solver.
    rewrite (bool_decide_eq_false_2 (k ∈ seen)) by done.
    pose proof (dfs_weight_mono g seen k) as Hm. lia.
  - specialize (IH Hget).
    repeat case_bool_decide; try lia; exfalso; set_solver.
Qed.

Lemma dfs_closed_reach (g : Graph) (seen : gset Label) :
  (∀ s v, s ∈ seen → jumps_to g s v → v ∈ seen) →
  ∀ x y, rtc (jumps_to g) x y → x ∈ seen → y ∈ seen.
Proof.
  intros Hclosed x y Hxy. induction Hxy as [|x w y Hxw _ IH]; [done|].
  intros Hx. apply IH. by eapply Hclosed.
Qed.

Lemma is_reachable_loop_ok (g : Graph) (begin end_ : Label) (fuel : nat) :
  ∀ seen to_vist,
  dfs_inv g begin end_ seen to_vist →
  (length to_vist + dfs_weight g seen < fuel)%nat →
  ∃ r, is_reachable_loop fuel g end_ seen to_vist = Ok r ∧
       (r = true ↔ tc (jumps_to g) begin end_).
Proof.
  induction fuel as [|fuel IH]; intros seen to_vist (Hreach & Hend & Hfirst & Hclosed) Hfuel;
    [lia|]. simpl.
  destruct (list_pop to_vist) as [[block rest]|] eqn:Hpop.
  2:{ apply list_pop_None in Hpop as ->. exists false. split; [done|].
      split; [done|]. intros Ht. exfalso. apply Hend.
      assert (∀ s v, s ∈ seen → jumps_to g s v → v ∈ seen) as Hcl.
      { intros s v Hs Hsv. destruct (Hclosed s v Hs Hsv) as [?|?%elem_of_nil]; done. }
      inversion Ht as [? ? Hone|? v ? Hbv Hve]; subst.
      - destruct (Hfirst end_ Hone) as [?|?%elem_of_nil]; done.
      - apply (dfs_closed_reach g seen Hcl v end_); [by apply tc_rtc|].
        destruct (Hfirst v Hbv) as [?|?%elem_of_nil]; done. }
  apply list_pop_Some in Hpop as ->. rewrite length_app in Hfuel. simpl in Hfuel.
  assert (tc (jumps_to g) begin block) as Hblock.
  { apply Hreach, elem_of_app. right. left. }
  case_bool_decide as Hseen.
  { apply IH; [|lia]. split_and!; [|done| |].
    - intros x Hx. apply Hreach, elem_of_app. by left.
    - intros v Hv. destruct (Hfirst v Hv) as [?|[?| ->%list_elem_of_singleton]%elem_of_app];
        auto.
    - intros s v Hs Hsv.
      destruct (Hclosed s v Hs Hsv) as [?|[?| ->%list_elem_of_singleton]%elem_of_app];
        auto. }
  case_bool_decide as Hisend.
  { subst block. exists true. done. }
  destruct (Dict.get block g) as [b|] eqn:Hget.
  - apply IH.
    + split_and!.
      * intros x [Hx|Hx]%elem_of_app; [apply Hreach, elem_of_app; by left|].
        eapply tc_r; [exact Hblock|]. by exists b.
      * intros [?|?%elem_of_singleton]%elem_of_union; done.
      * intros v Hv.
        destruct (Hfirst v Hv) as [?|[?| ->%list_elem_of_singleton]%elem_of_app].
        -- left. set_solver.
        -- right. apply elem_of_app. by left.
        -- left. set_solver.
      * intros s v [Hs|Hs%elem_of_singleton]%elem_of_union Hsv.
        -- destruct (Hclosed s v Hs Hsv)
             as [?|[?| ->%list_elem_of_singleton]%elem_of_app].
           ++ left. set_solver.
           ++ right. apply elem_of_app. by left.
           ++ left. set_solver.
        -- subst s. destruct Hsv as (b' & Hb' & Hv). rewrite Hget in Hb'.
           injection Hb' as <-. right. apply elem_of_app. by right.
    + rewrite length_app.
      pose proof (dfs_weight_visit g seen block b Hget Hseen). lia.
  - apply IH.
    + split_and!.
      * intros x Hx. apply Hreach, elem_of_app. by left.
      * intros [?|?%elem_of_singleton]%elem_of_union; done.
      * intros v Hv.
        destruct (Hfirst v Hv) as [?|[?| ->%list_elem_of_singleton]%elem_of_app].
        -- left. set_solver.
        -- by right.
        -- left. set_solver.
      * intros s v [Hs|Hs%elem_of_singleton]%elem_of_union Hsv.
        -- destruct (Hclosed s v Hs Hsv)
             as [?|[?| ->%list_elem_of_singleton]%elem_of_app].
           ++ left. set_solver.
           ++ by right.
           ++ left. set_solver.
        -- subst s. destruct Hsv as (b' & Hb' & _). congruence.
    + pose proof (dfs_weight_mono g seen block). lia.
Qed.

(** X10.  [is_reachable_dfs(bbmap, begin, end)] with [begin] a key of the
    map terminates and answers [True] exactly when [end] can be reached from
    [begin] by following one or more jump targets through nodes of the map
    ([end] itself need not be a key); with [begin] not a key it fails with
    [KeyError]. *)
Theorem is_reachable_dfs_spec (g : Graph) (begin end_ : Label) :
  (begin ∉ Dict.keys g → ∀ fuel, is_reachable_dfs fuel g begin end_ = Err KeyError) ∧
  (begin ∈ Dict.keys g →
   ∃ fuel0, ∀ fuel, (fuel0 ≤ fuel)%nat →
   ∃ r, is_reachable_dfs fuel g begin end_ = Ok r ∧
        (r = true ↔ tc (jumps_to g) begin end_)).
Proof.
  unfold is_reachable_dfs. split.
  - intros Hk fuel. apply dict_get_None in Hk. by rewrite Hk.
  - intros Hk. apply dict_get_is_Some in Hk as [b Hb]. rewrite Hb. simpl.
    exists (S (length (block_jump_targets b) + dfs_weight g ∅)). intros fuel Hfuel.
    apply is_reachable_loop_ok; [|lia]. split_and!.
    + intros x Hx. apply tc_once. by exists b.
    + apply not_elem_of_empty.
    + intros v (b' & Hb' & Hv). rewrite Hb in Hb'. injection Hb' as <-. by right.
    + by intros s v ?%elem_of_empty.
Qed.

Lemma is_reachable_dfs_spec_witness :
  ∃ fuel0, ∀ fuel, (fuel0 ≤ fuel)%nat →
  ∃ r, is_reachable_dfs fuel scenarioA_graph (BCLabel 4) (BCLabel 18) = Ok r ∧
       (r = true ↔ tc (jumps_to scenarioA_graph) (BCLabel 4) (BCLabel 18)).
Proof.
  apply (proj2 (is_reachable_dfs_spec scenarioA_graph (BCLabel 4) (BCLabel 18))).
  refine (bool_decide_unpack _ _). vm_compute. exact I.
Defined.

(** ** Computations that use no fuel *)

Lemma no_diverge_ret {A} (x : A) : no_diverge (mret x : M A).
Proof. by intros s. Qed.

Lemma no_diverge_bind {A B} (m : M A) (f : A → M B) :
  no_diverge m → (∀ x, no_diverge (f x)) → no_diverge (m ≫= f).
Proof.
  intros Hm Hf s. unfold mbind, M_bind. specialize (Hm s).
  destruct (m s) as [x s'| |]; [apply Hf|done..].
Qed.

Lemma no_diverge_lift {A} (r : Res A) : r ≠ NoFuel → no_diverge (lift r).
Proof. intros Hr s. unfold lift. by destruct r. Qed.

Lemma no_diverge_for_eachM {A S} (body : S → A → M S) (xs : list A) :
  (∀ acc x, no_diverge (body acc x)) → ∀ acc, no_diverge (for_eachM body xs acc).
Proof.
  intros Hbody. induction xs as [|x xs IH]; intros acc; simpl.
  - apply no_diverge_ret.
  - by apply no_diverge_bind.
Qed.

Lemma for_each_fuel_free {A S} (body : S → A → Res S) (xs : list A) :
  (∀ acc x, body acc x ≠ NoFuel) → ∀ acc, for_each body xs acc ≠ NoFuel.
Proof.
  intros Hbody. induction xs as [|x xs IH]; intros acc; simpl; [done|].
  specialize (Hbody acc x). destruct (body acc x); simpl; [apply IH|done..].
Qed.

Lemma from_option_fuel_free {A} (e : Exc) (o : option A) : from_option e o ≠ NoFuel.
Proof. by destruct o. Qed.

Lemma find_exits_fuel_free (loop : gset Label) (g : Graph) :
  find_exits loop g ≠ NoFuel.
Proof.
  apply for_each_fuel_free. intros [pre post] inside. unfold find_exits_step.
  destruct (Dict.get inside g); simpl; [|done].
  by destruct (foldl _ _ _).
Qed.

Lemma no_diverge_new_index : no_diverge new_index.
Proof. by intros s. Qed.

Lemma no_diverge_add_node a b : no_diverge (bbmap_add_node a b).
Proof. by intros s. Qed.

Lemma no_diverge_setitem a k b : no_diverge (bbmap_setitem a k b).
Proof. by intros s. Qed.

Lemma no_diverge_getitem a k : no_diverge (bbmap_getitem a k).
Proof.
  intros s. unfold bbmap_getitem, mbind, M_bind, get_graph, lift.
  by destruct (Dict.get k _).
Qed.

Lemma no_diverge_pop a k : no_diverge (bbmap_pop a k).
Proof.
  intros s. unfold bbmap_pop, mbind, M_bind, get_graph.
  by destruct (Dict.pop k _) as [[b g']|].
Qed.

Lemma no_diverge_new_BlockMap g : no_diverge (new_BlockMap g).
Proof. by intros s. Qed.

Lemma no_diverge_join_exits loop a exits : no_diverge (join_exits loop a exits).
Proof.
  unfold join_exits.
  repeat (apply no_diverge_bind; [apply no_diverge_new_index|intros ?]).
  repeat (apply no_diverge_bind; [apply no_diverge_add_node|intros ?]).
  apply no_diverge_bind; [|intros ?; apply no_diverge_ret].
  apply no_diverge_for_eachM. intros ? exit_node.
  apply no_diverge_for_eachM. intros ? loop_node. unfold join_exits_rewire.
  case_bool_decide; [apply no_diverge_ret|].
  apply no_diverge_bind; [apply no_diverge_getitem|intros b].
  case_bool_decide; [|apply no_diverge_ret].
  apply no_diverge_bind; [apply no_diverge_pop|intros b'].
  apply no_diverge_add_node.
Qed.

Lemma no_diverge_pop_insiders a ks : no_diverge (pop_insiders a ks).
Proof.
  unfold pop_insiders. apply no_diverge_for_eachM. intros insiders k.
  apply no_diverge_bind; [apply no_diverge_pop|intros [bb|r]].
  - apply no_diverge_ret.
  - by intros s.
Qed.

Lemma raises_bind {A B} (m : M A) (f : A → M B) (s : State) :
  m s ≠ Diverged → (∀ x s', raises (f x) s') → raises (m ≫= f) s.
Proof.
  intros Hm Hf. unfold raises, mbind, M_bind.
  destruct (m s) as [x s'|e s'|]; [apply Hf|by exists e, s'|done].
Qed.

(** ** The single-header assertion guards every loop extraction *)

Lemma restructure_loop_body_raises rec a labels loop s :
  size (find_headers_and_entries (graph_at s a) loop).1 ≠ 1%nat →
  raises (restructure_loop_body rec a labels loop) s.
Proof.
  intros Hsize. unfold restructure_loop_body.
  unfold raises, mbind at 1, M_bind at 1, get_graph at 1.
  fold (graph_at s a).
  destruct (find_headers_and_entries (graph_at s a) loop) as [headers entries].
  simpl in Hsize.
  apply raises_bind; [apply no_diverge_lift, find_exits_fuel_free|].
  intros [pre_exits post_exits] s1.
  apply raises_bind.
  { repeat case_bool_decide.
    - apply no_diverge_bind; [apply no_diverge_join_exits|].
      intros [[? ?] ?]. apply no_diverge_ret.
    - apply no_diverge_ret.
    - apply no_diverge_bind; [apply no_diverge_lift, from_option_fuel_free|intros ?].
      apply no_diverge_bind; [apply no_diverge_lift, from_option_fuel_free|intros ?].
      apply no_diverge_ret. }
  intros [loop' labels'] s2.
  apply raises_bind; [apply no_diverge_lift, from_option_fuel_free|].
  intros [pre_exit_label post_exit_label] s3.
  apply raises_bind; [apply no_diverge_pop_insiders|].
  intros insiders s4.
  unfold raises, mbind at 1, M_bind at 1, lift, assert.
  rewrite bool_decide_eq_false_2 by done. eauto.
Qed.



(** X12.  When the first strongly connected component with more than one
    node that [compute_scc] lists does not have exactly one header,
    [restructure_loop] ends in an exception, for every positive fuel. *)
Theorem restructure_loop_first_loop_guard (fuel : nat) (a : BlockMap) (s : State)
    (L : gset Label) (rest : list (gset Label)) :
  filter (λ nodes, 1 < size nodes)%nat (compute_scc (graph_at s a)) = L :: rest →
  size (find_headers_and_entries (graph_at s a) L).1 ≠ 1%nat →
  raises (restructure_loop (S fuel) a) s.
Proof.
  intros Hloops Hsize. simpl.
  unfold raises, mbind at 1, M_bind at 1, get_graph at 1.
  fold (graph_at s a). rewrite Hloops. simpl.
  unfold mbind at 1, M_bind at 1. unfold mbind at 1, M_bind at 1.
  destruct (restructure_loop_body_raises (restructure_loop fuel) a None L s Hsize)
    as (e & s' & ->). eauto.
Qed.

Lemma restructure_loop_first_loop_guard_witness :
  raises (restructure_loop 1 0%nat) (mkState 0 [scenarioB_graph]).
Proof.
  apply (restructure_loop_first_loop_guard 0 0%nat (mkState 0 [scenarioB_graph])
           scenarioB_loop []).
  - vm_compute. reflexivity.
  - refine (bool_decide_eq_false_1 _ _). vm_compute. reflexivity.
Defined.

(** ** Branch restructuring of a map without branches *)




(** ** Loop extraction keeps the pass invariant *)

Lemma dict_set_length {V} (d : Dict.t Label V) k v :
  (length (Dict.set k v d) ≤ S (length d))%nat.
Proof.
  unfold Dict.set. destruct (Dict.mem k d).
  - assert (length (Dict.replace k v d) = length d) as ->; [|lia].
    induction d as [|[k' v'] d IH]; simpl; [done|].
    case_decide; simpl; [done|by rewrite IH].
  - rewrite length_app. simpl. lia.
Qed.

Lemma replace_backedge_begin (b b' : Block) (h : Label) :
  replace_backedge b h = Ok b' → block_begin b' = block_begin b.
Proof.
  unfold replace_backedge, assert.
  case_bool_decide; [|intros Heq; by injection Heq as <-].
  destruct (bool_decide (length (block_jump_targets b) = 1%nat)),
           (bool_decide (block_backedges b = [])); simpl; try done.
  intros Heq. injection Heq as <-. by destruct b.
Qed.

Lemma build_loop_body_from (headers : gset Label) (loop_head : Label)
    (insiders : list BasicBlock) :
  ∀ body0 body : Graph,
  wf_graph body0 →
  for_each (λ body node,
              if bool_decide (begin node ∈ headers) then Ok body
              else
                b ← replace_backedge (Basic node) loop_head;
                Ok (Dict.set (begin node) b body))
           insiders body0 = Ok body →
  wf_graph body ∧
  (length body ≤
   length body0 + length (filter (λ node, begin node ∉ headers) insiders))%nat.
Proof.
  induction insiders as [|node insiders IH]; intros body0 body Hwf; simpl.
  - intros [= <-]. split; [done|lia].
  - case_bool_decide as Hh; simpl.
    + intros Hrun. destruct (IH _ _ Hwf Hrun) as [? ?]. split; [done|].
      rewrite filter_cons_False by (intros ?; done). lia.
    + destruct (replace_backedge (Basic node) loop_head) as [b| |] eqn:Hb;
        simpl; [|done..].
      intros Hrun. apply replace_backedge_begin in Hb. simpl in Hb.
      destruct (IH (Dict.set (begin node) b body0) body) as [? Hlen]; [|done|].
      * unfold block_begin in Hb. simpl in Hb. rewrite <- Hb.
        by apply wf_graph_set.
      * split; [done|]. rewrite filter_cons_True by done. simpl.
        pose proof (dict_set_length body0 (begin node) b). lia.
Qed.

Lemma build_loop_body_ok (headers : gset Label) (loop_head : Label)
    (insiders : list BasicBlock) (body : Graph) (h : BasicBlock) :
  build_loop_body headers loop_head insiders = Ok body →
  h ∈ insiders → begin h ∈ headers →
  wf_graph body ∧ (S (length body) ≤ length insiders)%nat.
Proof.
  intros Hrun Hh Hhh. unfold build_loop_body in Hrun.
  apply build_loop_body_from in Hrun as [Hwf Hlen].
  2:{ split; [apply NoDup_nil_2|]. by intros k b ?%elem_of_nil. }
  split; [done|]. simpl in Hlen.
  pose proof (length_filter_lt (λ node, begin node ∉ headers) insiders h Hh) as Hlt.
  simpl in Hlt. specialize (Hlt (λ H, H Hhh)). lia.
Qed.

Section loop_pass.
Variables (a : BlockMap) (s0 : State).

#[local] Abbreviation K := (pass_inv a [] s0).

Lemma K_new_index : triple K new_index (λ _, K).
Proof.
  eapply triple_conseq; [apply triple_new_index|done|]. by intros i s [? _].
Qed.

Lemma K_add_node b : triple K (bbmap_add_node a b) (λ _, K).
Proof. apply triple_add_node, not_elem_of_nil. Qed.

Lemma K_setitem k b : block_begin b = k → triple K (bbmap_setitem a k b) (λ _, K).
Proof. intros Hb. by apply triple_setitem; [|apply not_elem_of_nil]. Qed.

Lemma K_pop k : triple K (bbmap_pop a k) (λ b s, K s ∧ block_begin b = k).
Proof. apply triple_pop, not_elem_of_nil. Qed.

Lemma K_getitem k : triple K (bbmap_getitem a k) (λ _, K).
Proof.
  eapply triple_conseq; [apply triple_getitem|done|]. by intros b s [? _].
Qed.

Lemma K_join_exits (loop exits : gset Label) :
  triple K (join_exits loop a exits)
         (λ r s, K s ∧ ∃ pre, r.1.1 = loop ∪ {[pre]}).
Proof.
  unfold join_exits.
  eapply triple_bind; [apply K_new_index|intros i].
  eapply triple_bind; [apply K_new_index|intros j].
  eapply triple_bind; [apply K_new_index|intros e1].
  eapply triple_bind; [apply K_new_index|intros e2].
  eapply triple_bind; [apply K_add_node|intros ?].
  eapply triple_bind; [apply K_add_node|intros ?].
  eapply triple_bind.
  2:{ intros ?. apply triple_ret. intros s Hs. split; [exact Hs|]. by eexists. }
  apply (triple_for_eachM _ _ (λ _ _, K)). intros done exit_node acc _.
  apply (triple_for_eachM _ _ (λ _ _, K)). intros done' loop_node acc' _.
  unfold join_exits_rewire.
  case_bool_decide; [by apply triple_ret|].
  eapply triple_bind; [apply K_getitem|intros b].
  case_bool_decide; [|by apply triple_ret].
  eapply triple_bind; [apply K_pop|intros b'].
  eapply triple_conseq; [apply K_add_node|by intros s [? _]|done].
Qed.

Lemma K_pop_insiders (ks : list Label) :
  triple K (pop_insiders a ks)
         (λ ins s, K s ∧ (length ins ≤ length ks)%nat ∧
                   ∀ k, k ∈ ks → ∃ bb, bb ∈ ins ∧ begin bb = k).
Proof.
  unfold pop_insiders.
  eapply triple_conseq;
    [apply (triple_for_eachM _ _
              (λ done ins s, K s ∧ (length ins ≤ length done)%nat ∧
                             ∀ k, k ∈ done → ∃ bb, bb ∈ ins ∧ begin bb = k))| |].
  - intros done k ins _ s (HK & Hlen & Hall).
    unfold mbind, M_bind. pose proof (K_pop k s HK) as Hpop.
    destruct (bbmap_pop a k s) as [b s1| |]; [|done..].
    destruct Hpop as [HK1 Hbeg]. destruct b as [bb|r]; [|done].
    unfold mret, M_ret. split_and!; [done| |].
    + rewrite length_app. simpl.
      case_bool_decide; [lia|rewrite length_app; simpl; lia].
    + intros k' [Hk'|Hk']%elem_of_app.
      * destruct (Hall k' Hk') as (bb' & ? & ?). exists bb'. split; [|done].
        case_bool_decide; [done|apply elem_of_app; by left].
      * apply list_elem_of_singleton in Hk' as ->. exists bb. split; [|done].
        case_bool_decide; [done|apply elem_of_app; right; by left].
  - intros s HK. split_and!; [done|simpl; lia|by intros k ?%elem_of_nil].
  - done.
Qed.

End loop_pass.

Lemma triple_pure_r {A} (P : State → Prop) (φ : Prop) (m : M A)
    (Q : A → State → Prop) :
  (φ → triple P m Q) → triple (λ s, P s ∧ φ) m Q.
Proof. intros H s [Hs Hφ]. by apply H. Qed.

Lemma find_headers_subset (g : Graph) (loop : gset Label) :
  (find_headers_and_entries g loop).1 ⊆ loop.
Proof.
  intros h Hh. destruct (find_headers_and_entries_from loop g (∅, ∅)) as [H1 _].
  unfold find_headers_and_entries in Hh. simpl in *.
  apply H1 in Hh as [?%elem_of_empty|(k & b & _ & _ & _ & ?)]; done.
Qed.

Lemma size_add_one (Y : gset Label) (x : Label) : (size (Y ∪ {[x]}) ≤ size Y + 1)%nat.
Proof.
  rewrite size_union_alt.
  assert (size ({[x]} ∖ Y : gset Label) ≤ size ({[x]} : gset Label))%nat as Hle.
  { apply subseteq_size. set_solver. }
  rewrite size_singleton in Hle. lia.
Qed.

Lemma build_loop_body_fuel_free headers loop_head insiders :
  build_loop_body headers loop_head insiders ≠ NoFuel.
Proof.
  unfold build_loop_body. apply for_each_fuel_free. intros body node.
  case_bool_decide; [done|].
  unfold replace_backedge, assert.
  destruct (bool_decide (loop_head ∈ block_jump_targets (Basic node))); [|done].
  destruct (bool_decide (length (block_jump_targets (Basic node)) = 1%nat)),
           (bool_decide (block_backedges (Basic node) = [])); done.
Qed.

(** One turn of the [for loop in loops] of [restructure_loop]: when the
    recursive call behaves on maps of at most [n] nodes and the set of nodes
    has at most [n] members (or fails the single-header assertion), the turn
    ends, and when it returns the pass invariant holds again. *)
Lemma restructure_loop_body_ok (n : nat) (rec : BlockMap → M unit)
    (a : BlockMap) (s0 : State) (labels : option (Label * Label)) (Y : gset Label) :
  rec_ok n rec →
  triple (λ s, pass_inv a [] s0 s ∧
               (size (find_headers_and_entries (graph_at s a) Y).1 = 1%nat →
                (size Y ≤ n)%nat))
         (restructure_loop_body rec a labels Y)
         (λ _, pass_inv a [] s0).
Proof.
  intros Hrec. unfold restructure_loop_body.
  eapply triple_bind with
    (R := λ g s, (size (find_headers_and_entries g Y).1 = 1%nat → (size Y ≤ n)%nat)
                 ∧ pass_inv a [] s0 s).
  { intros s [HK Hs]. unfold get_graph. split; [exact Hs|exact HK]. }
  intros g. apply triple_pure. intros Hφ.
  pose proof (find_headers_subset g Y) as Hsub.
  destruct (find_headers_and_entries g Y) as [headers entries]. simpl in Hφ, Hsub.
  eapply triple_bind;
    [apply triple_lift; [apply find_exits_fuel_free|intros ? s' _ Hs; exact Hs]|].
  intros [pre_exits post_exits].
  eapply triple_bind with
    (R := λ r s, (Y ⊆ r.1 ∧ (size r.1 ≤ size Y + 1)%nat) ∧ pass_inv a [] s0 s).
  { repeat case_bool_decide.
    - eapply triple_bind; [apply K_join_exits|]. intros [[l p] q].
      apply triple_ret. intros s' [HK' [pre Hpre]]. simpl in *. subst l.
      split; [split; [set_solver|apply size_add_one]|done].
    - apply triple_ret. intros s' HK'. simpl. split; [split; [done|lia]|done].
    - eapply triple_bind;
        [apply triple_lift; [apply from_option_fuel_free|intros ? s' _ Hs; exact Hs]|].
      intros p.
      eapply triple_bind;
        [apply triple_lift; [apply from_option_fuel_free|intros ? s' _ Hs; exact Hs]|].
      intros q.
      apply triple_ret. intros s' HK'. simpl. split; [split; [done|lia]|done]. }
  intros [loop' labels']. apply triple_pure. simpl. intros [HY Hsz].
  eapply triple_bind;
    [apply triple_lift; [apply from_option_fuel_free|intros ? s' _ Hs; exact Hs]|].
  intros [pre_exit_label post_exit_label].
  eapply triple_bind; [apply K_pop_insiders|]. intros insiders.
  apply triple_pure_r. intros [Hlen Hall].
  eapply triple_bind with (R := λ _ s, size headers = 1%nat ∧ pass_inv a [] s0 s).
  { apply triple_lift; [unfold assert; by case_bool_decide|].
    intros u s' Hok Hs. split; [|done]. unfold assert in Hok. by case_bool_decide. }
  intros ?. apply triple_pure. intros Hone.
  eapply triple_bind with (R := λ h s, h ∈ headers ∧ pass_inv a [] s0 s).
  { apply triple_lift; [apply from_option_fuel_free|].
    intros h s' Hh Hs. split; [|done]. unfold next_iter in Hh.
    destruct (elements headers) as [|h0 l0] eqn:He; simpl in Hh; [done|].
    injection Hh as <-. apply elem_of_elements. rewrite He. left. }
  intros loop_head. apply triple_pure. intros Hhead.
  eapply triple_bind with
    (R := λ body s, (wf_graph body ∧ (length body ≤ n)%nat) ∧ pass_inv a [] s0 s).
  { apply triple_lift; [apply build_loop_body_fuel_free|].
    intros body s' Hb Hs. split; [|done].
    destruct (Hall loop_head) as (hb & Hin & Hbeg).
    { apply elem_of_elements, HY, Hsub, Hhead. }
    apply (build_loop_body_ok _ _ _ _ hb) in Hb as [Hwf HS];
      [|done|by rewrite Hbeg].
    split; [done|]. specialize (Hφ Hone).
    change (length (elements loop')) with (size loop') in Hlen. lia. }
  intros loop_body. apply triple_pure. intros [Hwf Hlen'].
  eapply triple_bind;
    [apply triple_lift; [by destruct loop_head|intros ? s' _ Hs; exact Hs]|].
  intros end_label.
  eapply triple_bind; [apply triple_new_BlockMap|]. intros sub.
  eapply triple_bind; [by eapply triple_rec|]. intros ?.
  eapply triple_bind; [by apply K_setitem|]. intros ?.
  by apply triple_ret.
Qed.

(** ** [restructure_loop] ends and stays within its map *)

Lemma restructure_loop_turns_ok (n : nat) (rec : BlockMap → M unit)
    (a : BlockMap) (s0 : State) (loops : list (gset Label))
    (labels : option (Label * Label)) :
  rec_ok n rec →
  (∀ Y, Y ∈ loops → (size Y ≤ n)%nat) →
  triple (pass_inv a [] s0)
         (for_eachM (restructure_loop_body rec a) loops labels)
         (λ _, pass_inv a [] s0).
Proof.
  intros Hrec Hsz.
  apply (triple_for_eachM _ _ (λ _ _, pass_inv a [] s0)).
  intros done Y acc HY.
  eapply triple_conseq; [by apply (restructure_loop_body_ok n)| |].
  - intros s HK. split; [exact HK|]. intros _. by apply Hsz.
  - intros v s HK. exact HK.
Qed.

Lemma loops_of_scc (g : Graph) :
  let loops := filter (λ nodes : gset Label, (1 < size nodes)%nat) (compute_scc g) in
  (∀ Y, Y ∈ loops → Y ⊆ graph_keys g ∧ (1 < size Y)%nat) ∧
  pairwise_disjoint loops.
Proof.
  destruct (scc_spec g) as [Hcomp Hdisj]. simpl. split.
  - intros Y [Hsz HY]%list_elem_of_filter. split; [|done].
    destruct (Hcomp Y HY) as (v & Hv & ->). intros x Hx.
    unfold graph_keys. apply elem_of_list_to_set. by eapply scc_of_keys.
  - by apply pairwise_disjoint_filter.
Qed.

Lemma restructure_loop_rec_ok (fuel : nat) :
  ∀ n, (n < fuel)%nat → rec_ok n (restructure_loop fuel).
Proof.
  induction fuel as [|fuel IH]; intros n Hn; [lia|].
  intros a s Ha Hwf Hlen. simpl.
  unfold mbind at 1, M_bind at 1, get_graph at 1. fold (graph_at s a).
  destruct (loops_of_scc (graph_at s a)) as [Hloops Hdisj].
  set (g := graph_at s a) in *.
  set (loops := filter (λ nodes : gset Label, (1 < size nodes)%nat) (compute_scc g)) in *.
  assert (pass_inv a [] s s) as HK.
  { split_and!; [done|apply frame_refl|done|by intros kb ?%elem_of_nil]. }
  assert (triple (λ s', pass_inv a [] s s' ∧ graph_at s' a = g)
                 (for_eachM (restructure_loop_body (restructure_loop fuel) a)
                            loops None)
                 (λ _, pass_inv a [] s)) as Htr.
  { destruct loops as [|Y1 rest] eqn:Hl; [apply triple_ret; by intros s' [? _]|].
    assert (2 ≤ n)%nat as Hn2.
    { destruct (Hloops Y1) as [Hsub Hsz]; [left|].
      pose proof (subseteq_size _ _ Hsub). pose proof (graph_keys_size g). lia. }
    specialize (IH (n - 1)%nat ltac:(lia)).
    destruct (decide (graph_keys g ⊆ Y1)) as [Hall|Hnall].
    - (* one component holds every node: it has no header *)
      assert (rest = []) as ->.
      { destruct rest as [|Y2 rest]; [done|]. exfalso.
        destruct Hdisj as [Hd _]. specialize (Hd Y2 ltac:(left)).
        destruct (Hloops Y2) as [Hsub2 Hsz2]; [right; left|].
        assert (Y2 = ∅) as ->; [set_solver|]. rewrite size_empty in Hsz2. lia. }
      simpl. eapply triple_bind;
        [|intros v; apply triple_ret; intros s' H'; exact H'].
      eapply triple_conseq;
        [apply (restructure_loop_body_ok (n - 1)); exact IH| |intros v s' H'; exact H'].
      intros s' [HK' Hg]. split; [exact HK'|]. rewrite Hg. intros Hone. exfalso.
      assert ((find_headers_and_entries g Y1).1 = ∅) as Hempty.
      { apply leibniz_equiv, elem_of_equiv_empty. intros h Hh.
        destruct (find_headers_and_entries_from Y1 g (∅, ∅)) as [H1 _].
        unfold find_headers_and_entries in Hh. simpl in *.
        apply H1 in Hh as [?%elem_of_empty|(k & b & Hin & Hk & _)]; [done|].
        apply Hk, Hall. unfold graph_keys. apply elem_of_list_to_set.
        apply list_elem_of_fmap. by exists (k, b). }
      rewrite Hempty, size_empty in Hone. lia.
    - (* every component leaves a node out *)
      assert (∀ Y, Y ∈ Y1 :: rest → (size Y ≤ n - 1)%nat) as Hsz.
      { intros Y HY. destruct (Hloops Y HY) as [Hsub _].
        assert (Y ⊂ graph_keys g) as Hstrict.
        { split; [done|]. intros Hall.
          apply elem_of_cons in HY as [->|HY]; [done|].
          destruct Hdisj as [Hd _]. specialize (Hd Y HY).
          destruct (Hloops Y1) as [Hsub1 Hsz1]; [left|].
          assert (Y1 = ∅) as Hempty; [set_solver|].
          rewrite Hempty, size_empty in Hsz1. lia. }
        pose proof (subset_size _ _ Hstrict). pose proof (graph_keys_size g). lia. }
      eapply triple_conseq;
        [apply (restructure_loop_turns_ok (n - 1) _ a s (Y1 :: rest) None IH Hsz)
        |by intros s' [? _]|intros v s' H'; exact H']. }
  specialize (Htr s (conj HK eq_refl)).
  unfold mbind, M_bind.
  destruct (for_eachM _ loops None s) as [v s'| |]; [|done..].
  unfold mret, M_ret. by destruct Htr as (_ & ? & ? & _).
Qed.

Lemma wf_graph_check (g : Graph) :
  bool_decide (NoDup (Dict.keys g)) = true →
  forallb (λ kb : Label * Block, bool_decide (block_begin kb.2 = kb.1)) g = true →
  wf_graph g.
Proof.
  intros Hnd Hk. split; [by apply bool_decide_eq_true in Hnd|].
  intros k b Hin. rewrite forallb_forall in Hk.
  specialize (Hk (k, b)). simpl in Hk.
  eapply bool_decide_eq_true, Hk. by apply list_elem_of_In.
Qed.

(** X14.  On a block map that is a dict keyed by [begin], with fuel beyond
    the number of its nodes, [restructure_loop] never runs out of fuel at
    any depth of its recursion: it returns or raises.  When it returns, the
    map is again a dict keyed by [begin], every other block map that
    existed before the call is untouched (block maps are only added), and
    the label generator has only moved forward. *)
Theorem restructure_loop_ends_within_its_map (fuel : nat) (a : BlockMap) (s : State) :
  (a < length (store s))%nat →
  wf_graph (graph_at s a) →
  (length (graph_at s a) < fuel)%nat →
  match restructure_loop fuel a s with
  | Done _ s' =>
      wf_graph (graph_at s' a) ∧
      (length (store s) ≤ length (store s'))%nat ∧
      clg_index s ≤ clg_index s' ∧
      ∀ a', a' ≠ a → (a' < length (store s))%nat → store s' !! a' = store s !! a'
  | Raised _ _ => True
  | Diverged => False
  end.
Proof.
  intros Ha Hwf Hlen.
  pose proof (restructure_loop_rec_ok fuel (length (graph_at s a)) Hlen a s Ha Hwf
                ltac:(lia)) as Hrun.
  destruct (restructure_loop fuel a s) as [v s'| |]; [|done..].
  destruct Hrun as [(? & ? & ?) ?]. by split_and!.
Qed.

Lemma restructure_loop_ends_within_its_map_witness :
  let s := mkState 0 [loop_graph] in
  match restructure_loop 5 0%nat s with
  | Done _ s' =>
      wf_graph (graph_at s' 0%nat) ∧
      (length (store s) ≤ length (store s'))%nat ∧
      clg_index s ≤ clg_index s' ∧
      ∀ a', a' ≠ 0%nat → (a' < length (store s))%nat → store s' !! a' = store s !! a'
  | Raised _ _ => True
  | Diverged => False
  end.
Proof.
  apply (restructure_loop_ends_within_its_map 5 0%nat (mkState 0 [loop_graph])).
  - simpl. lia.
  - apply wf_graph_check; vm_compute; reflexivity.
  - simpl. lia.
Defined.

(** ** Copies of a block map and the methods that work on them *)

Lemma deepcopy_items_basic (fuel : nat) (l : list (Label * Block)) :
  ∀ (acc : Graph) (memo : list (BlockMap * BlockMap)) (s : State),
  (∀ k b, (k, b) ∈ l → ∃ bb, b = Basic bb) →
  for_eachM (λ '(g', memo) '(k, b),
               match b with
               | Basic _ => mret (g' ++ [(k, b)], memo)
               | Region r =>
                   '(sub', memo) ← deepcopy_BlockMap fuel memo (subregion r);
                   mret (g' ++ [(k, Region (mkRegionBlock
                                              (base r) (kind r) (headers r)
                                              sub' (exit r)))],
                         memo)
               end)
            l (acc, memo) s
  = Done (acc ++ l, memo) s.
Proof.
  induction l as [|[k b] l IH]; intros acc memo s Hl; simpl.
  - by rewrite app_nil_r.
  - destruct (Hl k b) as [bb ->]; [left|].
    unfold mbind, M_bind, mret, M_ret.
    rewrite IH; [by rewrite <- app_assoc|]. intros k' b' ?. apply (Hl k' b'). by right.
Qed.

Lemma deepcopy_basic (fuel : nat) (a : BlockMap) (s : State) :
  region_free (graph_at s a) →
  deepcopy (S fuel) a s
  = Done (length (store s)) (mkState (clg_index s) (store s ++ [graph_at s a])).
Proof.
  intros Hfree. unfold deepcopy. cbn [deepcopy_BlockMap Dict.get].
  unfold mbind at 1, M_bind at 1.
  unfold mbind at 1, M_bind at 1, get_graph at 1. fold (graph_at s a).
  unfold mbind at 1, M_bind at 1, new_BlockMap at 1.
  unfold mbind at 1, M_bind at 1.
  rewrite deepcopy_items_basic by done.
  unfold mbind, M_bind, put_graph, mret, M_ret. simpl. do 2 f_equal.
  rewrite insert_app_r_alt by lia. by rewrite Nat.sub_diag.
Qed.

(** X15.  [ByteFlow._restructure_loop] on a flow whose map is a dict keyed
    by [begin] and holds basic blocks only: the call ends (returns or
    raises); when it returns, the new flow has the receiver's instructions
    and a block map of its own, which is a dict keyed by [begin], while the
    receiver's map holds exactly the nodes it held before. *)
Theorem _restructure_loop_leaves_the_receiver (fuel : nat) (code : list Instruction)
    (a : BlockMap) (s : State) (g : Graph) :
  store s !! a = Some g →
  wf_graph g → region_free g →
  (length g < fuel)%nat →
  match _restructure_loop fuel (mkByteFlow code a) s with
  | Done f s' =>
      bc f = code ∧ bbmap f = length (store s) ∧
      graph_at s' a = g ∧ wf_graph (graph_at s' (bbmap f))
  | Raised _ _ => True
  | Diverged => False
  end.
Proof.
  intros Ha Hwf Hfree Hlen. destruct fuel as [|fuel]; [lia|].
  assert (graph_at s a = g) as Hg by (unfold graph_at; by rewrite Ha).
  unfold _restructure_loop. unfold mbind at 1, M_bind at 1. cbn [bbmap].
  rewrite deepcopy_basic by by rewrite Hg. rewrite Hg.
  set (s1 := mkState (clg_index s) (store s ++ [g])).
  set (a' := length (store s)).
  assert (graph_at s1 a' = g) as Hg1.
  { unfold graph_at, s1, a'. simpl. by rewrite lookup_app_r, Nat.sub_diag by lia. }
  pose proof (restructure_loop_rec_ok (S fuel) (length g) Hlen a' s1) as Hrun.
  rewrite Hg1 in Hrun. specialize (Hrun ltac:(unfold s1, a'; simpl; rewrite length_app; simpl; lia) Hwf ltac:(lia)).
  unfold mbind, M_bind.
  destruct (restructure_loop (S fuel) a' s1) as [v s'| |]; [|done..].
  destruct Hrun as [(_ & _ & Hfr) Hwf']. simpl. split_and!; [done..| |done].
  assert (a < length (store s))%nat as Hlt by by eapply lookup_lt_Some.
  unfold graph_at. rewrite Hfr.
  - unfold s1. simpl. by rewrite lookup_app_l, Ha.
  - unfold a'. lia.
  - unfold s1. simpl. rewrite length_app. lia.
Qed.

Lemma _restructure_loop_leaves_the_receiver_witness :
  let s := mkState 0 [loop_graph] in
  match _restructure_loop 5 (mkByteFlow [] 0%nat) s with
  | Done f s' =>
      bc f = [] ∧ bbmap f = length (store s) ∧
      graph_at s' 0%nat = loop_graph ∧ wf_graph (graph_at s' (bbmap f))
  | Raised _ _ => True
  | Diverged => False
  end.
Proof.
  apply (_restructure_loop_leaves_the_receiver 5 [] 0%nat (mkState 0 [loop_graph])
           loop_graph).
  - reflexivity.
  - apply wf_graph_check; vm_compute; reflexivity.
  - intros k b Hin. unfold loop_graph in Hin.
    repeat (apply elem_of_cons in Hin as [Hin|Hin];
            [injection Hin as -> ->; by eexists|]).
    by apply elem_of_nil in Hin.
  - simpl. lia.
Defined.

(** X16.  [ByteFlow._join_returns] on a flow whose map is a dict of basic
    blocks: it returns a new flow whose block map is a copy of the
    receiver's map as it was before the call, with nothing joined, and it is
    the receiver's own map that [join_returns] has closed in place. *)
Theorem _join_returns_closes_the_receiver (fuel : nat) (code : list Instruction)
    (a : BlockMap) (s : State) (g : Graph) :
  store s !! a = Some g →
  is_dict g → region_free g →
  ∃ s' s'',
    _join_returns (S fuel) (mkByteFlow code a) s
      = Done (mkByteFlow code (length (store s))) s' ∧
    graph_at s' (length (store s)) = g ∧
    join_returns a s = Done tt s'' ∧
    graph_at s' a = graph_at s'' a.
Proof.
  intros Ha Hd Hfree.
  assert (graph_at s a = g) as Hg by (unfold graph_at; by rewrite Ha).
  assert (a < length (store s))%nat as Hlt by by eapply lookup_lt_Some.
  unfold _join_returns. unfold mbind at 1, M_bind at 1. cbn [bbmap bc].
  rewrite deepcopy_basic by by rewrite Hg. rewrite Hg.
  destruct s as [c st]. simpl in *.
  assert ((st ++ [g]) !! a = Some g) as Ha1 by by rewrite lookup_app_l.
  assert ((st ++ [g]) !! length st = Some g) as Hcopy.
  { by rewrite lookup_app_r, Nat.sub_diag by lia. }
  destruct (decide (length (terminating_nodes g) ≤ 1)%nat) as [Hle|Hgt].
  - exists (mkState c (st ++ [g])), (mkState c st).
    unfold mbind, M_bind.
    rewrite !join_returns_noop.
    + split_and!; [done| | |].
      * unfold graph_at. simpl. by rewrite Hcopy.
      * done.
      * unfold graph_at. simpl. by rewrite Ha1, Ha.
    + unfold graph_at. simpl. by rewrite Ha.
    + unfold graph_at. simpl. by rewrite Ha1.
  - destruct (rewire_returns_exiting (ControlLabel c) (terminating_nodes g)
                (add_node g (return_solo_block c))) as (g2 & Hrw & _ & _).
    { by apply terminating_nodes_NoDup. }
    { by apply dict_set_NoDup. }
    { intros r (b & Hin & _)%terminating_nodes_elem_of.
      apply dict_elem_of_keys_set. right. apply list_elem_of_fmap. by exists (r, b). }
    exists (mkState (c + 1 + 1) (<[a := g2]> (st ++ [g]))),
           (mkState (c + 1 + 1) (<[a := g2]> st)).
    unfold mbind, M_bind.
    rewrite (join_returns_run c (st ++ [g]) a g g2 Ha1 ltac:(lia) Hrw).
    rewrite (join_returns_run c st a g g2 Ha ltac:(lia) Hrw).
    split_and!; [done| |done|].
    + unfold graph_at. simpl. rewrite list_lookup_insert_ne by lia. by rewrite Hcopy.
    + by rewrite (graph_at_insert _ _ _ g), (graph_at_insert _ _ _ g).
Qed.

Lemma _join_returns_closes_the_receiver_witness :
  ∃ s' s'',
    _join_returns 1 (mkByteFlow two_returns 0%nat) (mkState 0 [two_returns_graph])
      = Done (mkByteFlow two_returns 1%nat) s' ∧
    graph_at s' 1%nat = two_returns_graph ∧
    join_returns 0%nat (mkState 0 [two_returns_graph]) = Done tt s'' ∧
    graph_at s' 0%nat = graph_at s'' 0%nat.
Proof.
  apply (_join_returns_closes_the_receiver 0 two_returns 0%nat
           (mkState 0 [two_returns_graph]) two_returns_graph).
  - reflexivity.
  - refine (bool_decide_unpack _ _). vm_compute. exact I.
  - intros k b Hin. unfold two_returns_graph in Hin.
    repeat (apply elem_of_cons in Hin as [Hin|Hin];
            [injection Hin as -> ->; by eexists|]).
    by apply elem_of_nil in Hin.
Defined.

(** ** Synthetic entries and pre-exits *)

(** The rewiring loop shared by [join_returns], [join_pre_exits] and
    [join_headers], run on a dict keyed by [begin]. *)
Lemma rewire_loop_run (solo : Label) (rs : list Label) (c : Z) (st : list Graph)
    (a : BlockMap) (gc : Graph) :
  st !! a = Some gc → NoDup rs → wf_graph gc →
  (∀ r, r ∈ rs → r ∈ Dict.keys gc) →
  ∃ g2 : Graph,
    for_eachM (λ _ rnode,
                 b ← bbmap_pop a rnode;
                 bbmap_add_node a (replace_jump_targets b [solo]))
              rs tt (mkState c st)
    = Done tt (mkState c (<[a := g2]> st)) ∧
    is_dict g2 ∧
    (∀ k b, (k, b) ∈ gc → k ∉ rs → Dict.get k g2 = Some b) ∧
    (∀ r b, r ∈ rs → (r, b) ∈ gc →
       Dict.get r g2 = Some (replace_jump_targets b [solo])).
Proof.
  intros Ha Hrs [Hd Hk] Hin.
  destruct (rewire_returns_exiting solo rs gc Hrs Hd Hin) as (g2 & Hrw & Hd2 & _).
  destruct (rewire_returns_keyed solo rs gc Hrs Hd) as (g2' & Hrw' & Hold & Hnew).
  { intros r Hr. apply Hin in Hr. apply list_elem_of_fmap in Hr as ([k b] & -> & Hkb).
    exists b. split; [done|]. by apply Hk. }
  rewrite Hrw in Hrw'. injection Hrw' as <-.
  exists g2. split_and!; [by eapply join_returns_loop|done| |].
  - intros k b Hkb Hnr. apply dict_elem_of_get; [done|]. by apply Hold.
  - intros r b Hr Hrb. apply dict_elem_of_get; [done|]. by apply Hnew.
Qed.



(** X18.  [join_pre_exits] on a dict keyed by [begin] whose exit nodes are
    keys and that does not yet hold the label the generator mints next: it
    returns the new label, added to [inner_nodes]; the block filed under it
    jumps to [post_exit] only; afterwards every exit node has the new label
    as its only jump target and every other node is as it was. *)
Theorem join_pre_exits_spec (exits inner_nodes : gset Label) (post_exit : Label)
    (a : BlockMap) (s : State) (g : Graph) :
  store s !! a = Some g →
  wf_graph g →
  ControlLabel (clg_index s) ∉ Dict.keys g →
  (∀ e, e ∈ exits → e ∈ Dict.keys g) →
  let pre := ControlLabel (clg_index s) in
  ∃ s',
    join_pre_exits exits post_exit inner_nodes a s
      = Done (inner_nodes ∪ {[pre]}, pre) s' ∧
    clg_index s' = clg_index s + 2 ∧
    Dict.get pre (graph_at s' a)
      = Some (Basic (mkBasicBlock pre (ControlLabel (clg_index s + 1)) false
                                  [post_exit] [])) ∧
    (∀ k b, (k, b) ∈ g → k ∈ exits →
       Dict.get k (graph_at s' a) = Some (replace_jump_targets b [pre])) ∧
    (∀ k b, (k, b) ∈ g → k ∉ exits → Dict.get k (graph_at s' a) = Some b).
Proof.
  intros Ha Hwf Hfresh Hex. destruct s as [c st]. simpl in *.
  set (pre := ControlLabel c).
  set (block := Basic (mkBasicBlock pre (ControlLabel (c + 1)) false [post_exit] [])).
  set (gc := add_node g block).
  assert (∀ k b, (k, b) ∈ g → (k, b) ∈ gc) as Hsub.
  { intros k b Hin. apply dict_set_other; [|done]. intros ->. apply Hfresh.
    apply list_elem_of_fmap. by exists (pre, b). }
  assert (pre ∉ exits) as Hpre.
  { intros Hs. by apply Hfresh, Hex. }
  destruct (rewire_loop_run pre (elements exits) (c + 1 + 1)
              (<[a := gc]> st) a gc) as (g2 & Hrun & Hd2 & Hold & Hnew).
  { by eapply store_insert_lookup. }
  { apply NoDup_elements. }
  { by apply wf_graph_set. }
  { intros r Hr%elem_of_elements. apply dict_elem_of_keys_set. right. by apply Hex. }
  exists (mkState (c + 1 + 1) (<[a := g2]> st)).
  unfold join_pre_exits.
  unfold mbind at 1, M_bind at 1, new_index at 1. simpl.
  unfold mbind at 1, M_bind at 1, new_index at 1. simpl.
  unfold mbind at 1, M_bind at 1.
  rewrite (run_bbmap_add_node _ _ _ g) by done.
  unfold mbind at 1, M_bind at 1. unfold gc, block, pre in *.
  rewrite Hrun. rewrite list_insert_insert_eq.
  rewrite (graph_at_insert _ _ _ g) by done. unfold mret, M_ret.
  split_and!; [done|simpl; lia| | |].
  - apply Hold; [apply dict_set_elem_of_new|]. by rewrite elem_of_elements.
  - intros k b Hin Hk. apply Hnew; [by apply elem_of_elements|by apply Hsub].
  - intros k b Hin Hk. apply Hold; [by apply Hsub|]. by rewrite elem_of_elements.
Qed.

Lemma join_pre_exits_spec_witness :
  let s := mkState 0 [scenarioA_graph] in
  let exits : gset Label := {[BCLabel 8; BCLabel 14]} in
  let pre := ControlLabel (clg_index s) in
  ∃ s',
    join_pre_exits exits (BCLabel 18) ∅ 0%nat s = Done (∅ ∪ {[pre]}, pre) s' ∧
    clg_index s' = clg_index s + 2 ∧
    Dict.get pre (graph_at s' 0%nat)
      = Some (Basic (mkBasicBlock pre (ControlLabel (clg_index s + 1)) false
                                  [BCLabel 18] [])) ∧
    (∀ k b, (k, b) ∈ scenarioA_graph → k ∈ exits →
       Dict.get k (graph_at s' 0%nat) = Some (replace_jump_targets b [pre])) ∧
    (∀ k b, (k, b) ∈ scenarioA_graph → k ∉ exits →
       Dict.get k (graph_at s' 0%nat) = Some b).
Proof.
  apply (join_pre_exits_spec {[BCLabel 8; BCLabel 14]} ∅ (BCLabel 18) 0%nat
           (mkState 0 [scenarioA_graph]) scenarioA_graph).
  - reflexivity.
  - apply wf_graph_check; vm_compute; reflexivity.
  - refine (bool_decide_unpack _ _). vm_compute. exact I.
  - intros e [He|He]%elem_of_union; apply elem_of_singleton in He as ->.
    + right. right. left.
    + do 4 right. left.
Defined.

(** ** The instructions of a block *)

Lemma get_instructions_loop_ok (bcmap : Dict.t Label Instruction) (e : Z) (fuel : nat) :
  ∀ (it : Z) (out : list Instruction),
  (Z.to_nat (e - it) < fuel)%nat →
  (∀ j : nat, it + 2 * Z.of_nat j < e → is_Some (Dict.get (BCLabel (it + 2 * Z.of_nat j)) bcmap)) →
  ∃ out',
    get_instructions_loop fuel bcmap (BCLabel e) (BCLabel it) out = Ok (out ++ out') ∧
    ∀ j : nat,
      out' !! j = if bool_decide (it + 2 * Z.of_nat j < e)
                  then Dict.get (BCLabel (it + 2 * Z.of_nat j)) bcmap else None.
Proof.
  induction fuel as [|fuel IH]; intros it out Hfuel Hall; [lia|]. simpl.
  case_bool_decide as Hlt.
  - destruct (Hall 0%nat) as [i Hi]; [lia|].
    replace (it + 2 * Z.of_nat 0) with it in Hi by lia. rewrite Hi. simpl.
    destruct (IH (it + 2) (out ++ [i])) as (out' & -> & Hout'); [lia| |].
    { intros j Hj. replace (it + 2 + 2 * Z.of_nat j) with (it + 2 * Z.of_nat (S j)) by lia.
      apply Hall. lia. }
    exists (i :: out'). split; [by rewrite <- app_assoc|].
    intros [|j]; simpl.
    + replace (it + 2 * Z.of_nat 0) with it by lia. by rewrite bool_decide_eq_true_2.
    + rewrite Hout'. by replace (it + 2 + 2 * Z.of_nat j) with (it + 2 * Z.of_nat (S j)) by lia.
  - exists []. split; [by rewrite app_nil_r|]. intros j.
    rewrite bool_decide_eq_false_2 by lia. done.
Qed.

(** X19.  [get_instructions] on a block from bytecode offset [b] to [e]
    whose offsets [b], [b+2], ... below [e] are all present in [bcmap]:
    the loop terminates and returns exactly the instructions found at these
    offsets, in this order (none when [e <= b]). *)
Theorem get_instructions_spec (b e : Z) (ft : bool) (jts bes : list Label)
    (bcmap : Dict.t Label Instruction) :
  (∀ j : nat, b + 2 * Z.of_nat j < e → is_Some (Dict.get (BCLabel (b + 2 * Z.of_nat j)) bcmap)) →
  ∃ fuel0, ∀ fuel, (fuel0 ≤ fuel)%nat →
  ∃ out,
    get_instructions fuel (mkBasicBlock (BCLabel b) (BCLabel e) ft jts bes) bcmap
      = Ok out ∧
    ∀ j : nat,
      out !! j = if bool_decide (b + 2 * Z.of_nat j < e)
                 then Dict.get (BCLabel (b + 2 * Z.of_nat j)) bcmap else None.
Proof.
  intros Hall. exists (S (Z.to_nat (e - b))). intros fuel Hfuel.
  unfold get_instructions. simpl.
  destruct (get_instructions_loop_ok bcmap e fuel b []) as (out & Hrun & Hout);
    [lia|done|].
  exists out. split; [by rewrite Hrun|done].
Qed.

Lemma get_instructions_spec_witness :
  ∃ fuel0, ∀ fuel, (fuel0 ≤ fuel)%nat →
  ∃ out,
    get_instructions fuel (mkBasicBlock (BCLabel 0) (BCLabel 4) false [] [])
                     (bcmap_from_bytecode two_returns)
      = Ok out ∧
    ∀ j : nat,
      out !! j = if bool_decide (0 + 2 * Z.of_nat j < 4)
                 then Dict.get (BCLabel (0 + 2 * Z.of_nat j)) (bcmap_from_bytecode two_returns)
                 else None.
Proof.
  apply (get_instructions_spec 0 4 false [] [] (bcmap_from_bytecode two_returns)).
  intros j Hj. assert (j = 0 ∨ j = 1)%nat as [-> | ->] by lia; vm_compute; eauto.
Defined.

(** X20.  [get_instructions] looks every offset from [begin] up to [end] up
    in [bcmap]: the first one that is missing ends the call with
    [KeyError]; and a block whose [begin] and [end] are labels of different
    classes ends it with [TypeError] at the first comparison. *)
Theorem get_instructions_errors (fuel : nat) (ft : bool) (jts bes : list Label)
    (bcmap : Dict.t Label Instruction) :
  (∀ (b e : Z) (n : nat),
     (∀ j : nat, (j < n)%nat → is_Some (Dict.get (BCLabel (b + 2 * Z.of_nat j)) bcmap)) →
     b + 2 * Z.of_nat n < e → Dict.get (BCLabel (b + 2 * Z.of_nat n)) bcmap = None →
     (n < fuel)%nat →
     get_instructions fuel (mkBasicBlock (BCLabel b) (BCLabel e) ft jts bes) bcmap
       = Err KeyError) ∧
  (∀ b e,
     get_instructions (S fuel)
       (mkBasicBlock (BCLabel b) (ControlLabel e) ft jts bes) bcmap = Err TypeError ∧
     get_instructions (S fuel)
       (mkBasicBlock (ControlLabel b) (BCLabel e) ft jts bes) bcmap = Err TypeError).
Proof.
  split; [|done]. intros b e n. unfold get_instructions. simpl.
  generalize (@nil Instruction). revert b fuel.
  induction n as [|n IH]; intros b fuel out Hall Hlt Hnone Hfuel.
  - destruct fuel as [|fuel]; [lia|]. simpl.
    replace (b + 2 * Z.of_nat 0) with b in * by lia.
    rewrite bool_decide_eq_true_2 by lia. by rewrite Hnone.
  - destruct fuel as [|fuel]; [lia|]. simpl.
    rewrite bool_decide_eq_true_2 by lia.
    destruct (Hall 0%nat) as [i Hi]; [lia|].
    replace (b + 2 * Z.of_nat 0) with b in Hi by lia. rewrite Hi. simpl.
    apply IH; [| | |lia].
    + intros j Hj. replace (b + 2 + 2 * Z.of_nat j) with (b + 2 * Z.of_nat (S j)) by lia.
      apply Hall. lia.
    + lia.
    + by replace (b + 2 + 2 * Z.of_nat n) with (b + 2 * Z.of_nat (S n)) by lia.
Qed.

(** ** Immediate dominators *)

Lemma table_below_refl (d : Doms) : table_below d d.
Proof. split; [done|]. intros k D HD. by exists D. Qed.

Lemma table_below_trans (d1 d2 d3 : Doms) :
  table_below d1 d2 → table_below d2 d3 → table_below d1 d3.
Proof.
  intros [Hk1 H1] [Hk2 H2]. split; [congruence|].
  intros k D1 HD1. destruct (H1 k D1 HD1) as (D2 & HD2 & ?).
  destruct (H2 k D2 HD2) as (D3 & HD3 & ?). exists D3. split; [done|set_solver].
Qed.

Lemma closed_table_below (d' d : Doms) :
  table_below d' d → closed_table d → closed_table d'.
Proof.
  intros [Hk Hb] Hc k D' v HD' Hv. rewrite Hk.
  destruct (Hb k D' HD') as (D & HD & Hsub). eapply Hc; [exact HD|]. by apply Hsub.
Qed.

Lemma imm_doms_inner_ok (idoms : Doms) (l : list Label) :
  ∀ vs : gset Label,
  (∀ v, v ∈ l → v ∈ Dict.keys idoms) →
  ∃ vs', for_each (λ acc v, d ← from_option KeyError (Dict.get v idoms); Ok (acc ∖ d))
                  l vs = Ok vs' ∧ vs' ⊆ vs.
Proof.
  induction l as [|v l IH]; intros vs Hl; simpl.
  - by exists vs.
  - assert (is_Some (Dict.get v idoms)) as [d Hd].
    { apply dict_get_is_Some, Hl. left. }
    rewrite Hd. simpl.
    destruct (IH (vs ∖ d)) as (vs' & -> & Hsub).
    { intros v' ?. apply Hl. by right. }
    exists vs'. split; [done|set_solver].
Qed.

Lemma imm_doms_sweep_from (d0 : Doms) (ks : list Label) :
  closed_table d0 →
  (∀ k, k ∈ ks → k ∈ Dict.keys d0) →
  ∀ (idoms : Doms) (changed : bool),
  table_below idoms d0 →
  ∃ idoms' changed',
    for_each (λ '(idoms, changed) k,
                vs ← from_option KeyError (Dict.get k idoms);
                vs' ← for_each (λ acc v,
                                  d ← from_option KeyError (Dict.get v idoms);
                                  Ok (acc ∖ d))
                               (elements vs) vs;
                Ok (Dict.set k vs' idoms,
                    changed || bool_decide (size vs' < size vs)%nat))
             ks (idoms, changed)
    = Ok (idoms', changed') ∧
    table_below idoms' d0 ∧
    (doms_weight idoms' ≤ doms_weight idoms)%nat ∧
    (changed' = true → changed = true ∨ (doms_weight idoms' < doms_weight idoms)%nat).
Proof.
  intros Hclosed. induction ks as [|k ks IH]; intros Hks idoms changed Hbelow; simpl.
  - exists idoms, changed. split_and!; [done|done|lia|by left].
  - assert (k ∈ Dict.keys idoms) as Hk.
    { destruct Hbelow as [-> _]. apply Hks. left. }
    apply dict_get_is_Some in Hk as [vs Hvs]. rewrite Hvs. simpl.
    destruct (imm_doms_inner_ok idoms (elements vs) vs) as (vs' & -> & Hsub).
    { intros v Hv%elem_of_elements.
      eapply (closed_table_below idoms d0 Hbelow Hclosed); [exact Hvs|done]. }
    simpl.
    pose proof (doms_weight_set idoms k vs vs' Hvs) as Hw.
    pose proof (subseteq_size _ _ Hsub) as Hsz.
    assert (table_below (Dict.set k vs' idoms) d0) as Hbelow'.
    { destruct Hbelow as [Hkeys Hb]. split.
      - rewrite dict_keys_set. unfold Dict.mem.
        rewrite bool_decide_eq_true_2 by (rewrite Hvs; eauto). done.
      - intros k' D'. rewrite dict_get_set. case_decide as Hkk.
        + intros [= <-]. subst k'. destruct (Hb k vs Hvs) as (D & HD & ?).
          exists D. split; [done|set_solver].
        + apply Hb. }
    destruct (IH ltac:(intros k' ?; apply Hks; by right)
                 (Dict.set k vs' idoms)
                 (changed || bool_decide (size vs' < size vs)%nat) Hbelow')
      as (idoms' & changed' & -> & Hb' & Hle & Hch).
    exists idoms', changed'. split_and!; [done|done|lia|].
    intros Htrue. destruct (Hch Htrue) as [Hor|Hlt]; [|right; lia].
    apply orb_true_iff in Hor as [?|Hdec]; [by left|].
    apply bool_decide_eq_true in Hdec. right. lia.
Qed.

Lemma imm_doms_sweep_ok (idoms : Doms) :
  closed_table idoms →
  ∃ idoms' changed,
    imm_doms_sweep idoms = Ok (idoms', changed) ∧
    table_below idoms' idoms ∧
    (changed = true → (doms_weight idoms' < doms_weight idoms)%nat).
Proof.
  intros Hclosed. unfold imm_doms_sweep.
  destruct (imm_doms_sweep_from idoms (Dict.keys idoms) Hclosed ltac:(done)
              idoms false (table_below_refl idoms))
    as (idoms' & changed & Hrun & Hb & _ & Hch).
  exists idoms', changed. split_and!; [done..|].
  intros Htrue. by destruct (Hch Htrue).
Qed.

Lemma imm_doms_loop_ok (d0 : Doms) (fuel : nat) :
  closed_table d0 →
  ∀ idoms : Doms,
  table_below idoms d0 →
  (doms_weight idoms < fuel)%nat →
  ∃ r, imm_doms_loop fuel idoms = Ok r ∧ table_below r d0.
Proof.
  intros Hclosed. induction fuel as [|fuel IH]; intros idoms Hb Hfuel; [lia|].
  simpl.
  destruct (imm_doms_sweep_ok idoms) as (idoms' & changed & -> & Hb' & Hch).
  { by eapply closed_table_below. }
  simpl. destruct changed.
  - apply IH; [by eapply table_below_trans|]. specialize (Hch eq_refl). lia.
  - exists idoms'. split; [done|]. by eapply table_below_trans.
Qed.

Lemma imm_doms_init (doms : Doms) :
  let idoms := (λ kv : Label * gset Label, (kv.1, kv.2 ∖ {[kv.1]})) <$> doms in
  Dict.keys idoms = Dict.keys doms ∧
  (∀ k D', Dict.get k idoms = Some D' →
           ∃ D, Dict.get k doms = Some D ∧ D' = D ∖ {[k]}) ∧
  (doms_weight idoms ≤ doms_weight doms)%nat.
Proof.
  simpl. induction doms as [|[k D] doms (IH1 & IH2 & IH3)]; simpl.
  - split_and!; [done|by intros|done].
  - split_and!.
    + unfold Dict.keys in *. simpl. by f_equal.
    + intros k' D'. case_decide as Hkk.
      * intros [= <-]. subst k'. by exists D.
      * apply IH2.
    + rewrite !doms_weight_cons.
      assert (size (D ∖ {[k]}) ≤ size D)%nat by (apply subseteq_size; set_solver).
      fold (@fmap list _ _ _ (λ kv : Label * gset Label, (kv.1, kv.2 ∖ {[kv.1]})) doms).
      lia.
Qed.

Lemma imm_doms_out (l : list (Label * gset Label)) :
  ∀ out0 : Dict.t Label Label,
  is_dict out0 →
  match for_each (λ out '(k, vs),
                    if bool_decide (vs ≠ ∅) then
                      match elements vs with
                      | [v] => Ok (Dict.set k v out)
                      | _ => Err ValueError
                      end
                    else Ok out)
                 l out0 with
  | Ok out =>
      is_dict out ∧
      ∀ k v, (k, v) ∈ out → (k, v) ∈ out0 ∨ ∃ vs, (k, vs) ∈ l ∧ v ∈ vs
  | Err e => e = ValueError
  | NoFuel => False
  end.
Proof.
  induction l as [|[k vs] l IH]; intros out0 Hd; simpl.
  - split; [done|]. by left.
  - case_bool_decide as Hne.
    + destruct (elements vs) as [|v [|v' l']] eqn:He; simpl; [done| |done].
      specialize (IH (Dict.set k v out0) (dict_set_NoDup _ _ _ Hd)).
      destruct (for_each _ l (Dict.set k v out0)) as [out|e|]; [|done..].
      destruct IH as [Hd' Hout]. split; [done|].
      intros k' v0 Hin. destruct (Hout k' v0 Hin) as [Hset|(vs' & ? & ?)].
      * apply dict_elem_of_set in Hset as [[= -> ->]|?]; [|by left].
        right. exists vs. split; [left|]. apply elem_of_elements. rewrite He. left.
      * right. exists vs'. split; [by right|done].
    + simpl. specialize (IH out0 Hd).
      destruct (for_each _ l out0) as [out|e|]; [|done..].
      destruct IH as [Hd' Hout]. split; [done|].
      intros k' v0 Hin. destruct (Hout k' v0 Hin) as [?|(vs' & ? & ?)]; [by left|].
      right. exists vs'. split; [by right|done].
Qed.

(** X21.  On a table that is a dict and whose sets hold only keys of the
    table (as the tables of [_doms] and [_post_doms] do), [_imm_doms]
    terminates for every fuel beyond the total size of the sets; it never
    fails a lookup: the only exception it can end in is [ValueError], from
    the unpacking of a set that was not narrowed down to one node.  When it
    returns, the result is a dict, and the node it gives for a key [k] is a
    member of the set of [k] other than [k] itself. *)
Theorem imm_doms_spec (doms : Doms) :
  is_dict doms → closed_table doms →
  ∀ fuel, (doms_weight doms < fuel)%nat →
  match _imm_doms fuel doms with
  | Ok out =>
      is_dict out ∧
      ∀ k v, (k, v) ∈ out → ∃ D, Dict.get k doms = Some D ∧ v ∈ D ∧ v ≠ k
  | Err e => e = ValueError
  | NoFuel => False
  end.
Proof.
  intros Hd Hclosed fuel Hfuel. unfold _imm_doms.
  destruct (imm_doms_init doms) as (Hkeys & Hget & Hw).
  set (idoms := (λ kv : Label * gset Label, (kv.1, kv.2 ∖ {[kv.1]})) <$> doms) in *.
  assert (table_below idoms doms) as Hb0.
  { split; [done|]. intros k D' HD'. destruct (Hget k D' HD') as (D & HD & ->).
    exists D. split; [done|set_solver]. }
  destruct (imm_doms_loop_ok idoms fuel) with (idoms := idoms) as (r & -> & Hbr).
  { by eapply closed_table_below. }
  { apply table_below_refl. }
  { lia. }
  simpl.
  pose proof (imm_doms_out r [] (NoDup_nil_2 : is_dict (@nil (Label * Label)))) as Hout.
  destruct (for_each _ r []) as [out|e|]; [|done..].
  destruct Hout as [Hdo Hout]. split; [done|].
  intros k v Hin. destruct (Hout k v Hin) as [?%elem_of_nil|(vs & Hvs & Hv)]; [done|].
  assert (NoDup (Dict.keys r)) as Hdr.
  { destruct Hbr as [-> _]. by rewrite Hkeys. }
  apply dict_elem_of_get in Hvs; [|done].
  destruct Hbr as [_ Hbr]. destruct (Hbr k vs Hvs) as (D' & HD' & Hsub).
  destruct (Hget k D' HD') as (D & HD & ->).
  exists D. split; [done|]. apply Hsub in Hv. set_solver.
Qed.

Lemma imm_doms_spec_witness :
  match _imm_doms 10 chain_doms with
  | Ok out =>
      is_dict out ∧
      ∀ k v, (k, v) ∈ out → ∃ D, Dict.get k chain_doms = Some D ∧ v ∈ D ∧ v ≠ k
  | Err e => e = ValueError
  | NoFuel => False
  end.
Proof.
  apply (imm_doms_spec chain_doms).
  - refine (bool_decide_unpack _ _). vm_compute. exact I.
  - intros k D v HD Hv. apply dict_get_elem_of in HD. unfold chain_doms in HD.
    repeat (apply elem_of_cons in HD as [HD|HD];
            [injection HD as -> ->; revert v Hv;
             refine (bool_decide_unpack _ _); vm_compute; exact I|]).
    by apply elem_of_nil in HD.
  - vm_compute. lia.
Defined.

(** ** The walk from the head of a map to the start of a branch *)

(** X22.  The [while True] walk with which [restructure_branch] collects
    the head region returns a list exactly when following first jump
    targets from the head reaches [begin]: what it appends is then that
    path, from the head to the first occurrence of [begin], and the number
    of turns of the loop is its length. *)
Theorem head_walk_spec (g : Graph) (begin : Label) (fuel : nat) :
  ∀ (acc : list Label) (cur : Label) (l : list Label),
  head_walk fuel g begin acc cur = Ok l ↔
  ∃ path, l = acc ++ path ∧ head_path g begin cur path ∧ (length path ≤ fuel)%nat.
Proof.
  induction fuel as [|fuel IH]; intros acc cur l; simpl.
  - split; [done|]. intros ([|u rest] & _ & Hp & Hlen); [done|simpl in Hlen; lia].
  - case_bool_decide as Hcur.
    + split.
      * intros [= <-]. exists [cur]. split_and!; [done| |simpl; lia].
        simpl. split; [done|]. by left.
      * intros ([|u rest] & -> & Hp & _); [done|].
        destruct Hp as [-> [[_ ->]|[? _]]]; done.
    + split.
      * destruct (Dict.get cur g) as [b|] eqn:Hb; simpl; [|done].
        destruct (head (block_jump_targets b)) as [nxt|] eqn:Hn; simpl; [|done].
        intros (path & -> & Hp & Hlen)%IH.
        exists (cur :: path). split_and!; [by rewrite <- app_assoc| |simpl; lia].
        simpl. split; [done|]. right. split; [done|]. exists nxt. split; [|done].
        by exists b.
      * intros ([|u rest] & -> & Hp & Hlen); [done|].
        destruct Hp as [-> [[? _]|[_ (v & (b & Hb & Hv) & Hrest)]]]; [done|].
        rewrite Hb. simpl. rewrite Hv. simpl. apply IH.
        exists rest. split_and!; [by rewrite <- app_assoc|done|simpl in Hlen; lia].
Qed.

(** X23.  The walk has no other way out: when the first jump targets from
    the head stay inside a set of nodes that does not hold [begin], the loop
    never ends, whatever the number of turns allowed. *)
Theorem head_walk_hangs (g : Graph) (begin : Label) (T : gset Label) :
  begin ∉ T →
  (∀ u, u ∈ T → ∃ v, v ∈ T ∧ first_jump g u v) →
  ∀ (fuel : nat) (acc : list Label) (cur : Label),
  cur ∈ T → head_walk fuel g begin acc cur = NoFuel.
Proof.
  intros Hbegin Hclosed. induction fuel as [|fuel IH]; intros acc cur Hcur; [done|].
  simpl. rewrite bool_decide_eq_false_2 by (intros ->; done).
  destruct (Hclosed cur Hcur) as (v & Hv & b & Hb & Hh).
  rewrite Hb. simpl. rewrite Hh. simpl. by apply IH.
Qed.

Lemma head_walk_hangs_witness :
  head_walk 1000 cycle_graph (BCLabel 4) [] (BCLabel 0) = NoFuel.
Proof.
  apply (head_walk_hangs cycle_graph (BCLabel 4) {[BCLabel 0; BCLabel 2]}).
  - refine (bool_decide_unpack _ _). vm_compute. exact I.
  - intros u [Hu|Hu]%elem_of_union; apply elem_of_singleton in Hu as ->.
    + exists (BCLabel 2). split; [set_solver|]. eexists. split; reflexivity.
    + exists (BCLabel 0). split; [set_solver|]. eexists. split; reflexivity.
  - set_solver.
Defined.

(** ** One loop extraction, node by node *)

Section loop_keep.
Variables (a : BlockMap) (keep : list (Label * Block)) (s0 : State).
Hypothesis keep_old : ∀ i, clg_index s0 ≤ i → ControlLabel i ∉ keep.*1.

#[local] Abbreviation J := (pass_inv a keep s0).

Lemma J_new_index : triple J new_index (λ _, J).
Proof.
  eapply triple_conseq; [apply triple_new_index|done|]. by intros i s [? _].
Qed.

Lemma J_getitem k : triple J (bbmap_getitem a k) (λ _, J).
Proof.
  eapply triple_conseq; [apply triple_getitem|done|]. by intros b s [? _].
Qed.

Lemma J_join_exits (loop exits : gset Label) :
  (∀ k, k ∈ loop → k ∉ keep.*1) →
  triple J (join_exits loop a exits)
         (λ r s, J s ∧ ∃ i, clg_index s0 ≤ i ∧ r.1.1 = loop ∪ {[ControlLabel i]}).
Proof.
  intros Hloop. unfold join_exits.
  eapply triple_bind; [apply triple_new_index|intros i].
  apply triple_pure_r. intros Hi.
  eapply triple_bind; [apply triple_new_index|intros j].
  apply triple_pure_r. intros Hj.
  eapply triple_bind; [apply J_new_index|intros e1].
  eapply triple_bind; [apply J_new_index|intros e2].
  eapply triple_bind; [apply triple_add_node; by apply keep_old|intros ?].
  eapply triple_bind; [apply triple_add_node; by apply keep_old|intros ?].
  eapply triple_bind.
  2:{ intros ?. apply triple_ret. intros s Hs. split; [exact Hs|]. by exists i. }
  apply (triple_for_eachM _ _ (λ _ _, J)). intros done exit_node acc _.
  apply (triple_for_eachM _ _ (λ _ _, J)). intros done' loop_node acc' Hnode.
  unfold join_exits_rewire.
  case_bool_decide as Hpre; [by apply triple_ret|].
  eapply triple_bind; [apply J_getitem|intros b].
  case_bool_decide; [|by apply triple_ret].
  assert (loop_node ∉ keep.*1) as Hk.
  { apply Hloop. apply elem_of_elements in Hnode. set_solver. }
  eapply triple_bind; [by apply triple_pop|intros b'].
  apply triple_pure_r. intros Hb'.
  apply triple_add_node.
  assert (block_begin (replace_jump_targets b'
            (filter (λ t, t ≠ exit_node) (block_jump_targets b) ++ [ControlLabel i]))
          = block_begin b') as -> by by destruct b'.
  by rewrite Hb'.
Qed.

Lemma J_pop_insiders (ks : list Label) :
  (∀ k, k ∈ ks → k ∉ keep.*1) →
  triple J (pop_insiders a ks)
         (λ ins s, J s ∧ (length ins ≤ length ks)%nat ∧
                   (∀ k, k ∈ ks → ∃ bb, bb ∈ ins ∧ begin bb = k) ∧
                   ∀ k, k ∈ ks → k ∉ Dict.keys (graph_at s a)).
Proof.
  intros Hks. unfold pop_insiders.
  eapply triple_conseq;
    [apply (triple_for_eachM _ _
              (λ done ins s, J s ∧ (length ins ≤ length done)%nat ∧
                             (∀ k, k ∈ done → ∃ bb, bb ∈ ins ∧ begin bb = k) ∧
                             ∀ k, k ∈ done → k ∉ Dict.keys (graph_at s a)))| |].
  - intros done k ins Hk s (HJ & Hlen & Hall & Habs).
    pose proof (pass_inv_lookup a keep s0 s HJ) as Hl.
    pose proof HJ as (_ & _ & [Hd Hkb] & Hkeep).
    destruct s as [c st]. simpl in Hl. unfold mbind, M_bind.
    set (g := graph_at (mkState c st) a) in *.
    destruct (Dict.get k g) as [b|] eqn:Hget.
    2:{ unfold bbmap_pop, mbind, M_bind, get_graph. simpl. rewrite Hl. simpl.
        unfold Dict.pop. by rewrite Hget. }
    rewrite (run_bbmap_pop c st a g k b (Dict.del k g) Hl)
      by (unfold Dict.pop; by rewrite Hget).
    destruct b as [bb|r]; [|done]. unfold mret, M_ret.
    assert (block_begin (Basic bb) = k) as Hbeg by by apply Hkb, dict_get_elem_of.
    assert (graph_at (mkState c (<[a := Dict.del k g]> st)) a = Dict.del k g) as Hg'.
    { by apply (graph_at_insert _ _ _ g). }
    split_and!.
    + apply (pass_inv_put a keep s0 (mkState c st)); [done|by apply wf_graph_del|].
      intros [k' b'] Hin. apply dict_elem_of_del. split; [by apply Hkeep|].
      intros ->. apply (Hks k); [done|]. apply list_elem_of_fmap. by exists (k, b').
    + rewrite length_app. simpl.
      case_bool_decide; [lia|rewrite length_app; simpl; lia].
    + intros k' [Hk'|Hk']%elem_of_app.
      * destruct (Hall k' Hk') as (bb' & ? & ?). exists bb'. split; [|done].
        case_bool_decide; [done|apply elem_of_app; by left].
      * apply list_elem_of_singleton in Hk' as ->. exists bb. split; [|done].
        case_bool_decide; [done|apply elem_of_app; right; by left].
    + intros k' Hk'. rewrite Hg'. rewrite dict_elem_of_keys_del.
      apply elem_of_app in Hk' as [Hk'|Hk'].
      * intros [? _]. by apply (Habs k').
      * apply list_elem_of_singleton in Hk' as ->. by intros [_ ?].
  - intros s HJ. split_and!; [done|simpl; lia|by intros k ?%elem_of_nil..].
  - done.
Qed.

End loop_keep.

Lemma run_bbmap_setitem c (st : list Graph) a g k b :
  st !! a = Some g →
  bbmap_setitem a k b (mkState c st) = Done tt (mkState c (<[a := Dict.set k b g]> st)).
Proof.
  intros Ha. unfold bbmap_setitem, mbind, M_bind, get_graph, put_graph. simpl.
  by rewrite Ha.
Qed.

(** X24.  One turn of the [for loop in loops] of [restructure_loop] on a
    dict keyed by [begin] whose control labels were all minted by the
    generator: the turn ends (returns or raises).  When it returns, the set
    of nodes had exactly one header; a region of kind "loop" that begins at
    the header is filed under it, its subregion being a block map created
    during the turn; every other node of the set is gone from the map; and
    every node filed under a key outside the set is still there, unchanged. *)
Theorem restructure_loop_turn_spec (fuel : nat) (a : BlockMap) (s : State)
    (labels : option (Label * Label)) (Y : gset Label) :
  (a < length (store s))%nat →
  wf_graph (graph_at s a) →
  (∀ i, ControlLabel i ∈ Dict.keys (graph_at s a) → i < clg_index s) →
  (size Y < fuel)%nat →
  match restructure_loop_body (restructure_loop fuel) a labels Y s with
  | Done _ s' =>
      ∃ h r,
        (find_headers_and_entries (graph_at s a) Y).1 = {[h]} ∧
        Dict.get h (graph_at s' a) = Some (Region r) ∧
        kind r = "loop"%string ∧ begin (base r) = h ∧
        (length (store s) ≤ subregion r < length (store s'))%nat ∧
        (∀ k, k ∈ Y → k ≠ h → k ∉ Dict.keys (graph_at s' a)) ∧
        (∀ k b, (k, b) ∈ graph_at s a → k ∉ Y → (k, b) ∈ graph_at s' a)
  | Raised _ _ => True
  | Diverged => False
  end.
Proof.
  intros Ha Hwf Hold Hfuel.
  set (g := graph_at s a) in *.
  set (keep := filter (λ kb : Label * Block, kb.1 ∉ Y) g).
  assert (∀ i, clg_index s ≤ i → ControlLabel i ∉ keep.*1) as Hkeep_old.
  { intros i Hi Hin. apply list_elem_of_fmap in Hin as ([k b] & Hk & [_ Hg]%list_elem_of_filter).
    simpl in Hk. subst k. assert (i < clg_index s); [|lia].
    apply Hold. apply list_elem_of_fmap. by exists (ControlLabel i, b). }
  assert (∀ k, k ∈ Y → k ∉ keep.*1) as HkeepY.
  { intros k Hk Hin. apply list_elem_of_fmap in Hin as ([k' b] & -> & [HY _]%list_elem_of_filter).
    done. }
  assert (pass_inv a keep s s) as HJ0.
  { split_and!; [done|apply frame_refl|done|].
    by intros kb [_ ?]%list_elem_of_filter. }
  set (Q := λ (_ : option (Label * Label)) s',
         ∃ h r,
           (find_headers_and_entries g Y).1 = {[h]} ∧
           Dict.get h (graph_at s' a) = Some (Region r) ∧
           kind r = "loop"%string ∧ begin (base r) = h ∧
           (length (store s) ≤ subregion r < length (store s'))%nat ∧
           (∀ k, k ∈ Y → k ≠ h → k ∉ Dict.keys (graph_at s' a)) ∧
           (∀ k b, (k, b) ∈ g → k ∉ Y → (k, b) ∈ graph_at s' a)).
  assert (triple (λ s', graph_at s' a = g ∧ pass_inv a keep s s')
                 (restructure_loop_body (restructure_loop fuel) a labels Y) Q) as Htr.
  2:{ exact (Htr s (conj eq_refl HJ0)). }
  unfold restructure_loop_body.
  eapply triple_bind with (R := λ g' s', g' = g ∧ pass_inv a keep s s').
  { intros s' [Hg HJ]. unfold get_graph. split; [exact Hg|exact HJ]. }
  intros g'. apply triple_pure. intros ->.
  pose proof (find_headers_subset g Y) as Hsub.
  destruct (find_headers_and_entries g Y) as [headers entries] eqn:Hfhe.
  simpl in Hsub.
  eapply triple_bind;
    [apply triple_lift; [apply find_exits_fuel_free|intros ? s' _ Hs; exact Hs]|].
  intros [pre_exits post_exits].
  eapply triple_bind with
    (R := λ r s', (Y ⊆ r.1 ∧ (size r.1 ≤ size Y + 1)%nat ∧
                   ∀ k, k ∈ r.1 → k ∉ keep.*1) ∧ pass_inv a keep s s').
  { repeat case_bool_decide.
    - eapply triple_bind; [by apply J_join_exits|]. intros [[l p] q].
      apply triple_ret. intros s' [HJ' (i & Hi & Hl)]. simpl in *. subst l.
      split; [|done]. split_and!; [set_solver|apply size_add_one|].
      intros k [Hk|Hk]%elem_of_union; [by apply HkeepY|].
      apply elem_of_singleton in Hk as ->. by apply Hkeep_old.
    - apply triple_ret. intros s' HJ'. simpl. split; [|done].
      split_and!; [done|lia|done].
    - eapply triple_bind;
        [apply triple_lift; [apply from_option_fuel_free|intros ? s' _ Hs; exact Hs]|].
      intros p.
      eapply triple_bind;
        [apply triple_lift; [apply from_option_fuel_free|intros ? s' _ Hs; exact Hs]|].
      intros q.
      apply triple_ret. intros s' HJ'. simpl. split; [|done].
      split_and!; [done|lia|done]. }
  intros [loop' labels']. apply triple_pure. simpl. intros (HY & Hsz & Hloop').
  eapply triple_bind;
    [apply triple_lift; [apply from_option_fuel_free|intros ? s' _ Hs; exact Hs]|].
  intros [pre_exit_label post_exit_label].
  eapply triple_bind.
  { apply (J_pop_insiders a keep s (elements loop')).
    intros k Hk%elem_of_elements. by apply Hloop'. }
  intros insiders s4 (HJ4 & Hlen & Hall & Habs).
  change (length (elements loop')) with (size loop') in Hlen.
  unfold mbind at 1, M_bind at 1, lift at 1, assert.
  case_bool_decide as Hone; [|done].
  apply size_1_elem_of in Hone as [h Hh]. apply leibniz_equiv in Hh. subst headers.
  unfold mbind at 1, M_bind at 1, lift at 1, next_iter.
  rewrite elements_singleton. simpl.
  assert (h ∈ Y) as HhY by (apply Hsub; set_solver).
  destruct (Hall h) as (hb & Hhb & Hbeg); [by apply elem_of_elements, HY|].
  unfold mbind at 1, M_bind at 1, lift at 1.
  pose proof (build_loop_body_fuel_free {[h]} h insiders) as Hnf.
  destruct (build_loop_body {[h]} h insiders) as [body|e|] eqn:Hbody; [|done..].
  apply (build_loop_body_ok _ _ _ _ hb) in Hbody as [Hwfb Hlenb];
    [|done|rewrite Hbeg; set_solver].
  unfold mbind at 1, M_bind at 1, lift at 1.
  destruct h as [ho|hi]; simpl; [|done].
  set (h := BCLabel ho) in *.
  pose proof (pass_inv_lookup a keep s s4 HJ4) as Hl4.
  pose proof HJ4 as (_ & (Hlen4 & _ & _) & _ & Hkeep4).
  destruct s4 as [c4 st4]. simpl in Hl4, Hlen4.
  set (g4 := graph_at (mkState c4 st4) a) in *.
  unfold mbind at 1, M_bind at 1, new_BlockMap at 1. simpl.
  set (sub := length st4).
  set (s5 := mkState c4 (st4 ++ [body])).
  assert (graph_at s5 sub = body) as Hg5.
  { unfold graph_at, s5, sub. simpl. by rewrite lookup_app_r, Nat.sub_diag by lia. }
  pose proof (restructure_loop_rec_ok fuel (size Y) Hfuel sub s5) as Hrec.
  rewrite Hg5 in Hrec.
  specialize (Hrec ltac:(unfold s5, sub; simpl; rewrite length_app; simpl; lia)
                   Hwfb ltac:(lia)).
  unfold mbind at 1, M_bind at 1.
  destruct (restructure_loop fuel sub s5) as [v s6| |]; [|done..].
  destruct Hrec as [(Hlen6 & _ & Hfr6) _].
  assert (a < length st4)%nat as Ha4 by by eapply lookup_lt_Some.
  assert (store s6 !! a = Some g4) as Hl6.
  { rewrite Hfr6; [|unfold sub; lia|unfold s5; simpl; rewrite length_app; lia].
    unfold s5. simpl. by rewrite lookup_app_l. }
  destruct s6 as [c6 st6]. simpl in Hl6, Hlen6.
  unfold s5 in Hlen6. simpl in Hlen6. rewrite length_app in Hlen6. simpl in Hlen6.
  unfold mbind at 1, M_bind at 1.
  rewrite (run_bbmap_setitem c6 st6 a g4) by done.
  unfold mret, M_ret. unfold Q.
  rewrite (graph_at_insert _ _ _ g4) by done. simpl.
  eexists h, _. split_and!.
  - done.
  - rewrite dict_get_set. by rewrite decide_True.
  - done.
  - done.
  - simpl. unfold sub. lia.
  - simpl. rewrite length_insert. unfold sub. lia.
  - intros k Hk Hne. rewrite dict_elem_of_keys_set. intros [?|Hin]; [done|].
    apply (Habs k); [by apply elem_of_elements, HY|done].
  - intros k b Hin Hk. apply dict_set_other.
    + intros ->. done.
    + apply Hkeep4. by apply list_elem_of_filter.
Qed.

Lemma restructure_loop_turn_spec_witness :
  let s := mkState 0 [loop_graph] in
  let Y : gset Label := {[BCLabel 2; BCLabel 4]} in
  match restructure_loop_body (restructure_loop 5) 0%nat None Y s with
  | Done _ s' =>
      ∃ h r,
        (find_headers_and_entries (graph_at s 0%nat) Y).1 = {[h]} ∧
        Dict.get h (graph_at s' 0%nat) = Some (Region r) ∧
        kind r = "loop"%string ∧ begin (base r) = h ∧
        (length (store s) ≤ subregion r < length (store s'))%nat ∧
        (∀ k, k ∈ Y → k ≠ h → k ∉ Dict.keys (graph_at s' 0%nat)) ∧
        (∀ k b, (k, b) ∈ graph_at s 0%nat → k ∉ Y → (k, b) ∈ graph_at s' 0%nat)
  | Raised _ _ => True
  | Diverged => False
  end.
Proof.
  apply (restructure_loop_turn_spec 5 0%nat (mkState 0 [loop_graph]) None
           {[BCLabel 2; BCLabel 4]}).
  - simpl. lia.
  - apply wf_graph_check; vm_compute; reflexivity.
  - intros i Hin. exfalso. revert Hin. unfold graph_at, loop_graph. simpl.
    rewrite !elem_of_cons. intros [?|[?|[?|[?|?%elem_of_nil]]]]; done.
  - vm_compute. lia.
Defined.
